(** * SQF static analysis: block parser and analyzer

  A shallow embedding of [sqf/parser.py] and [sqf/analyser.py].

  Python lists are Rocq lists, Python dictionaries are [gmap]s (or
  association lists where the iteration order is observable), Python
  exceptions are the [Raise] results of an error monad, and the objects
  that the analyzer mutates in place (its namespaces) live in an explicit
  store addressed by references. *)

From Stdlib Require Import ZArith Lia Bool Ascii.
From stdpp Require Import base option list strings gmap pretty.

Open Scope string_scope.
Open Scope list_scope.

Set Warnings "-register-all".

(** ** Tokens and values ([sqf/types.py], [sqf/parser_types.py],
     [sqf/interpreter_types.py]) *)

Module types.

(** The classes of the token hierarchy.  A missing payload ([None]) is the
    instance built by the class called with no argument ([Number()],
    [Array()], ...), i.e. a value of known type and unknown content. *)
Inductive BaseType : Type :=
| Keyword (value : string)
| Preprocessor (value : string)
| Namespace (value : string)
| Variable_ (name : string)
| Number (value : option Z)
| Boolean (value : option bool)
| String (text : option string)
| Comment (text : string)
| Space
| Tab
| EndOfLine (text : string)
| BrokenEndOfLine
| EndOfFile
| Statement (tokens : list BaseType) (ending : string) (parenthesis : bool)
| Code (tokens : list BaseType)
| File (tokens : list BaseType)
| Array (values : option (list BaseType))
| DefineStatement (tokens : list BaseType) (variable_name : string)
    (expression : list BaseType) (args : list string) (ending : string)
| DefineResult (tokens : list BaseType) (define_statement : BaseType)
    (result : BaseType) (ending : string)
| Nothing
| Object
| PrivateType (variable : BaseType)
| ForType.

(** [isinstance(t, ParserType)]: the layout tokens that carry no meaning. *)
Definition is_ParserType (t : BaseType) : bool :=
  match t with
  | Comment _ | Space | Tab | EndOfLine _ | BrokenEndOfLine | EndOfFile => true
  | _ => false
  end.

(** [DefineStatement] and [DefineResult] derive from [Statement]: the
    analyzer reads the base tokens of a [#define] like those of any
    statement, and [parse_block] writes the [_tokens] of a [DefineResult].
    [statement_parts] gives the tokens, the ending and the parenthesis flag
    of an instance of [Statement]. *)
Definition statement_parts (t : BaseType)
    : option (list BaseType * string * bool) :=
  match t with
  | Statement l e p => Some (l, e, p)
  | DefineStatement l _ _ _ e => Some (l, e, false)
  | DefineResult l _ _ e => Some (l, e, false)
  | _ => None
  end.

Definition is_Statement (t : BaseType) : bool :=
  match statement_parts t with Some _ => true | None => false end.

(** [File] derives from [Code]. *)
Definition is_Code (t : BaseType) : bool :=
  match t with Code _ | File _ => true | _ => false end.

Definition is_File (t : BaseType) : bool :=
  match t with File _ => true | _ => false end.

(** [Preprocessor] derives from [Keyword]. *)
Definition is_Keyword (t : BaseType) : bool :=
  match t with Keyword _ | Preprocessor _ => true | _ => false end.

Definition keyword_value (t : BaseType) : string :=
  match t with Keyword v | Preprocessor v => v | _ => "" end.

Definition join (sep : string) (l : list string) : string :=
  match l with
  | [] => ""
  | x :: r => fold_left (fun acc y => acc +:+ sep +:+ y) r x
  end.

(** Modelled from the spec: [sqf/types.py] is not part of the sources at
    hand; [str] is the "canonical textual form" of a token: the text of a
    leaf, and the bracketed concatenation of its parts for a container. *)
Fixpoint str (t : BaseType) : string :=
  match t with
  | Keyword v | Preprocessor v | Namespace v => v
  | Variable_ n => n
  | Number (Some z) => pretty z
  | Number None => "<Number>"
  | Boolean (Some true) => "true"
  | Boolean (Some false) => "false"
  | Boolean None => "<Boolean>"
  | String (Some s) => s
  | String None => "<String>"
  | Comment s => s
  | Space => " "
  | Tab => String.String (ascii_of_nat 9) ""
  | EndOfLine s => s
  | BrokenEndOfLine => String.String "\" (String.String (ascii_of_nat 10) "")
  | EndOfFile => ""
  | Statement l e p =>
      let body := String.concat "" (map str l) in
      (if p then "(" +:+ body +:+ ")" else body) +:+ e
  | Code l | File l => "{" +:+ String.concat "" (map str l) +:+ "}"
  | Array (Some l) => "[" +:+ join "," (map str l) +:+ "]"
  | Array None => "[]"
  | DefineStatement l _ _ _ e => String.concat "" (map str l) +:+ e
  | DefineResult l _ _ e => String.concat "" (map str l) +:+ e
  | Nothing => "Nothing"
  | Object => "Object"
  | PrivateType v => "private " +:+ str v
  | ForType => "ForType"
  end.

(** Structural equality, the [==] of tokens. *)
Fixpoint token_eqb (a b : BaseType) {struct a} : bool :=
  let list_eqb :=
    fix list_eqb (l1 l2 : list BaseType) {struct l1} : bool :=
      match l1, l2 with
      | [], [] => true
      | x :: r1, y :: r2 => token_eqb x y && list_eqb r1 r2
      | _, _ => false
      end in
  match a, b with
  | Keyword v, Keyword w | Keyword v, Preprocessor w
  | Preprocessor v, Keyword w | Preprocessor v, Preprocessor w => String.eqb v w
  | Namespace v, Namespace w => String.eqb v w
  | Variable_ v, Variable_ w => String.eqb v w
  | Number v, Number w => bool_decide (v = w)
  | Boolean v, Boolean w => bool_decide (v = w)
  | String v, String w => bool_decide (v = w)
  | Comment v, Comment w => String.eqb v w
  | Space, Space | Tab, Tab | BrokenEndOfLine, BrokenEndOfLine
  | EndOfFile, EndOfFile | Nothing, Nothing | Object, Object
  | ForType, ForType => true
  | EndOfLine v, EndOfLine w => String.eqb v w
  | Statement l1 e1 p1, Statement l2 e2 p2 =>
      list_eqb l1 l2 && String.eqb e1 e2 && Bool.eqb p1 p2
  | Code l1, Code l2 | File l1, File l2 => list_eqb l1 l2
  | Array None, Array None => true
  | Array (Some l1), Array (Some l2) => list_eqb l1 l2
  | DefineStatement l1 n1 x1 a1 e1, DefineStatement l2 n2 x2 a2 e2 =>
      list_eqb l1 l2 && String.eqb n1 n2 && list_eqb x1 x2
      && bool_decide (a1 = a2) && String.eqb e1 e2
  | DefineResult l1 d1 r1 e1, DefineResult l2 d2 r2 e2 =>
      list_eqb l1 l2 && token_eqb d1 d2 && token_eqb r1 r2 && String.eqb e1 e2
  | PrivateType v, PrivateType w => token_eqb v w
  | _, _ => false
  end.

End types.
Export types.

(** ** Exceptions ([sqf/exceptions.py]) *)

Module exceptions.

(** [PythonError] stands for the errors of the language itself (an index out
    of range, a missing key, a failed [assert]). *)
Inductive exception_class :=
  SQFParserError | SQFParenthesisError | SQFWarning | PythonError.

(** An exception carries its class and its message.  [coord] is the text
    handed to [get_coord] (the position is its end), or the empty string
    where the position comes from a token. *)
Record exception := mk_exception {
  exc_class : exception_class;
  exc_coord : string;
  exc_message : string
}.

#[export] Instance exception_class_eq_dec : EqDecision exception_class.
Proof. solve_decision. Defined.

#[export] Instance exception_eq_dec : EqDecision exception.
Proof. solve_decision. Defined.

(** The outcome of code that may raise. *)
Inductive result (A : Type) : Type :=
| Ok (a : A)
| Raise (e : exception)
| OutOfFuel.
Arguments Ok {A} a.
Arguments Raise {A} e.
Arguments OutOfFuel {A}.

Definition raises {A} (r : result A) (c : exception_class) : Prop :=
  exists e, r = Raise e /\ exc_class e = c.

#[export] Instance result_ret : MRet result := fun A a => Ok a.

#[export] Instance result_bind : MBind result := fun A B f m =>
  match m with
  | Ok a => f a
  | Raise e => Raise e
  | OutOfFuel => OutOfFuel
  end.

(** The value of an option, or the given exception. *)
Definition or_raise {A} (o : option A) (e : exception) : result A :=
  match o with
  | Some a => Ok a
  | None => Raise e
  end.

End exceptions.
Export exceptions.

(** ** Python sequences: negative indices and slices *)

Module py.

Definition len {A} (l : list A) : Z := Z.of_nat (length l).

(** [l[k]]: a negative index counts from the end; [None] is [IndexError]. *)
Definition index {A} (l : list A) (k : Z) : option A :=
  if (k <? 0)%Z
  then (if (k + len l <? 0)%Z then None else l !! Z.to_nat (k + len l))
  else l !! Z.to_nat k.

Definition clamp {A} (l : list A) (k : Z) : Z :=
  let k' := if (k <? 0)%Z then (k + len l)%Z else k in
  Z.max 0 (Z.min (len l) k').

(** [l[lo:hi]] *)
Definition slice {A} (l : list A) (lo hi : Z) : list A :=
  let a := clamp l lo in
  let b := clamp l hi in
  take (Z.to_nat (b - a)) (drop (Z.to_nat a) l).

(** [l[lo:]] *)
Definition slice_from {A} (l : list A) (lo : Z) : list A :=
  drop (Z.to_nat (clamp l lo)) l.

(** [l[:hi]] *)
Definition slice_to {A} (l : list A) (hi : Z) : list A :=
  take (Z.to_nat (clamp l hi)) l.

(** A dictionary whose order of insertion is observed: [d[k] = v],
    [d.get(k)], [k in d] and [del d[k]]. *)
Fixpoint dict_set {K V} `{EqDecision K} (d : list (K * V)) (k : K) (v : V)
    : list (K * V) :=
  match d with
  | [] => [(k, v)]
  | (k', v') :: r =>
      if bool_decide (k' = k) then (k', v) :: r else (k', v') :: dict_set r k v
  end.

Fixpoint dict_get {K V} `{EqDecision K} (d : list (K * V)) (k : K) : option V :=
  match d with
  | [] => None
  | (k', v) :: r => if bool_decide (k' = k) then Some v else dict_get r k
  end.

Definition dict_in {K V} `{EqDecision K} (k : K) (d : list (K * V)) : bool :=
  match dict_get d k with Some _ => true | None => false end.

Definition dict_del {K V} `{EqDecision K} (d : list (K * V)) (k : K)
    : list (K * V) :=
  List.filter (fun p => negb (bool_decide (fst p = k))) d.

(** [s.split(c)] *)
Fixpoint split (c : ascii) (s : string) : list string :=
  match s with
  | EmptyString => [EmptyString]
  | String.String a r =>
      if Ascii.eqb a c then EmptyString :: split c r
      else match split c r with
           | x :: xs => String.String a x :: xs
           | [] => [String.String a EmptyString]
           end
  end.

(** [s[1:-1]] *)
Definition strip_ends (s : string) : string :=
  String.string_of_list_ascii (removelast (tail (String.list_ascii_of_string s))).

Definition IndexError : exception :=
  mk_exception PythonError EmptyString "IndexError".

Definition KeyError : exception :=
  mk_exception PythonError EmptyString "KeyError".

Definition AssertionError : exception :=
  mk_exception PythonError EmptyString "AssertionError".

Definition TypeError : exception :=
  mk_exception PythonError EmptyString "TypeError".

Definition ValueError : exception :=
  mk_exception PythonError EmptyString "ValueError".

Definition AttributeError : exception :=
  mk_exception PythonError EmptyString "AttributeError".

End py.

(** The double quote and the line ends, as strings. *)
Definition dq : string := String.String (ascii_of_nat 34) EmptyString.
Definition nl : string := String.String (ascii_of_nat 10) EmptyString.
Definition crnl : string := String.String (ascii_of_nat 13) nl.

(** ** The parser ([sqf/parser.py]) *)

Module parser.

(** [get_coord(tokens)] joins the text of the tokens and asks
    [sqf.base_type.get_coord] for the position of its end; the embedding
    keeps the joined text. *)
Definition get_coord (tokens : list BaseType) : string :=
  String.concat "" (map str tokens).

(** *** Strings and comments *)

(** What [parse_strings_and_comments] yields: the raw text of the tokenizer,
    or an assembled [String] or [Comment]. *)
Inductive lexeme :=
| Raw (text : string)
| Literal (t : BaseType).

Definition lexeme_str (x : lexeme) : string :=
  match x with Raw s => s | Literal t => str t end.

Inductive mode := string_single | string_double | comment_line | comment_bulk.

#[export] Instance mode_eq_dec : EqDecision mode.
Proof. solve_decision. Defined.

(** The local variables of [parse_strings_and_comments]. *)
Record scanner := mk_scanner {
  sc_string : string;
  sc_tokens : list lexeme;
  sc_in_double : bool;
  sc_mode : option mode
}.

(** The part of the loop body shared by the two string modes; [quote] is
    the delimiter and [next] is [all_tokens[i+1]] when [i] is not the last
    index. *)
Definition string_step (quote : string) (st : scanner) (token : string)
    (next : option string) : scanner :=
  let string := sc_string st +:+ token in
  if String.eqb token quote then
    if sc_in_double st then
      mk_scanner string (sc_tokens st) false (sc_mode st)
    else if bool_decide (next = Some quote) then
      mk_scanner string (sc_tokens st) true (sc_mode st)
    else
      mk_scanner string (sc_tokens st ++ [Literal (String (Some string))]) false None
  else mk_scanner string (sc_tokens st) (sc_in_double st) (sc_mode st).

(** One iteration of the [for] loop. *)
Definition scan_step (st : scanner) (token : string) (next : option string)
    : scanner :=
  match sc_mode st with
  | Some string_double => string_step dq st token next
  | Some string_single => string_step "'" st token next
  | Some comment_bulk =>
      let string := sc_string st +:+ token in
      if String.eqb token "*/"
      then mk_scanner "" (sc_tokens st ++ [Literal (Comment string)])
             (sc_in_double st) None
      else mk_scanner string (sc_tokens st) (sc_in_double st) (sc_mode st)
  | Some comment_line =>
      let string := sc_string st +:+ token in
      if String.eqb token nl || String.eqb token crnl
      then mk_scanner "" (sc_tokens st ++ [Literal (Comment string)])
             (sc_in_double st) None
      else mk_scanner string (sc_tokens st) (sc_in_double st) (sc_mode st)
  | None =>
      if String.eqb token dq then
        mk_scanner token (sc_tokens st) (sc_in_double st) (Some string_double)
      else if String.eqb token "'" then
        mk_scanner token (sc_tokens st) (sc_in_double st) (Some string_single)
      else if String.eqb token "/*" then
        mk_scanner token (sc_tokens st) (sc_in_double st) (Some comment_bulk)
      else if String.eqb token "//" then
        mk_scanner token (sc_tokens st) (sc_in_double st) (Some comment_line)
      else
        mk_scanner (sc_string st) (sc_tokens st ++ [Raw token])
          (sc_in_double st) (sc_mode st)
  end.

Fixpoint scan (all_tokens : list string) (st : scanner) : scanner :=
  match all_tokens with
  | [] => st
  | token :: rest => scan rest (scan_step st token (head rest))
  end.

Definition scan_start : scanner := mk_scanner "" [] false None.

Definition parse_strings_and_comments (all_tokens : list string)
    : result (list lexeme) :=
  let st := scan all_tokens scan_start in
  match sc_mode st with
  | Some comment_line | Some comment_bulk =>
      Ok (sc_tokens st ++ [Literal (Comment (sc_string st))])
  | Some _ =>
      Raise (mk_exception SQFParserError
               (String.concat "" (map lexeme_str (sc_tokens st)))
               "String is not closed")
  | None => Ok (sc_tokens st)
  end.

(** The mode in which the scan of a raw token sequence ends: the input ends
    inside a literal of that kind, or outside of any literal. *)
Definition final_mode (all_tokens : list string) : option mode :=
  sc_mode (scan all_tokens scan_start).

Definition ends_in_string (all_tokens : list string) : Prop :=
  final_mode all_tokens = Some string_single
  \/ final_mode all_tokens = Some string_double.

Definition ends_in_comment (all_tokens : list string) : Prop :=
  final_mode all_tokens = Some comment_line
  \/ final_mode all_tokens = Some comment_bulk.

(** *** Statements and arrays *)

Section analyze.

(** [parse_exp(tokens, container=Statement)] of [sqf/parser_exp.py], which
    groups a run of tokens by operator precedence. *)
Variable parse_exp : list BaseType -> BaseType.

Definition is_separator (t : BaseType) : bool :=
  token_eqb t (Keyword ";") || token_eqb t (Keyword ",").

Definition _analyze_tokens (tokens : list BaseType) : BaseType :=
  let '(ending, tokens) :=
    match last tokens with
    | Some t =>
        if is_separator t then (keyword_value t, removelast tokens)
        else ("", tokens)
    | None => ("", tokens)
    end in
  match parse_exp tokens with
  | Statement l _ p => Statement l ending p
  | DefineStatement l n x a _ => DefineStatement l n x a ending
  | DefineResult l d r _ => DefineResult l d r ending
  | statement => Statement [statement] ending false
  end.

Definition empty_element (tokens_until : list BaseType) : exception :=
  mk_exception SQFParserError (get_coord tokens_until)
    "Array cannot have an empty element".

(** The [for] loop of [_analyze_array_tokens], on its local variables
    [result], [part] and [first_comma_found]. *)
Fixpoint _analyze_array_loop (tokens_until tokens result part : list BaseType)
    (first_comma_found : bool)
    : exceptions.result (list BaseType * list BaseType * bool) :=
  match tokens with
  | [] => Ok (result, part, first_comma_found)
  | token :: rest =>
      if token_eqb token (Keyword ",") then
        match part with
        | [] => Raise (empty_element tokens_until)
        | _ => _analyze_array_loop tokens_until rest
                 (result ++ [_analyze_tokens part]) [] true
        end
      else _analyze_array_loop tokens_until rest result (part ++ [token])
             first_comma_found
  end.

Definition _analyze_array_tokens (tokens tokens_until : list BaseType)
    : result (list BaseType) :=
  match _analyze_array_loop tokens_until tokens [] [] false with
  | Ok (result, part, first_comma_found) =>
      if bool_decide (part = []) && first_comma_found
      then Raise (empty_element tokens_until)
      else match tokens with
           | [] => Ok result
           | _ => Ok (result ++ [_analyze_tokens part])
           end
  | Raise e => Raise e
  | OutOfFuel => OutOfFuel
  end.

End analyze.

(** *** Macros *)

(** [replace_in_expression], on one token of the expression: a [Statement]
    is rebuilt from its replaced parts, any other token whose text is an
    argument name becomes the token of the call at that argument's index. *)
Fixpoint replace_in_token (args : list string) (arg_indexes : list Z)
    (all_tokens : list BaseType) (token : BaseType) {struct token} : result BaseType :=
  let replace_all :=
    fix go (l : list BaseType) : result (list BaseType) :=
      match l with
      | [] => Ok []
      | x :: r =>
          x' ← replace_in_token args arg_indexes all_tokens x;
          r' ← go r;
          Ok (x' :: r')
      end in
  match token with
  | Statement l ending parenthesis =>
      new_expression ← replace_all l;
      Ok (Statement new_expression ending parenthesis)
  | DefineStatement l _ _ _ ending | DefineResult l _ _ ending =>
      new_expression ← replace_all l;
      Ok (Statement new_expression ending false)
  | _ =>
      match find (fun p => String.eqb (str token) (fst p)) (zip args arg_indexes) with
      | Some (_, arg_index) => or_raise (py.index all_tokens arg_index) py.IndexError
      | None => Ok token
      end
  end.

Fixpoint replace_in_expression (expression : list BaseType) (args : list string)
    (arg_indexes : list Z) (all_tokens : list BaseType) : result (list BaseType) :=
  match expression with
  | [] => Ok []
  | token :: rest =>
      token' ← replace_in_token args arg_indexes all_tokens token;
      rest' ← replace_in_expression rest args arg_indexes all_tokens;
      Ok (token' :: rest')
  end.

(** The indexes of the tokens that are not layout, from index [i] on. *)
Fixpoint valid_indexes_from (i : nat) (tokens : list BaseType) : list nat :=
  match tokens with
  | [] => []
  | t :: r =>
      if is_ParserType t then valid_indexes_from (S i) r
      else i :: valid_indexes_from (S i) r
  end.

Definition define_args (d : BaseType) : list string :=
  match d with DefineStatement _ _ _ args _ => args | _ => [] end.

Definition define_expression (d : BaseType) : list BaseType :=
  match d with DefineStatement _ _ expression _ _ => expression | _ => [] end.

Definition define_variable_name (d : BaseType) : string :=
  match d with DefineStatement _ name _ _ _ => name | _ => "" end.

Definition _analyze_define (tokens : list BaseType) : result BaseType :=
  first ← or_raise (head tokens) py.IndexError;
  if negb (token_eqb first (Preprocessor "#define")) then Raise py.AssertionError
  else
    let '(ending, tokens) :=
      match last tokens with
      | Some (EndOfLine _ as t) | Some (Comment _ as t) => (str t, removelast tokens)
      | _ => ("", tokens)
      end in
    match valid_indexes_from 0 tokens with
    | [] | [_] =>
        Raise (mk_exception SQFParserError (str first)
                 "#define needs at least one argument")
    | [_; i1] =>
        t1 ← or_raise (tokens !! i1) py.IndexError;
        Ok (DefineStatement tokens (str t1) [] [] ending)
    | _ :: i1 :: i2 :: more =>
        t1 ← or_raise (tokens !! i1) py.IndexError;
        t2 ← or_raise (tokens !! i2) py.IndexError;
        let variable := str t1 in
        match t2 with
        | Statement _ _ true =>
            if Nat.eqb (i1 + 1) i2 then
              let args := py.split "," (py.strip_ends (str t2)) in
              i3 ← or_raise (head more) py.IndexError;
              Ok (DefineStatement tokens variable (drop i3 tokens) args ending)
            else Ok (DefineStatement tokens variable (drop i2 tokens) [] ending)
        | _ => Ok (DefineStatement tokens variable (drop i2 tokens) [] ending)
        end
    end.

(** *** Blocks *)

Inductive stop := both | single.

#[export] Instance stop_eq_dec : EqDecision stop.
Proof. solve_decision. Defined.

(** The macro table: for a name, the definitions by number of arguments, in
    the order in which the arities were first defined. *)
Abbreviation macros := (gmap string (list (nat * BaseType))).

(** [lvls[k]] *)
Definition lvl (lvls : gmap string nat) (k : string) : nat :=
  default 0 (lvls !! k).

(** [lvls[k] += 1], on the copy that the callee receives. *)
Definition incr (lvls : gmap string nat) (k : string) : gmap string nat :=
  <[k := S (lvl lvls k)]> lvls.

Definition brackets : list string := ["[]"; "()"; "{}"].

Definition not_opened (k msg : string) (until : list BaseType) : exception :=
  mk_exception SQFParenthesisError (get_coord until) msg.

Definition close_square_msg : string :=
  "Trying to close right parenthesis without them opened.".
Definition close_round_msg : string :=
  "Trying to close parenthesis without opened parenthesis.".
Definition close_curly_msg : string :=
  "Trying to close brackets without opened brackets.".

(** ['Parenthesis "%s" not closed' % lvl_type[0]] *)
Definition not_closed_msg (lvl_type : string) : string :=
  "Parenthesis " +:+ dq +:+ String.substring 0 1 lvl_type +:+ dq +:+ " not closed".

Definition is_line_end (t : BaseType) : bool :=
  match t with EndOfLine _ | Comment _ | EndOfFile => true | _ => false end.

Definition is_EndOfFile (t : BaseType) : bool :=
  match t with EndOfFile => true | _ => false end.

Section block.

(** [PREPROCESSORS] of [sqf/keywords.py], the directive keywords. *)
Variable PREPROCESSORS : list string.

(** The two callbacks that [parse_block] receives. *)
Variable analyze_tokens : list BaseType -> BaseType.
Variable analyze_array : list BaseType -> list BaseType -> result (list BaseType).

Definition zero_lvls : gmap string nat :=
  list_to_map (map (fun k => (k, 0)) (brackets ++ PREPROCESSORS)).

(** [if not initial_lvls: initial_lvls = {...}] *)
Definition or_zero_lvls (initial_lvls : gmap string nat) : gmap string nat :=
  if bool_decide (initial_lvls = ∅) then zero_lvls else initial_lvls.

(** [all(lvls[x] == 0 for x in PREPROCESSORS)] *)
Definition no_directive (lvls : gmap string nat) : bool :=
  forallb (fun x => Nat.eqb (lvl lvls x) 0) PREPROCESSORS.

(** The condition under which a separator ends the current statement. *)
Definition ends_statement (lvls : gmap string nat) (stop_statement : stop)
    (token : BaseType) : bool :=
  no_directive lvls && bool_decide (stop_statement = both)
    && (token_eqb token (Keyword ";") || token_eqb token (Keyword ","))
  || bool_decide (stop_statement = single) && token_eqb token (Keyword ";").

(** The inner [for arg_i in range(arg_number + 1)] loop: [true] when it runs
    to its end (the [else] of the [for]); the indexes found are appended to
    [arg_indexes] either way. *)
Fixpoint match_args (all_tokens : list BaseType) (i : Z) (arg_number : nat)
    (arg_is : list nat) (arg_indexes : list Z) : result (bool * list Z) :=
  match arg_is with
  | [] => Ok (true, arg_indexes)
  | arg_i :: rest =>
      let index :=
        if Nat.eqb arg_i arg_number then (i + 2 + 2 * Z.of_nat arg_i - 1)%Z
        else (i + 2 + 2 * Z.of_nat arg_i)%Z in
      if (py.len all_tokens <=? index)%Z then Ok (false, arg_indexes)
      else
        t ← or_raise (py.index all_tokens index) py.IndexError;
        let arg_str := str t in
        if Nat.eqb arg_i arg_number && negb (String.eqb arg_str ")")
        then Ok (false, arg_indexes)
        else (* [re.match('(.*?)', arg_str)] matches every string *)
          match_args all_tokens i arg_number rest
            (if Nat.eqb arg_i arg_number then arg_indexes
             else arg_indexes ++ [index])
  end.

(** The [for arg_number in possible_args] loop. *)
Fixpoint match_arities (all_tokens : list BaseType) (i : Z)
    (possible_args : list (nat * BaseType)) (arg_indexes : list Z)
    : result (option (BaseType * list Z)) :=
  match possible_args with
  | [] => Ok None
  | (arg_number, define_statement) :: rest =>
      if Nat.eqb arg_number 0 then match_arities all_tokens i rest arg_indexes
      else
        '(complete, arg_indexes) ←
          match_args all_tokens i arg_number (seq 0 (arg_number + 1)) arg_indexes;
        if complete : bool then Ok (Some (define_statement, arg_indexes))
        else match_arities all_tokens i rest arg_indexes
  end.

(** "try to match an expression and get the arguments": the definition and
    the argument indexes when [token] at index [i] calls a macro. *)
Definition find_define (all_tokens : list BaseType) (defines : macros) (i : Z)
    (token : BaseType) : result (option (BaseType * list Z)) :=
  match defines !! str token with
  | None => Ok None
  | Some possible_args =>
      let next_is_open :=
        if (i + 1 <? py.len all_tokens)%Z then
          t ← or_raise (py.index all_tokens (i + 1)) py.IndexError;
          Ok (String.eqb (str t) "(")
        else Ok false in
      open ← next_is_open;
      if open : bool then match_arities all_tokens i possible_args []
      else match py.dict_get possible_args 0 with
           | Some define_statement => Ok (Some (define_statement, []))
           | None => Ok None
           end
  end.

(** [defines[name][len(args)] = define_statement] *)
Definition add_define (defines : macros) (define_statement : BaseType) : macros :=
  let name := define_variable_name define_statement in
  <[name := py.dict_set (default [] (defines !! name))
              (length (define_args define_statement)) define_statement]> defines.

(** What follows the [while] loop of [parse_block]. *)
Definition block_end (all_tokens : list BaseType) (start : Z)
    (lvls : gmap string nat) (defines : macros) (i : Z)
    (statements tokens : list BaseType) : result (BaseType * Z * macros) :=
  match find (fun lvl_type => negb (Nat.eqb (lvl lvls lvl_type) 0)
                              && negb (bool_decide (lvl_type ∈ PREPROCESSORS)))
          brackets with
  | Some lvl_type =>
      Raise (mk_exception SQFParenthesisError
               (get_coord (py.slice_to all_tokens (start - 1)))
               (not_closed_msg lvl_type))
  | None =>
      let statements :=
        match tokens with
        | [] => statements
        | _ => statements ++ [analyze_tokens tokens]
        end in
      Ok (Statement statements "" false, (i - start)%Z, defines)
  end.

(** One turn of the [while] loop of [parse_block] on its local variables
    [i], [statements] and [tokens], followed by the rest of the loop;
    [self] is the loop itself, so that [parse_block] is [self] entered at
    [i = start] with nothing accumulated.  [defines] is the one dictionary
    that all the calls share: it is threaded through the results. *)
Definition parse_turn
    (self : list BaseType -> Z -> gmap string nat -> stop -> macros -> Z ->
            list BaseType -> list BaseType -> result (BaseType * Z * macros))
    (all_tokens : list BaseType) (start : Z)
    (lvls : gmap string nat) (stop_statement : stop) (defines : macros)
    (i : Z) (statements tokens : list BaseType)
    : result (BaseType * Z * macros) :=
    let parse_loop := self in
    let parse_block all_tokens' start' initial_lvls stop' defines' :=
      self all_tokens' start' (or_zero_lvls initial_lvls) stop'
        defines' start' [] [] in
    if negb (i <? py.len all_tokens)%Z
    then block_end all_tokens start lvls defines i statements tokens
    else
      token ← or_raise (py.index all_tokens i) py.IndexError;
      found ← find_define all_tokens defines i token;
      match found with
      | Some (define_statement, arg_indexes) =>
          let arg_number := length (define_args define_statement) in
          let nonzero := if Nat.eqb arg_number 0 then 0%Z else 1%Z in
          let extra_tokens_to_move :=
            (1 + 2 * nonzero + 2 * Z.of_nat arg_number - 1 * nonzero)%Z in
          let replaced_expression :=
            py.slice all_tokens i (i + extra_tokens_to_move) in
          replacing_expression ←
            replace_in_expression (define_expression define_statement)
              (define_args define_statement) arg_indexes all_tokens;
          let new_all_tokens :=
            py.slice_to all_tokens (i - py.len tokens) ++ tokens
              ++ replacing_expression
              ++ py.slice_from all_tokens (i + extra_tokens_to_move) in
          let new_start := (i - py.len tokens)%Z in
          '(expression, size, defines) ←
            parse_block new_all_tokens new_start lvls stop_statement defines;
          let original_tokens_taken :=
            (py.len replaced_expression - py.len replacing_expression + size)%Z in
          let original_tokens :=
            py.slice all_tokens (i - py.len tokens)
              (i - py.len tokens + original_tokens_taken) in
          expression ←
            match statement_parts expression with
            | Some (l, _, _) => or_raise (head l) py.IndexError
            | None => Ok expression
            end;
          last_token ← or_raise (last original_tokens) py.IndexError;
          let '(original_tokens, original_tokens_taken) :=
            if is_line_end last_token
            then (removelast original_tokens, (original_tokens_taken - 1)%Z)
            else (original_tokens, original_tokens_taken) in
          let expression :=
            DefineResult original_tokens define_statement expression "" in
          parse_loop all_tokens start lvls stop_statement defines
            (i + (original_tokens_taken - py.len tokens - 1) + 1)%Z
            (statements ++ [expression]) []
      | None =>
        if token_eqb token (Keyword "[") then
          '(expression, size, defines) ←
            parse_block all_tokens (i + 1)%Z (incr lvls "[]") single defines;
          parse_loop all_tokens start lvls stop_statement defines
            (i + (size + 1) + 1)%Z statements (tokens ++ [expression])
        else if token_eqb token (Keyword "(") then
          '(expression, size, defines) ←
            parse_block all_tokens (i + 1)%Z (incr lvls "()") stop_statement
              defines;
          parse_loop all_tokens start lvls stop_statement defines
            (i + (size + 1) + 1)%Z statements (tokens ++ [expression])
        else if token_eqb token (Keyword "{") then
          '(expression, size, defines) ←
            parse_block all_tokens (i + 1)%Z (incr lvls "{}") stop_statement
              defines;
          parse_loop all_tokens start lvls stop_statement defines
            (i + (size + 1) + 1)%Z statements (tokens ++ [expression])
        else if token_eqb token (Keyword "]") then
          if Nat.eqb (lvl lvls "[]") 0 then
            Raise (not_opened "[]" close_square_msg (py.slice_to all_tokens i))
          else
            match statements with
            | DefineResult _tokens d r e :: _ =>
                array ← analyze_array _tokens (py.slice_to all_tokens i);
                Ok (DefineResult [Array (Some array)] d r e, (i - start)%Z,
                    defines)
            | _ :: _ =>
                Raise (mk_exception SQFParserError
                         (get_coord (py.slice_to all_tokens i))
                         ("A statement " +:+ str (Statement statements "" false)
                          +:+ " cannot be in an array"))
            | [] =>
                array ← analyze_array tokens (py.slice_to all_tokens i);
                Ok (Array (Some array), (i - start)%Z, defines)
            end
        else if token_eqb token (Keyword ")") then
          if Nat.eqb (lvl lvls "()") 0 then
            Raise (not_opened "()" close_round_msg (py.slice_to all_tokens i))
          else
            let statements :=
              match tokens with
              | [] => statements
              | _ => statements ++ [analyze_tokens tokens]
              end in
            Ok (Statement statements "" true, (i - start)%Z, defines)
        else if token_eqb token (Keyword "}") then
          if Nat.eqb (lvl lvls "{}") 0 then
            Raise (not_opened "{}" close_curly_msg (py.slice_to all_tokens i))
          else
            let statements :=
              match tokens with
              | [] => statements
              | _ => statements ++ [analyze_tokens tokens]
              end in
            Ok (Code statements, (i - start)%Z, defines)
        else if ends_statement lvls stop_statement token then
          parse_loop all_tokens start lvls stop_statement defines
            (i + 1)%Z (statements ++ [analyze_tokens (tokens ++ [token])]) []
        else if is_Keyword token
                && bool_decide (keyword_value token ∈ PREPROCESSORS) then
          let statements :=
            match tokens with
            | [] => statements
            | _ => statements ++ [analyze_tokens tokens]
            end in
          '(expression, size, defines) ←
            parse_block all_tokens (i + 1)%Z (incr lvls (keyword_value token))
              stop_statement defines;
          parse_loop all_tokens start lvls stop_statement defines
            (i + (size + 1) + 1)%Z (statements ++ [expression]) []
        else if is_line_end token && negb (no_directive lvls) then
          trigger ← or_raise (py.index all_tokens (start - 1)) py.IndexError;
          let tokens := trigger :: tokens in
          let tokens := if is_EndOfFile token then tokens else tokens ++ [token] in
          if token_eqb trigger (Preprocessor "#define") then
            define_statement ← _analyze_define tokens;
            Ok (Statement (statements ++ [define_statement]) "" false,
                (i - start)%Z, add_define defines define_statement)
          else
            Ok (Statement (statements ++ [analyze_tokens tokens]) "" false,
                (i - start)%Z, defines)
        else if negb (is_EndOfFile token) then
          parse_loop all_tokens start lvls stop_statement defines
            (i + 1)%Z statements (tokens ++ [token])
        else
          parse_loop all_tokens start lvls stop_statement defines
            (i + 1)%Z statements tokens
      end.

(** The loop, with a bound on the number of turns and of nested calls. *)
Fixpoint parse_loop (fuel : nat) (all_tokens : list BaseType) (start : Z)
    (lvls : gmap string nat) (stop_statement : stop) (defines : macros)
    (i : Z) (statements tokens : list BaseType) {struct fuel}
    : result (BaseType * Z * macros) :=
  match fuel with
  | O => OutOfFuel
  | S fuel =>
      parse_turn (parse_loop fuel) all_tokens start lvls stop_statement
        defines i statements tokens
  end.

(** [parse_block(all_tokens, analyze_tokens, analyze_array, start,
    initial_lvls, stop_statement, defines)]; a missing [initial_lvls] or
    [defines] is an empty dictionary. *)
Definition parse_block (fuel : nat) (all_tokens : list BaseType) (start : Z)
    (initial_lvls : gmap string nat) (stop_statement : stop)
    (defines : macros) : result (BaseType * Z * macros) :=
  parse_loop fuel all_tokens start (or_zero_lvls initial_lvls) stop_statement
    defines start [] [].

End block.

(** [parse], from the tokens that [identify_token] yields for the lexemes
    of the script; the tokenizer is not part of the sources at hand. *)
Definition parse (PREPROCESSORS : list string)
    (parse_exp : list BaseType -> BaseType) (fuel : nat) (tokens : list BaseType)
    : result BaseType :=
  '(result, _, _) ←
    parse_block PREPROCESSORS (_analyze_tokens parse_exp)
      (_analyze_array_tokens parse_exp) fuel (tokens ++ [EndOfFile]) 0 ∅ both ∅;
  Ok result.

End parser.

(** ** The interpreter state *)

Module interpreter.

(** Modelled from the spec: the scope classes are not part of the sources at
    hand.  A [Scope] is "a mapping from variable name to AbstractValue,
    annotated with a nesting level (0 = top-level/global-equivalent, >0 =
    nested code block)". *)
Record Scope := mk_Scope {
  level : nat;
  values : gmap string BaseType
}.

(** A namespace is a stack of scopes, a mutable object: the store holds the
    namespace objects, and an interpreter holds references into the store.
    The base scope is first, the current scope is last. *)
Abbreviation store := (list (list Scope)).

(** The attributes of an [Analyzer] object. *)
Record Analyzer := mk_Analyzer {
  _namespaces : list (string * nat);
  _current_namespace : nat;
  exceptions : list exception;
  privates : list BaseType;
  unevaluated_interpreter_tokens : list BaseType;
  _unexecuted_codes : list (string * BaseType);
  _executed_codes : list (string * BaseType);
  defines : gmap string BaseType
}.

Definition set_namespaces (v : list (string * nat)) (a : Analyzer) : Analyzer :=
  mk_Analyzer v (_current_namespace a) (exceptions a) (privates a)
    (unevaluated_interpreter_tokens a) (_unexecuted_codes a)
    (_executed_codes a) (defines a).

Definition set_current_namespace (v : nat) (a : Analyzer) : Analyzer :=
  mk_Analyzer (_namespaces a) v (exceptions a) (privates a)
    (unevaluated_interpreter_tokens a) (_unexecuted_codes a)
    (_executed_codes a) (defines a).

Definition set_exceptions (v : list exception) (a : Analyzer) : Analyzer :=
  mk_Analyzer (_namespaces a) (_current_namespace a) v (privates a)
    (unevaluated_interpreter_tokens a) (_unexecuted_codes a)
    (_executed_codes a) (defines a).

Definition set_privates (v : list BaseType) (a : Analyzer) : Analyzer :=
  mk_Analyzer (_namespaces a) (_current_namespace a) (exceptions a) v
    (unevaluated_interpreter_tokens a) (_unexecuted_codes a)
    (_executed_codes a) (defines a).

Definition set_unevaluated (v : list BaseType) (a : Analyzer) : Analyzer :=
  mk_Analyzer (_namespaces a) (_current_namespace a) (exceptions a)
    (privates a) v (_unexecuted_codes a) (_executed_codes a) (defines a).

Definition set_unexecuted_codes (v : list (string * BaseType)) (a : Analyzer)
    : Analyzer :=
  mk_Analyzer (_namespaces a) (_current_namespace a) (exceptions a)
    (privates a) (unevaluated_interpreter_tokens a) v (_executed_codes a)
    (defines a).

Definition set_executed_codes (v : list (string * BaseType)) (a : Analyzer)
    : Analyzer :=
  mk_Analyzer (_namespaces a) (_current_namespace a) (exceptions a)
    (privates a) (unevaluated_interpreter_tokens a) (_unexecuted_codes a) v
    (defines a).

Definition set_defines (v : gmap string BaseType) (a : Analyzer) : Analyzer :=
  mk_Analyzer (_namespaces a) (_current_namespace a) (exceptions a)
    (privates a) (unevaluated_interpreter_tokens a) (_unexecuted_codes a)
    (_executed_codes a) v.

(** A method runs on an interpreter and on the store, and returns a value
    or raises. *)
Definition state : Type := Analyzer * store.

Definition M (A : Type) : Type := state -> result (A * state).

#[export] Instance M_ret : MRet M := fun A a s => Ok (a, s).

#[export] Instance M_bind : MBind M := fun A B f m s =>
  match m s with
  | Ok (a, s') => f a s'
  | Raise e => Raise e
  | OutOfFuel => OutOfFuel
  end.

Definition raise {A} (e : exception) : M A := fun _ => Raise e.

Definition out_of_fuel {A} : M A := fun _ => OutOfFuel.

Definition lift {A} (r : result A) : M A := fun s =>
  match r with
  | Ok a => Ok (a, s)
  | Raise e => Raise e
  | OutOfFuel => OutOfFuel
  end.

(** Reading and writing the attributes of [self]. *)
Definition gets {A} (f : Analyzer -> A) : M A := fun s => Ok (f (fst s), s).

Definition modify (f : Analyzer -> Analyzer) : M unit := fun s =>
  Ok (tt, (f (fst s), snd s)).

(** Reading and writing a namespace object. *)
Definition read_namespace (r : nat) : M (list Scope) := fun s =>
  match snd s !! r with
  | Some stack => Ok (stack, s)
  | None => Raise py.KeyError
  end.

Definition write_namespace (r : nat) (stack : list Scope) : M unit := fun s =>
  Ok (tt, (fst s, <[r := stack]> (snd s))).

Fixpoint forM_ {A} (l : list A) (f : A -> M unit) : M unit :=
  match l with
  | [] => mret tt
  | x :: r => f x;; forM_ r f
  end.

(** [self.exception(e)]: the analyzer stores the exception. *)
Definition exception (e : exceptions.exception) : M unit :=
  modify (fun a => set_exceptions (exceptions a ++ [e]) a).

Definition warning (message : string) : exceptions.exception :=
  mk_exception SQFWarning "" message.

Definition error (message : string) : exceptions.exception :=
  mk_exception SQFParserError "" message.

(** *** Classes *)

(** [type(t).__name__]; a class is known by its name. *)
Definition type_of (t : BaseType) : string :=
  match t with
  | Keyword _ => "Keyword"
  | Preprocessor _ => "Preprocessor"
  | Namespace _ => "Namespace"
  | Variable_ _ => "Variable"
  | Number _ => "Number"
  | Boolean _ => "Boolean"
  | String _ => "String"
  | Comment _ => "Comment"
  | Space => "Space"
  | Tab => "Tab"
  | EndOfLine _ => "EndOfLine"
  | BrokenEndOfLine => "BrokenEndOfLine"
  | EndOfFile => "EndOfFile"
  | Statement _ _ _ => "Statement"
  | Code _ => "Code"
  | File _ => "File"
  | Array _ => "Array"
  | DefineStatement _ _ _ _ _ => "DefineStatement"
  | DefineResult _ _ _ _ => "DefineResult"
  | Nothing => "Nothing"
  | Object => "Object"
  | PrivateType _ => "PrivateType"
  | ForType => "ForType"
  end.

(** Modelled from the spec: the value classes are not part of the sources at
    hand.  [cls()], the instance of unknown content of a class of the
    "AbstractValue" domain; the other classes need arguments. *)
Definition instantiate (cls : string) : result BaseType :=
  if String.eqb cls "Number" then Ok (Number None)
  else if String.eqb cls "Boolean" then Ok (Boolean None)
  else if String.eqb cls "String" then Ok (String None)
  else if String.eqb cls "Array" then Ok (Array None)
  else if String.eqb cls "Code" then Ok (Code [])
  else if String.eqb cls "File" then Ok (File [])
  else if String.eqb cls "Nothing" then Ok Nothing
  else if String.eqb cls "Object" then Ok Object
  else if String.eqb cls "ForType" then Ok ForType
  else Raise py.TypeError.

(** [isinstance(t, Type)], the "AbstractValue" domain of the spec. *)
Definition is_Type (t : BaseType) : bool :=
  match t with
  | Number _ | Boolean _ | String _ | Array _ | Code _ | File _ | Nothing
  | Object | PrivateType _ | ForType => true
  | _ => false
  end.

Definition is_InterpreterType (t : BaseType) : bool :=
  match t with PrivateType _ | ForType => true | _ => false end.

(** [statement.base_tokens]: the tokens that are not layout. *)
Definition base_tokens (tokens : list BaseType) : list BaseType :=
  List.filter (fun t => negb (is_ParserType t)) tokens.

Definition code_tokens (code : BaseType) : option (list BaseType) :=
  match code with Code l | File l => Some l | _ => None end.

(** Modelled from the spec: a name "starting with a reserved local-scope
    sigil" is local, any other is global. *)
Definition is_global (name : string) : bool :=
  match name with
  | String.String "_" _ => false
  | _ => true
  end.

(** [String.value]: the text between the quotes. *)
Definition string_value (t : BaseType) : option string :=
  match t with
  | String (Some text) => Some (py.strip_ends text)
  | _ => None
  end.

(** *** The scope provider ([sqf/base_interpreter.py]) *)

(** A reference to a scope: the namespace object and the index in its
    stack. *)
Definition scope_ref : Type := nat * nat.

Definition has_name (name : string) (stack : list Scope) (i : nat) : bool :=
  match stack !! i with
  | Some scope => bool_decide (is_Some (values scope !! name))
  | None => false
  end.

(** Modelled from the spec: [sqf/base_interpreter.py] is not part of the
    sources at hand.  "Variables are looked up through a stack of scopes":
    a local name is found in the innermost nested scope that has it, and
    otherwise, like every global name, in the base scope of level 0. *)
Definition scope_index (name : string) (stack : list Scope) : nat :=
  if is_global name then 0
  else default 0 (List.find (has_name name stack)
                    (rev (seq 1 (length stack - 1)))).

(** Modelled from the spec: [get_scope(name, namespace) -> Scope], in the
    current namespace when none is named. *)
Definition get_scope (name : string) (namespace_name : option string)
    : M scope_ref :=
  r ← match namespace_name with
      | None => gets _current_namespace
      | Some n =>
          names ← gets _namespaces;
          lift (or_raise (py.dict_get names n) py.KeyError)
      end;
  stack ← read_namespace r;
  match stack with
  | [] => raise py.IndexError
  | _ => mret (r, scope_index name stack)
  end.

Definition read_scope (scope : scope_ref) : M Scope :=
  stack ← read_namespace (fst scope);
  lift (or_raise (stack !! snd scope) py.IndexError).

(** [scope.level] *)
Definition scope_level (scope : scope_ref) : M nat :=
  sc ← read_scope scope; mret (level sc).

(** Modelled from the spec: [scope[name]]; a name of which nothing is
    recorded reads as the unknown value [Nothing]. *)
Definition scope_get (scope : scope_ref) (name : string) : M BaseType :=
  sc ← read_scope scope; mret (default Nothing (values sc !! name)).

(** [scope[name] = value] *)
Definition scope_set (scope : scope_ref) (name : string) (value : BaseType)
    : M unit :=
  stack ← read_namespace (fst scope);
  sc ← lift (or_raise (stack !! snd scope) py.IndexError);
  write_namespace (fst scope)
    (<[snd scope := mk_Scope (level sc) (<[name := value]> (values sc))]> stack).

(** Modelled from the spec: "push/pop scope levels"; the level of a scope
    is its depth in the stack. *)
Definition add_scope (vars : gmap string BaseType) : M unit :=
  r ← gets _current_namespace;
  stack ← read_namespace r;
  write_namespace r (stack ++ [mk_Scope (length stack) vars]).

Definition del_scope : M unit :=
  r ← gets _current_namespace;
  stack ← read_namespace r;
  match stack with
  | [] => raise py.IndexError
  | _ => write_namespace r (removelast stack)
  end.

Definition current_scope : M scope_ref :=
  r ← gets _current_namespace;
  stack ← read_namespace r;
  match stack with
  | [] => raise py.IndexError
  | _ => mret (r, length stack - 1)
  end.

(** Modelled from the spec: "those names are registered as declared-private
    immediately", in the current scope and with the unknown value. *)
Definition add_privates (variables : list BaseType) : M unit :=
  forM_ variables (fun variable =>
    match string_value variable with
    | Some name => scope ← current_scope; scope_set scope name Nothing
    | None => raise py.AssertionError
    end).

(** Modelled from the spec: [get_variable(token) -> Variable], the variable
    that a token denotes: the token when it is a variable, the leading
    base token of a statement, and no variable ([Nothing]) otherwise. *)
Definition get_variable (token : BaseType) : BaseType :=
  match statement_parts token with
  | Some (tokens, _, _) => default Nothing (head (base_tokens tokens))
  | None =>
      match token with
      | Variable_ _ => token
      | _ => Nothing
      end
  end.

(** [BaseInterpreter.__init__]: four namespaces, each a fresh namespace
    object holding a base scope; the mission namespace is the current
    one. *)
Definition namespace_names : list string :=
  ["uinamespace"; "parsingnamespace"; "missionnamespace"; "profilenamespace"].

Definition new_Analyzer (h : store) : Analyzer * store :=
  let n := length h in
  (mk_Analyzer
     (zip namespace_names (seq n (length namespace_names)))
     (n + 2) [] [] [] [] [] ∅,
   h ++ map (fun _ => [mk_Scope 0 ∅]) namespace_names).

(** [deepcopy(namespaces)]: every namespace object reached is copied once
    into a fresh object; [memo] maps the objects already copied to their
    copies. *)
Fixpoint deepcopy (namespaces : list (string * nat)) (memo : list (nat * nat))
    (h : store) : result (list (string * nat) * store) :=
  match namespaces with
  | [] => Ok ([], h)
  | (name, r) :: rest =>
      match py.dict_get memo r with
      | Some r' =>
          '(rest', h') ← deepcopy rest memo h;
          Ok ((name, r') :: rest', h')
      | None =>
          stack ← or_raise (h !! r) py.KeyError;
          let r' := length h in
          '(rest', h') ← deepcopy rest ((r, r') :: memo) (h ++ [stack]);
          Ok ((name, r') :: rest', h')
      end
  end.

End interpreter.
Export interpreter.

(** ** The analyzer ([sqf/analyser.py]) *)

Module analyser.

(** The methods of the object, as the methods call them through [self]. *)
Record Self := mk_Self {
  self_value : BaseType -> option string -> M BaseType;
  self_execute_token : BaseType -> M BaseType;
  self_execute_single : BaseType -> M BaseType;
  self_execute_code :
    BaseType -> option BaseType -> option (gmap string BaseType) -> M BaseType
}.

(** An entry of [types_or_values]: a class, or a value such as a keyword. *)
Inductive type_or_value :=
| a_type (cls : string)
| a_value (v : BaseType).

Inductive expression_class := UnaryExpression | BinaryExpression | NullExpression.

(** What the analyzer uses of an expression of [sqf/expressions.py];
    [execute(values, interpreter)] receives the interpreter and may call its
    methods. *)
Record Expression := mk_Expression {
  expression_class_of : expression_class;
  keyword : BaseType;
  types_or_values : list type_or_value;
  return_type : option string;
  is_signature_match : list BaseType -> bool;
  is_match : list BaseType -> bool;
  execute : list BaseType -> Self -> M BaseType
}.

(** [x.__name__] *)
Definition name_of (x : type_or_value) : result string :=
  match x with
  | a_type cls => Ok cls
  | a_value _ => Raise py.AttributeError
  end.

(** [x.value] *)
Definition value_of (x : type_or_value) : result string :=
  match x with
  | a_value (Keyword v) | a_value (Preprocessor v) | a_value (Namespace v) => Ok v
  | _ => Raise py.AttributeError
  end.

(** [s.isupper()], on the letters of ASCII. *)
Definition isupper (s : string) : bool :=
  let cs := String.list_ascii_of_string s in
  let code c := nat_of_ascii c in
  forallb (fun c => negb (Nat.leb 97 (code c) && Nat.leb (code c) 122)) cs
  && existsb (fun c => Nat.leb 65 (code c) && Nat.leb (code c) 90) cs.

Definition char_at (n : nat) (s : string) : string := String.substring n 1 s.

Definition not_from_scope (name : string) : exceptions.exception :=
  warning ("Local variable " +:+ dq +:+ name +:+ dq
           +:+ " is not from this scope (not private)").

Definition outer_scope (name : string) : exceptions.exception :=
  warning ("Local variable " +:+ dq +:+ name +:+ dq
           +:+ " assigned to an outer scope (not private)").

Definition private_not_string : exceptions.exception :=
  warning "private argument must be a string.".

Definition helper_not_evaluated (t : BaseType) : exceptions.exception :=
  warning ("helper type " +:+ dq +:+ type_of t +:+ dq +:+ " not evaluated").

(** [l.remove(x)]: the first element equal to [x] goes. *)
Fixpoint list_remove (x : BaseType) (l : list BaseType) : option (list BaseType) :=
  match l with
  | [] => None
  | y :: r =>
      if token_eqb y x then Some r
      else match list_remove x r with
           | Some r' => Some (y :: r')
           | None => None
           end
  end.

Section methods.

(** [PREPROCESSORS] of [sqf/keywords.py]. *)
Variable PREPROCESSORS : list string.

(** [values_to_expressions(values, EXPRESSIONS_MAP, EXPRESSIONS)], the
    candidate expressions of the database for a list of values. *)
Variable values_to_expressions : list BaseType -> list Expression.

(** The bookkeeping at the end of [value]. *)
Definition track_code (result : BaseType) : M unit :=
  codes ← gets _unexecuted_codes;
  if is_Code result && negb (py.dict_in (str result) codes)
  then modify (set_unexecuted_codes (py.dict_set codes (str result) result))
  else mret tt.

Definition value (self : Self) (token : BaseType)
    (namespace_name : option string) : M BaseType :=
  result ←
    (if is_Statement token then
       t ← self_execute_token self token; self_value self t None
     else
       match token with
       | Variable_ name =>
           scope ← get_scope name namespace_name;
           lv ← scope_level scope;
           (if Nat.eqb lv 0 && negb (is_global name)
            then exception (not_from_scope (str token)) else mret tt);;
           scope_get scope name
       | Array (Some l) =>
           vs ← mapM (fun s => t ← self_execute_token self s;
                               self_value self t None) l;
           mret (Array (Some vs))
       | _ =>
           match values_to_expressions [token] with
           | e :: _ => execute e [token] self
           | [] => mret token
           end
       end);
  track_code result;;
  mret result.

Definition execute_token (self : Self) (token : BaseType) : M BaseType :=
  if is_Statement token then self_execute_single self token
  else
    match token with
    | Array (Some l) =>
        rs ← mapM (self_execute_token self) l;
        mret (Array (Some rs))
    | _ =>
        ds ← gets defines;
        match ds !! str token with
        | Some d => self_execute_token self d
        | None => mret token
        end
    end.

(** Modelled from the spec: the generic
    [execute_code(code, params, extra_bindings)] of the scope provider, "the
    analyzer's re-entrant evaluation hook for nested blocks": the
    statements of the code run in a new nested scope that holds the extra
    bindings and [_this]; the value is that of the last statement. *)
Definition base_execute_code (self : Self) (code : BaseType)
    (params : option BaseType) (extra_scope : option (gmap string BaseType))
    : M BaseType :=
  match code_tokens code with
  | None => raise py.AssertionError
  | Some tokens =>
      add_scope (<["_this" := default Nothing params]> (default ∅ extra_scope));;
      outcome ←
        fold_left (fun m statement => m;; self_execute_single self statement)
          (base_tokens tokens) (mret Nothing);
      del_scope;;
      mret outcome
  end.

Definition execute_unexecuted_code (self : Self) (code : BaseType) : M unit :=
  codes ← gets _unexecuted_codes;
  if negb (py.dict_in (str code) codes) then raise py.AssertionError
  else fun '(parent, h) =>
    let '(analyser, h) := new_Analyzer h in
    '(namespaces, h) ← deepcopy (_namespaces parent) [] h;
    let analyser := set_namespaces namespaces analyser in
    mission ← or_raise (py.dict_get (_namespaces analyser) "missionnamespace")
                py.KeyError;
    let analyser := set_current_namespace mission analyser in
    tokens ← or_raise (code_tokens code) py.AttributeError;
    let file := File tokens in
    '(_, (analyser, h)) ← self_execute_code self file None None (analyser, h);
    Ok (tt, (set_exceptions (exceptions parent ++ exceptions analyser) parent, h)).

(** The end of the file: the [if isinstance(code, File)] of
    [execute_code]. *)
Definition execute_unexecuted_codes (self : Self)
    (codes : list (string * BaseType)) : M unit :=
  forM_ codes (fun '(_, code) => execute_unexecuted_code self code).

Definition end_of_file (self : Self) : M unit :=
  codes ← gets _unexecuted_codes;
  execute_unexecuted_codes self codes;;
  pending ← gets privates;
  forM_ pending (fun _ => exception private_not_string);;
  tokens ← gets unevaluated_interpreter_tokens;
  forM_ tokens (fun token => exception (helper_not_evaluated token)).

(** The bookkeeping at the start of [execute_code]. *)
Definition mark_executed (code : BaseType) : M unit :=
  modify (fun a =>
    if py.dict_in (str code) (_unexecuted_codes a)
    then set_unexecuted_codes (py.dict_del (_unexecuted_codes a) (str code)) a
    else a);;
  modify (fun a =>
    set_executed_codes (py.dict_set (_executed_codes a) (str code) code) a).

Definition execute_code (self : Self) (code : BaseType)
    (params : option BaseType) (extra_scope : option (gmap string BaseType))
    : M BaseType :=
  mark_executed code;;
  outcome ← base_execute_code self code params extra_scope;
  (if is_File code then end_of_file self else mret tt);;
  mret outcome.

(** The [#define] branch of [execute_single]. *)
Definition execute_define (base_tokens : list BaseType) : M BaseType :=
  match base_tokens with
  | [] | [_] =>
      exception (error "#define must have at least one argument");;
      mret Nothing
  | [_; b1] =>
      modify (fun a => set_defines (<[str b1 := Nothing]> (defines a)) a);;
      mret Nothing
  | [_; b1; b2] =>
      modify (fun a => set_defines (<[str b1 := b2]> (defines a)) a);;
      mret Nothing
  | _ :: b1 :: _ :: rest =>
      let define_statement := Statement rest "" false in
      modify (fun a => set_defines (<[str b1 := define_statement]> (defines a)) a);;
      mret Nothing
  end.

(** The [#include] branch. *)
Definition execute_include (base_tokens : list BaseType) : M BaseType :=
  match base_tokens with
  | [_; String _] => mret Nothing
  | _ => exception (error "Wrong syntax for #include");; mret Nothing
  end.

(** The [private] branch; [b1] is the operand. *)
Definition execute_private (self : Self) (b1 : BaseType) : M BaseType :=
  rhs ← self_execute_token self b1;
  match rhs with
  | String _ => add_privates [rhs];; mret Nothing
  | Array _ =>
      v ← self_value self rhs None;
      match v with
      | Array (Some l) => add_privates l
      | _ => raise py.TypeError
      end;;
      mret Nothing
  | Variable_ name =>
      add_privates [String (Some (dq +:+ name +:+ dq))];;
      let outcome := PrivateType rhs in
      modify (fun a => set_privates (privates a ++ [outcome]) a);;
      mret outcome
  | _ => exception (error "`private` used incorrectly");; mret Nothing
  end.

(** [if lhs_t != Nothing and lhs_t != rhs_t: rhs_t = Nothing]: the class
    that an assignment records. *)
Definition widen (lhs_t rhs_t : string) : string :=
  if negb (String.eqb lhs_t "Nothing") && negb (String.eqb lhs_t rhs_t)
  then "Nothing" else rhs_t.

(** The end of the assignment branch, once the variable [name] on the left
    and the value [rhs_v] on the right are known. *)
Definition assign (name : string) (rhs_v : BaseType) : M unit :=
  let rhs_t := type_of rhs_v in
  scope ← get_scope name None;
  old ← scope_get scope name;
  let lhs_t := type_of old in
  let rhs_t := widen lhs_t rhs_t in
  v ← lift (instantiate rhs_t);
  scope_set scope name v;;
  lv ← scope_level scope;
  if Nat.eqb lv 0 && negb (is_global name)
  then exception (outer_scope name) else mret tt.

(** The assignment branch; [b0] and [b2] are the two sides. *)
Definition execute_assignment (self : Self) (ending : string)
    (b0 b2 : BaseType) : M BaseType :=
  lhs ← self_execute_token self b0;
  lhs ← match lhs with
        | PrivateType variable =>
            pending ← gets privates;
            match list_remove lhs pending with
            | Some pending' => modify (set_privates pending');; mret variable
            | None => raise py.ValueError
            end
        | _ => mret (get_variable b0)
        end;
  rhs_v ← self_value self b2 None;
  match lhs with
  | Variable_ name =>
      assign name rhs_v;;
      mret (if String.eqb ending "" then rhs_v else Nothing)
  | _ =>
      exception (error "lhs of assignment operator must be a variable");;
      mret Nothing
  end.

(** The message for the operators of which no signature matches. *)
Definition mismatch_message (possible_expressions : list Expression)
    (values : list BaseType) : result string :=
  first ← or_raise (head possible_expressions) py.IndexError;
  match expression_class_of first with
  | UnaryExpression =>
      names ←
        mapM (M := result) (fun exp =>
          x ← or_raise (types_or_values exp !! 1) py.IndexError; name_of x)
          possible_expressions;
      k ← or_raise (types_or_values first !! 0) py.IndexError;
      keyword_name ← value_of k;
      v1 ← or_raise (values !! 1) py.IndexError;
      Ok ("Unary operator " +:+ dq +:+ keyword_name +:+ dq
          +:+ " only accepts argument of types [" +:+ join "," names
          +:+ "] (rhs is " +:+ type_of v1 +:+ ")")
  | BinaryExpression =>
      names ←
        mapM (M := result) (fun exp =>
          x ← or_raise (types_or_values exp !! 0) py.IndexError;
          y ← or_raise (types_or_values exp !! 2) py.IndexError;
          nx ← name_of x; ny ← name_of y;
          Ok ("(" +:+ nx +:+ "," +:+ ny +:+ ")"))
          possible_expressions;
      k ← or_raise (types_or_values first !! 1) py.IndexError;
      keyword_name ← value_of k;
      v0 ← or_raise (values !! 0) py.IndexError;
      let message :=
        "Binary operator " +:+ dq +:+ keyword_name +:+ dq
        +:+ " arguments must be [" +:+ join "," names +:+ "]" in
      let message :=
        if negb (bool_decide (type_of v0 ∈ map (char_at 0) names))
        then message +:+ " (lhs is " +:+ type_of v0 else message in
      if negb (bool_decide (type_of v0 ∈ map (char_at 1) names))
      then
        v2 ← or_raise (values !! 2) py.IndexError;
        Ok (message +:+ ", rhs is " +:+ type_of v2 +:+ ")")
      else Ok (message +:+ ")")
  | NullExpression => Raise py.AssertionError
  end.

(** The bindings that some operators give to the code they run. *)
Definition extra_scope_of (case_found : Expression) (values : list BaseType)
    : option (gmap string BaseType) :=
  let k := keyword case_found in
  if token_eqb k (Keyword "select") || token_eqb k (Keyword "apply")
     || token_eqb k (Keyword "count")
  then Some {["_x" := Nothing]}
  else if token_eqb k (Keyword "foreach")
  then Some (<["_foreachindex" := Number None]> {["_x" := Nothing]})
  else if token_eqb k (Keyword "catch")
  then Some {["_exception" := Object]}
  else if token_eqb k (Keyword "do")
          && match values with ForType :: _ => true | _ => false end
  then Some {["_i" := Number None]}
  else None.

(** "evaluate all the base_tokens, trying to obtain their values" and what
    follows, the general case of [execute_single]. *)
Definition execute_general (self : Self) (statement : BaseType)
    (ending : string) (base_tokens : list BaseType) : M BaseType :=
  pairs ← mapM (fun token =>
             t ← self_execute_token self token;
             v ← self_value self t None;
             mret (t, v)) base_tokens;
  let values := map snd pairs in
  let possible_expressions := values_to_expressions values in
  let case_found :=
    List.find (fun case => is_signature_match case values) possible_expressions in
  outcome ←
    match case_found with
    | Some case_found =>
        outcome ←
          (if is_match case_found values then execute case_found values self
           else match possible_expressions with
                | [e] => match return_type e with
                         | Some cls => lift (instantiate cls)
                         | None => mret Nothing
                         end
                | _ => mret Nothing
                end);
        let extra_scope := extra_scope_of case_found values in
        forM_ (zip values (types_or_values case_found)) (fun '(value, t_or_v) =>
          (match t_or_v with
           | a_type "Code" =>
               if is_Code value
               then self_execute_code self value None extra_scope;; mret tt
               else mret tt
           | _ => mret tt
           end);;
          pending ← gets unevaluated_interpreter_tokens;
          if is_InterpreterType value
          then match list_remove value pending with
               | Some pending' => modify (set_unevaluated pending')
               | None => mret tt
               end
          else mret tt);;
        if is_Type outcome then mret outcome else raise py.AssertionError
    | None =>
        match values with
        | [v] =>
            (if is_Type v then mret tt
             else exception (error (dq +:+ str statement +:+ dq
                    +:+ " is syntactically incorrect (missing ;?)")));;
            mret v
        | _ =>
            if match base_tokens with
               | Variable_ name :: _ => is_global name
               | _ => false
               end
            then mret Nothing
            else
              match possible_expressions with
              | _ :: _ =>
                  message ← lift (mismatch_message possible_expressions values);
                  exception (error message);; mret Nothing
              | [] =>
                  exception (error
                    "statement is syntactically incorrect (missing ;?)");;
                  mret Nothing
              end
        end
    end;
  (if is_InterpreterType outcome
   then modify (fun a =>
          set_unevaluated (unevaluated_interpreter_tokens a ++ [outcome]) a)
   else mret tt);;
  mret (if String.eqb ending "" then outcome else Nothing).

(** "heuristic for defines": a global variable, a name in upper case or a
    define, followed by a statement in parentheses. *)
Definition looks_like_define (ds : gmap string BaseType) (b0 b1 : BaseType)
    : bool :=
  (match b0 with Variable_ name => is_global name | _ => false end
   || isupper (str b0)
   || bool_decide (is_Some (ds !! str b0)))
  && match b1 with Statement _ _ true => true | _ => false end.

Definition execute_single (self : Self) (statement : BaseType) : M BaseType :=
  match statement_parts statement with
  | None => raise py.AssertionError
  | Some (tokens, ending, _) =>
      let base_tokens := base_tokens tokens in
      ds ← gets defines;
      match base_tokens with
      | [] => mret Nothing
      | b0 :: rest =>
          if token_eqb b0 (Keyword "#define") then execute_define base_tokens
          else if token_eqb b0 (Keyword "#include")
          then execute_include base_tokens
          else if is_Keyword b0 && bool_decide (keyword_value b0 ∈ PREPROCESSORS)
          then mret Nothing
          else
            match rest with
            | [b1] =>
                if token_eqb b0 (Keyword "private")
                then execute_private self b1
                else if looks_like_define ds b0 b1 then mret Nothing
                else execute_general self statement ending base_tokens
            | [b1; b2] =>
                if token_eqb b1 (Keyword "=")
                then execute_assignment self ending b0 b2
                else execute_general self statement ending base_tokens
            | [] =>
                match b0 with
                | Variable_ _ | Array _ => self_execute_token self b0
                | _ => execute_general self statement ending base_tokens
                end
            | _ => execute_general self statement ending base_tokens
            end
      end
  end.

(** The methods, with a bound on the depth of the calls. *)
Fixpoint methods (fuel : nat) : Self :=
  match fuel with
  | O =>
      mk_Self (fun _ _ => out_of_fuel) (fun _ => out_of_fuel)
        (fun _ => out_of_fuel) (fun _ _ _ => out_of_fuel)
  | S fuel =>
      let self := methods fuel in
      mk_Self (value self) (execute_token self) (execute_single self)
        (execute_code self)
  end.

(** [analyze(statement, analyzer)]; a missing [analyzer] is a new one, in an
    empty store. *)
Definition analyze (fuel : nat) (statement : BaseType)
    (analyzer : option state) : result state :=
  match statement_parts statement with
  | None => Raise py.AssertionError
  | Some (tokens, _, _) =>
      let analyzer := default (new_Analyzer []) analyzer in
      let file := File tokens in
      '(_, analyzer) ←
        self_execute_code (methods fuel) file None (Some {["_this" := Nothing]})
          analyzer;
      Ok analyzer
  end.

End methods.

End analyser.

(** * Vocabulary of the properties *)

Import parser analyser.

(** ** Brackets in a token sequence *)

(** The six bracket tokens of the block parser. *)
Definition is_bracket (t : BaseType) : bool :=
  token_eqb t (Keyword "[") || token_eqb t (Keyword "(")
  || token_eqb t (Keyword "{") || token_eqb t (Keyword "]")
  || token_eqb t (Keyword ")") || token_eqb t (Keyword "}").

(** A token that opens a directive: a keyword of [PREPROCESSORS]. *)
Definition is_directive (PP : list string) (t : BaseType) : bool :=
  is_Keyword t && bool_decide (keyword_value t ∈ PP).

(** The three bracket kinds: the key of the depth counter, the opening and
    the closing token, and the message [parse_block] gives for a closing
    token that nothing opened. *)
Inductive pair : string -> BaseType -> BaseType -> string -> Prop :=
| pair_square : pair "[]" (Keyword "[") (Keyword "]") close_square_msg
| pair_round : pair "()" (Keyword "(") (Keyword ")") close_round_msg
| pair_curly : pair "{}" (Keyword "{") (Keyword "}") close_curly_msg.

(** Token sequences in which every bracket is paired with one of its kind. *)
Inductive balanced : list BaseType -> Prop :=
| balanced_nil : balanced []
| balanced_token t l : is_bracket t = false -> balanced l -> balanced (t :: l)
| balanced_group k o c m inner l :
    pair k o c m -> balanced inner -> balanced l ->
    balanced (o :: inner ++ c :: l).

(** Token sequences that end inside brackets of the kinds [ks], outermost
    first, everything else being paired. *)
Inductive unclosed : list string -> list BaseType -> Prop :=
| unclosed_here k o c m b inner :
    pair k o c m -> balanced b -> balanced inner ->
    unclosed [k] (b ++ o :: inner)
| unclosed_nest k o c m b ks u :
    pair k o c m -> balanced b -> unclosed ks u ->
    unclosed (k :: ks) (b ++ o :: u).

(** The result is an [SQFParserError]. *)
Definition parser_error {A} (r : result A) : Prop :=
  exists e, r = Raise e /\ exc_class e = SQFParserError.

(** No directive is open: every directive's depth counter is zero. *)
Definition directive_free (PP : list string) (lvls : gmap string nat) : Prop :=
  forall x, x ∈ PP -> lvl lvls x = 0.

(** ** What a run of the analyzer may change *)

(** The namespace objects an analyzer refers to. *)
Definition footprint (a : Analyzer) : list nat :=
  _current_namespace a :: map snd (_namespaces a).

(** The keys of a dictionary, in insertion order. *)
Definition keys {V} (d : list (string * V)) : list string := map fst d.

(** The relation between the states before and after a method of the
    analyzer: the analyzer keeps its references, the store only grows,
    objects the analyzer does not refer to are untouched, an executed code
    stays executed, an unexecuted one stays so or becomes executed, and
    diagnostics are only appended.  With [strict] the pending private
    declarations are kept as well (none is consumed). *)
Record evolves (strict : bool) (s s' : state) : Prop := mk_evolves {
  ev_namespaces : _namespaces (fst s') = _namespaces (fst s);
  ev_current : _current_namespace (fst s') = _current_namespace (fst s);
  ev_length : length (snd s) <= length (snd s');
  ev_frame : forall r, r < length (snd s) -> r ∉ footprint (fst s) ->
             snd s' !! r = snd s !! r;
  ev_executed : forall k, k ∈ keys (_executed_codes (fst s)) ->
                k ∈ keys (_executed_codes (fst s'));
  ev_unexecuted : forall k, k ∈ keys (_unexecuted_codes (fst s)) ->
                  k ∈ keys (_unexecuted_codes (fst s'))
                  \/ k ∈ keys (_executed_codes (fst s'));
  ev_exceptions : exists more, exceptions (fst s') = exceptions (fst s) ++ more;
  ev_pending : strict = true -> sublist (privates (fst s)) (privates (fst s'))
}.

(** The statements that [execute_single] may run as an assignment. *)
Definition is_assignment (statement : BaseType) : bool :=
  match statement_parts statement with
  | Some (tokens, _, _) =>
      match base_tokens tokens with
      | [_; b1; _] => token_eqb b1 (Keyword "=")
      | _ => false
      end
  | None => false
  end.

(** A computation whose every run that returns satisfies [evolves]. *)
Definition preserves (strict : bool) {A} (m : M A) : Prop :=
  forall s r s', m s = Ok (r, s') -> evolves strict s s'.

(** The four methods of an analyzer all preserve the relation. *)
Definition self_preserves (strict : bool) (self : Self) : Prop :=
  (forall t ns, preserves strict (self_value self t ns))
  /\ (forall t, preserves strict (self_execute_token self t))
  /\ (forall t, preserves strict (self_execute_single self t))
  /\ (forall c p e, preserves strict (self_execute_code self c p e)).

(** What is assumed of the expressions of the database, whose actions are
    not part of the two modules: an action preserves the relation when the
    methods it is given do. *)
Definition database_preserves (strict : bool)
    (db : list BaseType -> list Expression) : Prop :=
  forall values e, e ∈ db values ->
  forall args self, self_preserves strict self -> preserves strict (execute e args self).

(** The memo of a deep copy: each copied object is in the store and holds
    what its original holds. *)
Definition memo_ok (memo : list (nat * nat)) (h : store) : Prop :=
  forall r r', (r, r') ∈ memo ->
    r < length h /\ r' < length h /\ h !! r' = h !! r.

(** The analyzer [a] with the diagnostic [e] appended when [b] holds. *)
Definition warn_if (b : bool) (e : exceptions.exception) (a : Analyzer) : Analyzer :=
  if b then set_exceptions (exceptions a ++ [e]) a else a.

(** The scope of an assignment to [name], updated. *)
Definition record (name : string) (v : BaseType) (sc : Scope) : Scope :=
  mk_Scope (level sc) (<[name := v]> (values sc)).

(** Every reference of the analyzer is to an object of the store. *)
Definition valid_refs (s : state) : bool :=
  forallb (fun r => Nat.ltb r (length (snd s))) (footprint (fst s)).

(** An analyzer as [Analyzer()] builds it, its namespaces apart. *)
Definition is_fresh (a : Analyzer) : Prop :=
  exceptions a = [] /\ privates a = [] /\ unevaluated_interpreter_tokens a = []
  /\ _unexecuted_codes a = [] /\ _executed_codes a = [] /\ defines a = ∅.

(** ** The expression parser *)

(** What is assumed of [parse_exp], which is not part of the two modules:
    tokens with three base tokens, such as [1 + 2], come back as one
    statement holding them. *)
Definition flat3 (parse_exp : list BaseType -> BaseType) : Prop :=
  forall l, length (base_tokens l) = 3 -> parse_exp l = Statement l "" false.

(** [parse_exp] with that case made explicit. *)
Definition flatten3 (parse_exp : list BaseType -> BaseType)
    (l : list BaseType) : BaseType :=
  if Nat.eqb (length (base_tokens l)) 3 then Statement l "" false
  else parse_exp l.

(** ** Concrete inputs *)

Module keywords.
(** Modelled from the spec: the two directives that the specification
    names, [#define] and [#include]; [sqf/keywords.py] is not part of the
    two modules.  Only the concrete runs below use this list; the general
    statements hold for every list of directives. *)
Definition PREPROCESSORS : list string := ["#define"; "#include"].
End keywords.

Module examples.

(** An expression parser that wraps its tokens in one statement. *)
Definition flat_exp (tokens : list BaseType) : BaseType := Statement tokens "" false.

(** The unary expression [call <code>], with no action. *)
Definition call_expression : Expression :=
  mk_Expression UnaryExpression (Keyword "call")
    [a_value (Keyword "call"); a_type "Code"] (Some "Nothing")
    (fun values => match values with [Keyword "call"; Code _] => true | _ => false end)
    (fun values => match values with [Keyword "call"; Code _] => true | _ => false end)
    (fun _ _ => mret Nothing).

(** A database with that one expression. *)
Definition call_database (values : list BaseType) : list Expression :=
  match values with
  | [Keyword "call"; _] => [call_expression]
  | _ => []
  end.

Definition a_ : BaseType := Variable_ "a".
Definition b_ : BaseType := Variable_ "b".
Definition one : BaseType := Number (Some 1%Z).
Definition two : BaseType := Number (Some 2%Z).

(** [_x = 1;] *)
Definition assign_local : BaseType :=
  Statement [Variable_ "_x"; Space; Keyword "="; Space; one] ";" false.

(** [x = { _x = 1; };] *)
Definition deferred_program : list BaseType :=
  [Statement [Variable_ "x"; Space; Keyword "="; Space; Code [assign_local]] ";" false].

(** A parent analyzer with the code [{ _x = 1; }] still unexecuted. *)
Definition deferred_parent : state :=
  let '(a, h) := new_Analyzer [] in
  (set_unexecuted_codes [("{_x = 1;}", Code [assign_local])] a, h).

(** [#define ADD(a,b) (a + b)], a line end, and [ADD(1,2)]. *)
Definition define_and_call : list BaseType :=
  [Preprocessor "#define"; Space; Variable_ "ADD";
   Keyword "("; a_; Keyword ","; b_; Keyword ")"; Space;
   Keyword "("; a_; Space; Keyword "+"; Space; b_; Keyword ")"; EndOfLine nl;
   Variable_ "ADD"; Keyword "("; one; Keyword ","; two; Keyword ")"].

(** [(1 + 2)] *)
Definition direct_sum : list BaseType :=
  [Keyword "("; one; Space; Keyword "+"; Space; two; Keyword ")"].

(** The tree of [(1 + 2)]. *)
Definition sum_statement : BaseType :=
  Statement [Statement [one; Space; Keyword "+"; Space; two] "" false] "" true.

(** The tree of the macro's body, [(a + b)]. *)
Definition body_statement : BaseType :=
  Statement [Statement [a_; Space; Keyword "+"; Space; b_] "" false] "" true.

(** The definition that the first line registers. *)
Definition add_definition : BaseType :=
  DefineStatement
    [Preprocessor "#define"; Space; Variable_ "ADD";
     Statement [Statement [a_; Keyword ","; b_] "" false] "" true; Space;
     body_statement]
    "ADD" [body_statement] ["a"; "b"] nl.

(** The tokens of the call. *)
Definition add_call : list BaseType :=
  [Variable_ "ADD"; Keyword "("; one; Keyword ","; two; Keyword ")"].

(** The tokens of an array holding a statement separator: [1;2] in square
    brackets. *)
Definition statement_in_array : list BaseType :=
  [Keyword "["; one; Keyword ";"; two; Keyword "]"].

(** A round bracket closed by a square one, inside square brackets. *)
Definition crossed_brackets : list BaseType :=
  [Keyword "["; Keyword "("; Keyword "]"; Keyword "]"].

(** [#define X a;b] and a line end. *)
Definition define_with_semicolon : list BaseType :=
  [Preprocessor "#define"; Space; Variable_ "X"; Space; a_; Keyword ";"; b_;
   EndOfLine nl].

(** The string token of a quoted name. *)
Definition quoted (name : string) : BaseType := String (Some (dq +:+ name +:+ dq)).

(** [private "_a"; _a = 1;] *)
Definition private_string_program : BaseType :=
  Statement
    [Statement [Keyword "private"; Space; quoted "_a"] ";" false;
     Statement [Variable_ "_a"; Space; Keyword "="; Space; one] ";" false]
    "" false.

(** [private _b;] *)
Definition private_statement : BaseType :=
  Statement [Keyword "private"; Space; Variable_ "_b"] ";" false.

Definition private_variable_program : BaseType :=
  Statement [private_statement] "" false.

(** [private _b = 1;], the declaration being the left side of the
    assignment. *)
Definition private_assigned_program : BaseType :=
  Statement
    [Statement [Statement [Keyword "private"; Space; Variable_ "_b"] "" false;
                Space; Keyword "="; Space; one] ";" false]
    "" false.

(** The code [{ X = 1; }]. *)
Definition global_block : BaseType :=
  Code [Statement [Variable_ "X"; Space; Keyword "="; Space; one] ";" false].

(** [call { X = 1; };] *)
Definition global_in_code_program : BaseType :=
  Statement [Statement [Keyword "call"; Space; global_block] ";" false] "" false.

(** The code [{a;}]. *)
Definition a_block : BaseType := Code [Statement [a_] ";" false].

(** [call {a;}; x = {a;};] *)
Definition code_twice_program : BaseType :=
  Statement
    [Statement [Keyword "call"; Space; a_block] ";" false;
     Statement [Variable_ "x"; Space; Keyword "="; Space; a_block] ";" false]
    "" false.

(** A new analyzer, in an empty store. *)
Definition fresh_state : state := new_Analyzer [].

End examples.
Import examples.

(** * Vocabulary of the further properties *)

(** ** The loop of [parse_strings_and_comments], part by part *)

(** The raw tokens of a string literal whose pieces are [bodies]: between
    two pieces stands the doubled quote that escapes a quote. *)
Fixpoint with_doubled (q : string) (bodies : list (list string)) : list string :=
  match bodies with
  | [] => []
  | [b] => b
  | b :: rest => b ++ q :: q :: with_doubled q rest
  end.

(** The text that the loop of [parse_strings_and_comments] has read into a
    literal that is still open. *)
Definition pending_text (st : scanner) : string :=
  match sc_mode st with
  | Some _ => sc_string st
  | None => ""
  end.

(** The text of everything the loop has read. *)
Definition scanned_text (st : scanner) : string :=
  String.concat "" (map lexeme_str (sc_tokens st)) +:+ pending_text st.

(** [all_tokens[i+1]] for the tokens [rest] that follow index [i], when
    [follow] stands behind them. *)
Definition next_of (follow : option string) (rest : list string) : option string :=
  match rest with
  | [] => follow
  | x :: _ => Some x
  end.

(** The loop of [parse_strings_and_comments] over a part of the tokens,
    the token [follow] standing behind that part. *)
Fixpoint scan_then (follow : option string) (l : list string) (st : scanner)
    : scanner :=
  match l with
  | [] => st
  | token :: rest => scan_then follow rest (scan_step st token (next_of follow rest))
  end.

(** Two states of the loop that differ in nothing the loop will read: the
    buffer of a closed literal is dead. *)
Definition same_scan (st st' : scanner) : Prop :=
  sc_tokens st = sc_tokens st' /\ sc_mode st = sc_mode st'
  /\ sc_in_double st = sc_in_double st'
  /\ (sc_mode st <> None -> sc_string st = sc_string st').

(** The state [st] with the lexemes [pre] read before it. *)
Definition after_lexemes (pre : list lexeme) (st : scanner) : scanner :=
  mk_scanner (sc_string st) (pre ++ sc_tokens st) (sc_in_double st) (sc_mode st).

(** A line end of the tokenizer. *)
Definition is_newline (t : string) : bool := String.eqb t nl || String.eqb t crnl.

(** What follows the loop of [parse_strings_and_comments]: an open comment
    is closed, an open string is an error. *)
Definition merge_end (st : scanner) : result (list lexeme) :=
  match sc_mode st with
  | Some comment_line | Some comment_bulk =>
      Ok (sc_tokens st ++ [Literal (Comment (sc_string st))])
  | Some _ =>
      Raise (mk_exception SQFParserError
               (String.concat "" (map lexeme_str (sc_tokens st)))
               "String is not closed")
  | None => Ok (sc_tokens st)
  end.

(** The two quotes. *)
Definition is_quote (q : string) : Prop := q = dq \/ q = "'".

(** ** Statements, arrays and definitions *)

(** The runs of tokens between the commas of a token sequence. *)
Fixpoint split_commas (tokens : list BaseType) : list (list BaseType) :=
  match tokens with
  | [] => [[]]
  | t :: r =>
      if token_eqb t (Keyword ",") then [] :: split_commas r
      else match split_commas r with
           | p :: ps => (t :: p) :: ps
           | [] => [[t]]
           end
  end.

Definition nonempty {A} (l : list A) : bool :=
  match l with [] => false | _ => true end.

(** The tokens, the ending and the parenthesis flag of the statement that
    [_analyze_tokens] makes of what [parse_exp] returns. *)
Definition statement_of (ending : string) (t : BaseType)
    : list BaseType * string * bool :=
  match statement_parts t with
  | Some (l, _, p) => (l, ending, p)
  | None => ([t], ending, false)
  end.

(** The first lines of [_analyze_define]: the text of a final line end or
    comment, and the tokens without it. *)
Definition define_line (tokens : list BaseType) : string * list BaseType :=
  match last tokens with
  | Some (EndOfLine _ as t) | Some (Comment _ as t) => (str t, removelast tokens)
  | _ => ("", tokens)
  end.

(** The tokens that end the line of a directive. *)
Definition is_line_tail (t : BaseType) : bool :=
  match t with EndOfLine _ | Comment _ => true | _ => false end.

(** A statement in parentheses. *)
Definition is_parenthesis (t : BaseType) : bool :=
  match t with Statement _ _ true => true | _ => false end.

(** ** A block parser by recursion on the brackets *)

(** The reference against which the loop of [parse_block] is compared. *)

(** The three kinds of brackets. *)
Inductive bracket := square | round | curly.

Definition bracket_key (k : bracket) : string :=
  match k with square => "[]" | round => "()" | curly => "{}" end.

Definition opener (k : bracket) : BaseType :=
  match k with
  | square => Keyword "["
  | round => Keyword "("
  | curly => Keyword "{"
  end.

Definition closer (k : bracket) : BaseType :=
  match k with
  | square => Keyword "]"
  | round => Keyword ")"
  | curly => Keyword "}"
  end.

(** Tokens grouped by their brackets: a token that is no bracket, or a
    bracketed group. *)
Inductive tree :=
| Leaf (t : BaseType)
| Group (k : bracket) (inner : list tree).

(** The tokens of a tree, in order. *)
Fixpoint flatten (t : tree) : list BaseType :=
  match t with
  | Leaf x => [x]
  | Group k inner => opener k :: concat (map flatten inner) ++ [closer k]
  end.

Definition flatten_all (trees : list tree) : list BaseType :=
  concat (map flatten trees).

(** The leaves are neither brackets nor directives, nor line ends when a
    directive is open ([free] says that none is). *)
Fixpoint plain_leaves (PP : list string) (free : bool) (t : tree) : bool :=
  match t with
  | Leaf x =>
      negb (is_bracket x) && negb (is_directive PP x)
      && (free || negb (is_line_end x))
  | Group _ inner => forallb (plain_leaves PP free) inner
  end.

(** The separators of a block; [free] says that no directive is open. *)
Definition separates (free : bool) (stop_statement : stop) (t : BaseType)
    : bool :=
  match stop_statement with
  | both => free && (token_eqb t (Keyword ";") || token_eqb t (Keyword ","))
  | single => token_eqb t (Keyword ";")
  end.

Section reference.
Variable free : bool.
Variable analyze_tokens : list BaseType -> BaseType.
Variable analyze_array : list BaseType -> list BaseType -> result (list BaseType).

(** The statements of a block at its end: the pending tokens make the last
    statement. *)
Definition finish (statements tokens : list BaseType) : list BaseType :=
  match tokens with
  | [] => statements
  | _ => statements ++ [analyze_tokens tokens]
  end.

(** What a closing bracket makes of the statements and the pending tokens of
    its block; [until] are all the tokens before the closing bracket. *)
Definition close_group (k : bracket) (until statements tokens : list BaseType)
    : result BaseType :=
  match k with
  | square =>
      match statements with
      | DefineResult _tokens d r e :: _ =>
          array ← analyze_array _tokens until;
          Ok (DefineResult [Array (Some array)] d r e)
      | _ :: _ =>
          Raise (mk_exception SQFParserError (get_coord until)
                   ("A statement " +:+ str (Statement statements "" false)
                    +:+ " cannot be in an array"))
      | [] =>
          array ← analyze_array tokens until;
          Ok (Array (Some array))
      end
  | round => Ok (Statement (finish statements tokens) "" true)
  | curly => Ok (Code (finish statements tokens))
  end.

(** The block parser on grouped tokens, by recursion on the groups: [pre]
    are the tokens before the tree, [statements] and [tokens] what the
    block has read so far. *)
Fixpoint run_tree (stop_statement : stop) (pre : list BaseType) (t : tree)
    (statements tokens : list BaseType) {struct t}
    : result (list BaseType * list BaseType) :=
  match t with
  | Leaf x =>
      if separates free stop_statement x
      then Ok (statements ++ [analyze_tokens (tokens ++ [x])], [])
      else if is_EndOfFile x then Ok (statements, tokens)
      else Ok (statements, tokens ++ [x])
  | Group k inner =>
      let stop' := match k with square => single | _ => stop_statement end in
      let run_all :=
        fix run_all (pre : list BaseType) (l : list tree)
            (statements tokens : list BaseType) {struct l}
            : result (list BaseType * list BaseType) :=
          match l with
          | [] => Ok (statements, tokens)
          | x :: r =>
              '(statements, tokens) ← run_tree stop' pre x statements tokens;
              run_all (pre ++ flatten x) r statements tokens
          end in
      '(inner_statements, inner_tokens) ← run_all (pre ++ [opener k]) inner [] [];
      expression ←
        close_group k (pre ++ opener k :: concat (map flatten inner))
          inner_statements inner_tokens;
      Ok (statements, tokens ++ [expression])
  end.

Fixpoint run_trees (stop_statement : stop) (pre : list BaseType)
    (l : list tree) (statements tokens : list BaseType)
    : result (list BaseType * list BaseType) :=
  match l with
  | [] => Ok (statements, tokens)
  | x :: r =>
      '(statements, tokens) ← run_tree stop_statement pre x statements tokens;
      run_trees stop_statement (pre ++ flatten x) r statements tokens
  end.

End reference.

(** The tree of a whole input. *)
Definition parse_trees (analyze_tokens : list BaseType -> BaseType)
    (analyze_array : list BaseType -> list BaseType -> result (list BaseType))
    (trees : list tree) : result BaseType :=
  '(statements, tokens) ←
    run_trees true analyze_tokens analyze_array both [] trees [] [];
  Ok (Statement (finish analyze_tokens statements tokens) "" false).

(** The loop of [parse_block] crosses the tokens [body], which stand
    between [pre] and [rest], with the given outcome. *)
Definition crossed (PP : list string)
    (analyze_tokens : list BaseType -> BaseType)
    (analyze_array : list BaseType -> list BaseType -> result (list BaseType))
    (body rest : list BaseType) (fuel : nat) (pre : list BaseType)
    (start : Z) (lvls : gmap string nat) (stop_statement : stop)
    (st tk : list BaseType)
    (outcome : result (list BaseType * list BaseType)) : Prop :=
  let loop := parse_loop PP analyze_tokens analyze_array in
  match outcome with
  | Ok (st', tk') =>
      exists fuel',
        fuel <= fuel' + length body
        /\ loop fuel (pre ++ body ++ rest) start lvls stop_statement ∅
             (py.len pre) st tk
           = loop fuel' (pre ++ body ++ rest) start lvls stop_statement ∅
               (py.len pre + py.len body)%Z st' tk'
  | Raise e =>
      loop fuel (pre ++ body ++ rest) start lvls stop_statement ∅
        (py.len pre) st tk = Raise e
  | OutOfFuel =>
      loop fuel (pre ++ body ++ rest) start lvls stop_statement ∅
        (py.len pre) st tk = OutOfFuel
  end.

(** What the end of the line makes of a directive ([trigger]), of the tokens
    of its line and of the statements that the line has completed. *)
Definition directive_statements (analyze_tokens : list BaseType -> BaseType)
    (trigger e : BaseType) (statements tokens : list BaseType)
    (defines : macros) : result (list BaseType * macros) :=
  let tokens := trigger :: tokens in
  let tokens := if is_EndOfFile e then tokens else tokens ++ [e] in
  if token_eqb trigger (Preprocessor "#define") then
    define_statement ← _analyze_define tokens;
    Ok (statements ++ [define_statement], add_define defines define_statement)
  else Ok (statements ++ [analyze_tokens tokens], defines).

(** ** Calls of macros *)

(** The indexes [i + 2], [i + 4], ... of the first [n] arguments of a call
    whose name is at index [i]. *)
Definition argument_indexes (i : Z) (n : nat) : list Z :=
  map (fun k => (i + 2 + 2 * Z.of_nat k)%Z) (seq 0 n).

(** ** Definitions of the analyzer *)

(** The tokens that [execute_token] looks up in [defines]: neither a
    statement nor an array with elements. *)
Definition is_plain (t : BaseType) : bool :=
  negb (is_Statement t)
  && match t with Array (Some _) => false | _ => true end.

(** What [#define] stores for the base tokens that follow the name. *)
Definition stored_define (rest : list BaseType) : BaseType :=
  match rest with
  | [] => Nothing
  | [b2] => b2
  | _ :: body => Statement body "" false
  end.

(** * Properties *)

Ltac norm_app := repeat first [rewrite <- app_assoc | progress simpl app].
Ltac norm_app_in H :=
  repeat first [rewrite <- app_assoc in H | progress simpl app in H].

(** ** Strings and comments *)



(** ** Arrays *)

Section array.
Variable parse_exp : list BaseType -> BaseType.

Lemma _analyze_array_loop_app tu pre rest r p f :
  _analyze_array_loop parse_exp tu (pre ++ rest) r p f =
  match _analyze_array_loop parse_exp tu pre r p f with
  | Ok (r', p', f') => _analyze_array_loop parse_exp tu rest r' p' f'
  | Raise e => Raise e
  | OutOfFuel => OutOfFuel
  end.
Proof.
  revert r p f. induction pre as [|t pre IH]; intros r p f; simpl; [done|].
  destruct (token_eqb t (Keyword ",")).
  - destruct p; [done|]. apply IH.
  - apply IH.
Qed.

Lemma _analyze_array_loop_outcome tu tokens r p f :
  _analyze_array_loop parse_exp tu tokens r p f = Raise (empty_element tu)
  \/ exists r' p' f', _analyze_array_loop parse_exp tu tokens r p f = Ok (r', p', f').
Proof.
  revert r p f. induction tokens as [|t tokens IH]; intros r p f; simpl.
  - right; eauto.
  - destruct (token_eqb t (Keyword ",")).
    + destruct p; [by left|]. apply IH.
    + apply IH.
Qed.

(** C10: among the tokens between the brackets of an array, a leading
    comma, two consecutive commas and a trailing comma each raise the
    [SQFParserError] whose message is that an array cannot have an empty
    element, and no tokens at all give the empty list of elements. *)
Theorem array_empty_element tu :
  exc_class (empty_element tu) = SQFParserError
  /\ exc_message (empty_element tu) = "Array cannot have an empty element"
  /\ _analyze_array_tokens parse_exp [] tu = Ok []
  /\ (forall rest,
        _analyze_array_tokens parse_exp (Keyword "," :: rest) tu
        = Raise (empty_element tu))
  /\ (forall pre rest,
        _analyze_array_tokens parse_exp
          (pre ++ Keyword "," :: Keyword "," :: rest) tu
        = Raise (empty_element tu))
  /\ (forall pre,
        _analyze_array_tokens parse_exp (pre ++ [Keyword ","]) tu
        = Raise (empty_element tu)).
Proof.
  split; [reflexivity|]. split; [reflexivity|].
  split; [reflexivity|]. split; [reflexivity|]. split.
  - intros pre rest. unfold _analyze_array_tokens.
    rewrite _analyze_array_loop_app.
    destruct (_analyze_array_loop_outcome tu pre [] [] false) as [->|(r & p & f & ->)];
      [done|].
    simpl. destruct p; [done|]. done.
  - intros pre. unfold _analyze_array_tokens.
    rewrite _analyze_array_loop_app.
    destruct (_analyze_array_loop_outcome tu pre [] [] false) as [->|(r & p & f & ->)];
      [done|].
    simpl. destruct p; [done|]. simpl. done.
Qed.
End array.
(** ** The loop of [parse_block] *)

Section block_facts.
Variable PP : list string.
Variable analyze_tokens : list BaseType -> BaseType.
Variable analyze_array : list BaseType -> list BaseType -> result (list BaseType).
Hypothesis brackets_not_directives : forall k, k ∈ brackets -> k ∉ PP.
Hypothesis analyze_array_outcome :
  forall a b, (exists l, analyze_array a b = Ok l) \/ parser_error (analyze_array a b).

Abbreviation loop := (parse_loop PP analyze_tokens analyze_array).
Abbreviation turn := (parse_turn PP analyze_tokens analyze_array).

Lemma no_directive_spec lvls : no_directive PP lvls = true <-> directive_free PP lvls.
Proof.
  unfold no_directive, directive_free. rewrite forallb_forall. split.
  - intros H x Hx. apply Nat.eqb_eq, H. by apply list_elem_of_In.
  - intros H x Hx. apply Nat.eqb_eq, H. by apply list_elem_of_In.
Qed.

Lemma py_len_app {A} (l1 l2 : list A) : py.len (l1 ++ l2) = (py.len l1 + py.len l2)%Z.
Proof. unfold py.len. rewrite length_app. lia. Qed.

Lemma py_index_middle {A} (pre : list A) t rest :
  py.index (pre ++ t :: rest) (py.len pre) = Some t.
Proof.
  unfold py.index, py.len.
  destruct (Z.of_nat (length pre) <? 0)%Z eqn:E; [apply Z.ltb_lt in E; lia|].
  rewrite Nat2Z.id. by rewrite list_lookup_middle.
Qed.

Lemma in_range {A} (pre : list A) t rest :
  (py.len pre <? py.len (pre ++ t :: rest))%Z = true.
Proof. apply Z.ltb_lt. rewrite py_len_app. unfold py.len. simpl. lia. Qed.

Lemma lvl_incr_same lvls k : lvl (incr lvls k) k = S (lvl lvls k).
Proof. unfold incr, lvl at 1. by rewrite lookup_insert_eq. Qed.

Lemma lvl_incr_other lvls k k' : k <> k' -> lvl (incr lvls k) k' = lvl lvls k'.
Proof. intros H. unfold incr, lvl at 1. by rewrite lookup_insert_ne. Qed.

Lemma directive_free_incr lvls k :
  k ∈ brackets -> directive_free PP lvls -> directive_free PP (incr lvls k).
Proof.
  intros Hk H x Hx. rewrite lvl_incr_other; [by apply H|].
  intros ->. by apply (brackets_not_directives x).
Qed.

Lemma or_zero_lvls_incr lvls k : or_zero_lvls PP (incr lvls k) = incr lvls k.
Proof.
  unfold or_zero_lvls. rewrite bool_decide_eq_false_2; [done|].
  unfold incr. apply insert_non_empty.
Qed.

Lemma lvl_zero_lvls k : lvl (zero_lvls PP) k = 0.
Proof.
  unfold lvl, zero_lvls.
  destruct (list_to_map _ !! k) as [n|] eqn:E; [|done]. simpl.
  apply elem_of_list_to_map_2 in E.
  apply list_elem_of_fmap in E as (x & [= _ ->] & _). done.
Qed.

Lemma directive_free_zero : directive_free PP (zero_lvls PP).
Proof. intros x _. apply lvl_zero_lvls. Qed.

Lemma find_define_empty all i t : find_define all ∅ i t = Ok None.
Proof. unfold find_define. by rewrite lookup_empty. Qed.

Lemma loop_S fuel all start lvls stop defines i st tk :
  loop (S fuel) all start lvls stop defines i st tk
  = turn (loop fuel) all start lvls stop defines i st tk.
Proof. reflexivity. Qed.

(** The turn at a token, outside of any macro. *)
Lemma turn_at self pre t rest start lvls stop st tk :
  turn self (pre ++ t :: rest) start lvls stop ∅ (py.len pre) st tk
  = mbind (M := result)
      (fun found => match found with
         | Some x => turn self (pre ++ t :: rest) start lvls stop ∅ (py.len pre) st tk
         | None => turn self (pre ++ t :: rest) start lvls stop ∅ (py.len pre) st tk
         end) (Ok (@None unit)).
Proof. simpl. reflexivity. Qed.

Lemma plain_turn self pre t rest start lvls stop st tk :
  is_bracket t = false -> is_directive PP t = false -> directive_free PP lvls ->
  exists st' tk',
    turn self (pre ++ t :: rest) start lvls stop ∅ (py.len pre) st tk
    = self (pre ++ t :: rest) start lvls stop ∅ (py.len pre + 1)%Z st' tk'.
Proof.
  intros Hb Hd Hl. unfold parse_turn.
  rewrite in_range, py_index_middle. simpl negb. cbv iota. simpl or_raise.
  unfold mbind at 1, result_bind at 1. unfold mbind at 1, result_bind at 1.
  rewrite find_define_empty.
  unfold is_bracket in Hb.
  repeat (apply orb_false_elim in Hb as [Hb ?]).
  repeat match goal with H : token_eqb t _ = false |- _ => rewrite H; clear H end.
  unfold is_directive in Hd. rewrite Hd.
  apply no_directive_spec in Hl. rewrite Hl. rewrite andb_false_r.
  destruct (ends_statement PP lvls stop t); [eauto|].
  destruct (negb (is_EndOfFile t)); eauto.
Qed.

Lemma open_turn self pre k o c m rest start lvls stop st tk :
  pair k o c m ->
  exists stop',
    turn self (pre ++ o :: rest) start lvls stop ∅ (py.len pre) st tk
    = '(expression, size, defines) ←
        self (pre ++ o :: rest) (py.len pre + 1)%Z (incr lvls k) stop' ∅
          (py.len pre + 1)%Z [] [];
      self (pre ++ o :: rest) start lvls stop defines
        (py.len pre + (size + 1) + 1)%Z st (tk ++ [expression]).
Proof.
  intros Hp. unfold parse_turn.
  rewrite in_range, py_index_middle. simpl negb. cbv iota. simpl or_raise.
  unfold mbind at 1, result_bind at 1. unfold mbind at 1, result_bind at 1.
  rewrite find_define_empty.
  destruct Hp; simpl token_eqb; cbv iota; rewrite or_zero_lvls_incr; eauto.
Qed.

Lemma close_turn self pre k o c m rest start lvls stop st tk :
  pair k o c m -> lvl lvls k <> 0 ->
  (exists e, turn self (pre ++ c :: rest) start lvls stop ∅ (py.len pre) st tk
             = Ok (e, (py.len pre - start)%Z, ∅))
  \/ parser_error (turn self (pre ++ c :: rest) start lvls stop ∅ (py.len pre) st tk).
Proof.
  intros Hp Hl. unfold parse_turn.
  rewrite in_range, py_index_middle. simpl negb. cbv iota. simpl or_raise.
  unfold mbind at 1, result_bind at 1. unfold mbind at 1, result_bind at 1.
  rewrite find_define_empty.
  apply Nat.eqb_neq in Hl.
  destruct Hp; simpl token_eqb; cbv iota; rewrite Hl; eauto.
  destruct st as [|[] st]; try (right; eexists; split; [reflexivity|reflexivity]).
  - destruct (analyze_array_outcome tk (py.slice_to (pre ++ Keyword "]" :: rest) (py.len pre)))
      as [[l ->]|(e & -> & He)]; [left; simpl; eauto|right; simpl; by exists e].
  - destruct (analyze_array_outcome tokens (py.slice_to (pre ++ Keyword "]" :: rest) (py.len pre)))
      as [[l ->]|(e & -> & He)]; [left; simpl; eauto|right; simpl; by exists e].
Qed.

Lemma close_unopened_turn self pre k o c m rest start lvls stop st tk :
  pair k o c m -> lvl lvls k = 0 ->
  turn self (pre ++ c :: rest) start lvls stop ∅ (py.len pre) st tk
  = Raise (not_opened k m (py.slice_to (pre ++ c :: rest) (py.len pre))).
Proof.
  intros Hp Hl. unfold parse_turn.
  rewrite in_range, py_index_middle. simpl negb. cbv iota. simpl or_raise.
  unfold mbind at 1, result_bind at 1. unfold mbind at 1, result_bind at 1.
  rewrite find_define_empty.
  apply Nat.eqb_eq in Hl.
  destruct Hp; simpl token_eqb; cbv iota; rewrite Hl; reflexivity.
Qed.

Lemma pair_in_brackets k o c m : pair k o c m -> k ∈ brackets.
Proof. destruct 1; unfold brackets; repeat constructor. Qed.

(** Crossing a correctly paired run of tokens. *)
Lemma loop_balanced body :
  balanced body -> Forall (fun t => is_directive PP t = false) body ->
  forall fuel pre rest start lvls stop st tk,
    directive_free PP lvls -> length body + length rest < fuel ->
    parser_error (loop fuel (pre ++ body ++ rest) start lvls stop ∅ (py.len pre) st tk)
    \/ exists fuel' st' tk',
         length rest < fuel'
         /\ loop fuel (pre ++ body ++ rest) start lvls stop ∅ (py.len pre) st tk
            = loop fuel' (pre ++ body ++ rest) start lvls stop ∅
                (py.len pre + py.len body)%Z st' tk'.
Proof.
  induction 1 as [|t l Hb Hl IH|k o c m inner l Hp Hinner IHinner Hl IHl];
    intros Hdir fuel pre rest start lvls stop st tk Hfree Hfuel.
  - right. exists fuel, st, tk. split; [simpl in Hfuel; lia|].
    replace (py.len pre + py.len (@nil BaseType))%Z with (py.len pre)
      by (unfold py.len; simpl; lia). done.
  - apply Forall_cons in Hdir as [Hd Hdir].
    destruct fuel as [|fuel]; [lia|]. rewrite loop_S. simpl app.
    destruct (plain_turn (loop fuel) pre t (l ++ rest) start lvls stop st tk Hb Hd Hfree)
      as (st' & tk' & ->).
    specialize (IH Hdir fuel (pre ++ [t]) rest start lvls stop st' tk' Hfree).
    rewrite <- !app_assoc in IH. simpl in IH.
    rewrite py_len_app in IH. change (py.len [t]) with 1%Z in IH.
    destruct IH as [IH|(fuel' & st'' & tk'' & Hf & IH)]; [simpl in Hfuel; lia|by left|].
    right. exists fuel', st'', tk''. split; [done|]. rewrite IH. f_equal.
    unfold py.len. simpl. lia.
  - apply Forall_cons in Hdir as [Hdo Hdir].
    apply Forall_app in Hdir as [Hdi Hdir]. apply Forall_cons in Hdir as [Hdc Hdl].
    destruct fuel as [|fuel]; [lia|]. rewrite loop_S. simpl app.
    rewrite <- app_assoc. simpl app.
    destruct (open_turn (loop fuel) pre k o c m (inner ++ c :: l ++ rest) start lvls stop st tk Hp)
      as (stop' & ->).
    simpl in Hfuel. rewrite length_app in Hfuel. simpl in Hfuel.
    pose proof (IHinner Hdi fuel (pre ++ [o]) (c :: l ++ rest)
                  (py.len pre + 1)%Z (incr lvls k) stop' [] []
                  (directive_free_incr _ _ (pair_in_brackets _ _ _ _ Hp) Hfree)) as IH1.
    rewrite <- !app_assoc in IH1. simpl app in IH1.
    rewrite py_len_app in IH1. change (py.len [o]) with 1%Z in IH1.
    destruct IH1 as [(e & -> & He)|(fuel1 & st1 & tk1 & Hf1 & ->)];
      [simpl; rewrite length_app; lia|left; by exists e|].
    destruct fuel1 as [|fuel1]; [simpl in Hf1; lia|]. rewrite loop_S.
    replace (pre ++ o :: inner ++ c :: l ++ rest)
      with ((pre ++ o :: inner) ++ c :: l ++ rest) by (by rewrite <- app_assoc).
    replace (py.len pre + 1 + py.len inner)%Z with (py.len (pre ++ o :: inner))
      by (unfold py.len; rewrite length_app; simpl; lia).
    destruct (close_turn (loop fuel1) (pre ++ o :: inner) k o c m (l ++ rest)
                (py.len pre + 1)%Z (incr lvls k) stop' st1 tk1 Hp)
      as [[e ->]|(e & -> & He)];
      [rewrite lvl_incr_same; lia| |left; by exists e].
    simpl mbind. unfold result_bind.
    pose proof (IHl Hdl fuel ((pre ++ o :: inner) ++ [c]) rest start lvls stop st (tk ++ [e]) Hfree)
      as IH2.
    norm_app_in IH2.
    replace (py.len (pre ++ o :: inner ++ [c])) with
      (py.len pre + (py.len (pre ++ o :: inner) - (py.len pre + 1) + 1) + 1)%Z in IH2
      by (unfold py.len; rewrite !length_app; simpl; rewrite length_app; simpl; lia).
    norm_app.
    destruct IH2 as [IH2|(fuel2 & st2 & tk2 & Hf2 & IH2)]; [lia|by left|].
    right. exists fuel2, st2, tk2. split; [done|]. rewrite IH2. f_equal.
    unfold py.len. rewrite !length_app. simpl. rewrite !length_app. simpl. lia.
Qed.

Lemma balanced_app a b : balanced a -> balanced b -> balanced (a ++ b).
Proof.
  induction 1 as [|t l Hb Hl IH|k o c m inner l Hp Hi IHi Hl IHl]; intros Hb'; simpl.
  - done.
  - constructor; auto.
  - rewrite <- app_assoc. simpl. apply (balanced_group k o c m); [done|done|by apply IHl].
Qed.

Lemma turn_end self all start lvls stop defines st tk :
  turn self all start lvls stop defines (py.len all) st tk
  = block_end PP analyze_tokens all start lvls defines (py.len all) st tk.
Proof. unfold parse_turn. by rewrite Z.ltb_irrefl. Qed.

Lemma block_end_closed all start lvls defines i st tk :
  (forall k, k ∈ brackets -> lvl lvls k = 0) ->
  exists t, block_end PP analyze_tokens all start lvls defines i st tk
            = Ok (t, (i - start)%Z, defines).
Proof.
  intros H. unfold block_end, brackets, find.
  rewrite !H by (unfold brackets; repeat constructor). simpl. eauto.
Qed.

Lemma block_end_open all start lvls defines i st tk k :
  k ∈ brackets -> lvl lvls k <> 0 ->
  exists e k', block_end PP analyze_tokens all start lvls defines i st tk = Raise e
    /\ exc_class e = SQFParenthesisError
    /\ exc_message e = not_closed_msg k'
    /\ k' ∈ brackets /\ lvl lvls k' <> 0.
Proof.
  intros Hk Hl. unfold block_end.
  destruct (find _ brackets) as [k'|] eqn:E.
  - apply find_some in E as [Hin E]. apply andb_prop in E as [E _].
    apply negb_true_iff, Nat.eqb_neq in E.
    eexists _, k'. repeat split; try reflexivity; [by apply list_elem_of_In|done].
  - exfalso. apply list_elem_of_In in Hk as Hin.
    pose proof (find_none _ _ E k Hin) as Hnone. cbv beta in Hnone.
    apply Nat.eqb_neq in Hl. rewrite Hl in Hnone.
    rewrite bool_decide_eq_false_2 in Hnone by (by apply brackets_not_directives).
    discriminate Hnone.
Qed.

Lemma eof_plain : is_bracket EndOfFile = false /\ is_directive PP EndOfFile = false.
Proof. done. Qed.

(** The end of the input inside a bracket that is still open. *)
Lemma loop_open_end inner :
  balanced inner -> Forall (fun t => is_directive PP t = false) inner ->
  forall fuel pre start lvls stop st tk k,
    directive_free PP lvls -> k ∈ brackets -> lvl lvls k <> 0 ->
    length inner + 1 < fuel ->
    parser_error (loop fuel (pre ++ inner ++ [EndOfFile]) start lvls stop ∅ (py.len pre) st tk)
    \/ exists e k',
         loop fuel (pre ++ inner ++ [EndOfFile]) start lvls stop ∅ (py.len pre) st tk = Raise e
         /\ exc_class e = SQFParenthesisError
         /\ exc_message e = not_closed_msg k'
         /\ k' ∈ brackets /\ lvl lvls k' <> 0.
Proof.
  intros Hb Hd fuel pre start lvls stop st tk k Hfree Hk Hl Hfuel.
  assert (Hb' : balanced (inner ++ [EndOfFile])).
  { apply balanced_app; [done|]. constructor; [done|constructor]. }
  assert (Hd' : Forall (fun t => is_directive PP t = false) (inner ++ [EndOfFile])).
  { apply Forall_app. split; [done|]. by constructor. }
  destruct (loop_balanced _ Hb' Hd' fuel pre [] start lvls stop st tk Hfree)
    as [H|(fuel' & st' & tk' & Hf & H)].
  { rewrite length_app. simpl. lia. }
  - left. by rewrite app_nil_r in H.
  - right. rewrite app_nil_r in H. rewrite H.
    destruct fuel' as [|fuel']; [simpl in Hf; lia|]. rewrite loop_S.
    rewrite <- py_len_app. rewrite turn_end.
    by apply (block_end_open _ _ _ _ _ _ _ k).
Qed.

Lemma loop_unclosed ks u :
  unclosed ks u -> Forall (fun t => is_directive PP t = false) u ->
  forall fuel pre start lvls stop st tk,
    directive_free PP lvls -> length u + 1 < fuel ->
    parser_error (loop fuel (pre ++ u ++ [EndOfFile]) start lvls stop ∅ (py.len pre) st tk)
    \/ exists e k,
         loop fuel (pre ++ u ++ [EndOfFile]) start lvls stop ∅ (py.len pre) st tk = Raise e
         /\ exc_class e = SQFParenthesisError
         /\ exc_message e = not_closed_msg k
         /\ k ∈ brackets /\ (k ∈ ks \/ lvl lvls k <> 0).
Proof.
  induction 1 as [k o c m b inner Hp Hb Hi|k o c m b ks u Hp Hb Hu IH];
    intros Hd fuel pre start lvls stop st tk Hfree Hfuel.
  - apply Forall_app in Hd as [Hdb Hd]. apply Forall_cons in Hd as [Hdo Hdi].
    rewrite length_app in Hfuel. simpl in Hfuel.
    destruct (loop_balanced _ Hb Hdb fuel pre (o :: inner ++ [EndOfFile]) start lvls stop st tk Hfree)
      as [H|(fuel' & st' & tk' & Hf & H)].
    { simpl. rewrite length_app. simpl. lia. }
    { left. by norm_app. }
    norm_app. rewrite H.
    destruct fuel' as [|fuel']; [simpl in Hf; lia|]. rewrite loop_S.
    replace (pre ++ b ++ o :: inner ++ [EndOfFile])
      with ((pre ++ b) ++ o :: inner ++ [EndOfFile]) by (by rewrite <- app_assoc).
    rewrite <- py_len_app.
    destruct (open_turn (loop fuel') (pre ++ b) k o c m (inner ++ [EndOfFile]) start lvls stop st' tk' Hp)
      as (stop' & ->).
    simpl in Hf. rewrite length_app in Hf. simpl in Hf.
    pose proof (loop_open_end inner Hi Hdi fuel' ((pre ++ b) ++ [o])
                  (py.len (pre ++ b) + 1)%Z (incr lvls k) stop' [] [] k
                  (directive_free_incr _ _ (pair_in_brackets _ _ _ _ Hp) Hfree)
                  (pair_in_brackets _ _ _ _ Hp)) as Hend.
    rewrite (py_len_app (pre ++ b) [o]) in Hend. change (py.len [o]) with 1%Z in Hend.
    replace (((pre ++ b) ++ [o]) ++ inner ++ [EndOfFile])
      with ((pre ++ b) ++ o :: inner ++ [EndOfFile]) in Hend
      by (by rewrite <- (app_assoc (pre ++ b) [o])).
    destruct Hend as [(e & He & Hc)|(e & k' & He & Hc & Hm & Hk & Hl)].
    { rewrite lvl_incr_same. lia. } { lia. }
    + left. rewrite He. by exists e.
    + right. rewrite He. simpl. exists e, k'. repeat split; try done.
      destruct (decide (k = k')) as [->|Hne]; [left; by left|].
      right. by rewrite lvl_incr_other in Hl.
  - apply Forall_app in Hd as [Hdb Hd]. apply Forall_cons in Hd as [Hdo Hdu].
    rewrite length_app in Hfuel. simpl in Hfuel.
    destruct (loop_balanced _ Hb Hdb fuel pre (o :: u ++ [EndOfFile]) start lvls stop st tk Hfree)
      as [H|(fuel' & st' & tk' & Hf & H)].
    { simpl. rewrite length_app. simpl. lia. }
    { left. by norm_app. }
    norm_app. rewrite H.
    destruct fuel' as [|fuel']; [simpl in Hf; lia|]. rewrite loop_S.
    replace (pre ++ b ++ o :: u ++ [EndOfFile])
      with ((pre ++ b) ++ o :: u ++ [EndOfFile]) by (by rewrite <- app_assoc).
    rewrite <- py_len_app.
    destruct (open_turn (loop fuel') (pre ++ b) k o c m (u ++ [EndOfFile]) start lvls stop st' tk' Hp)
      as (stop' & ->).
    simpl in Hf. rewrite length_app in Hf. simpl in Hf.
    pose proof (IH Hdu fuel' ((pre ++ b) ++ [o])
                  (py.len (pre ++ b) + 1)%Z (incr lvls k) stop' [] []
                  (directive_free_incr _ _ (pair_in_brackets _ _ _ _ Hp) Hfree)) as Hend.
    rewrite (py_len_app (pre ++ b) [o]) in Hend. change (py.len [o]) with 1%Z in Hend.
    replace (((pre ++ b) ++ [o]) ++ u ++ [EndOfFile])
      with ((pre ++ b) ++ o :: u ++ [EndOfFile]) in Hend
      by (by rewrite <- (app_assoc (pre ++ b) [o])).
    destruct Hend as [(e & He & Hc)|(e & k' & He & Hc & Hm & Hk & Hl)]; [lia| |].
    + left. rewrite He. by exists e.
    + right. rewrite He. simpl. exists e, k'. repeat split; try done.
      destruct Hl as [Hl|Hl]; [left; by right|].
      destruct (decide (k = k')) as [->|Hne]; [left; by left|].
      right. by rewrite lvl_incr_other in Hl.
Qed.

End block_facts.

(** ** Statement separators *)

Section separator.
Variable PP : list string.
Variable analyze_tokens : list BaseType -> BaseType.
Variable analyze_array : list BaseType -> list BaseType -> result (list BaseType).

Abbreviation sep_loop := (parse_loop PP analyze_tokens analyze_array).
Abbreviation sep_turn := (parse_turn PP analyze_tokens analyze_array).

Lemma no_directive_false lvls :
  no_directive PP lvls = false <-> ~ directive_free PP lvls.
Proof.
  rewrite <- no_directive_spec. destruct (no_directive PP lvls); split; congruence.
Qed.

(** A token that is a separator, not the name of a macro and not a directive. *)
Lemma separator_turn self all start lvls stop defines i st tk sep :
  (0 <= i)%Z -> all !! Z.to_nat i = Some (Keyword sep) ->
  sep = ";" \/ sep = "," -> defines !! sep = None -> sep ∉ PP ->
  sep_turn self all start lvls stop defines i st tk =
  if ends_statement PP lvls stop (Keyword sep)
  then self all start lvls stop defines (i + 1)%Z
         (st ++ [analyze_tokens (tk ++ [Keyword sep])]) []
  else self all start lvls stop defines (i + 1)%Z st (tk ++ [Keyword sep]).
Proof.
  intros Hi Hat Hsep Hdef Hpp. unfold parse_turn.
  assert (Hlt : (i <? py.len all)%Z = true).
  { apply Z.ltb_lt. apply lookup_lt_Some in Hat. unfold py.len. lia. }
  rewrite Hlt. simpl negb. cbv iota.
  assert (Hidx : py.index all i = Some (Keyword sep)).
  { unfold py.index. destruct (i <? 0)%Z eqn:E; [apply Z.ltb_lt in E; lia|done]. }
  rewrite Hidx. simpl or_raise.
  assert (Hfd : find_define all defines i (Keyword sep) = Ok None).
  { unfold find_define. simpl str. by rewrite Hdef. }
  unfold mbind at 1, result_bind at 1. unfold mbind at 1, result_bind at 1.
  rewrite Hfd.
  assert (Hnb : forall b, b ∈ ["["; "("; "{"; "]"; ")"; "}"] ->
                          token_eqb (Keyword sep) (Keyword b) = false).
  { intros b Hb. destruct Hsep as [-> | ->];
      repeat (apply elem_of_cons in Hb as [-> | Hb]; [reflexivity|]);
      by apply elem_of_nil in Hb. }
  rewrite !Hnb by (repeat constructor).
  destruct (ends_statement PP lvls stop (Keyword sep)); [reflexivity|].
  simpl is_Keyword. simpl keyword_value.
  rewrite (bool_decide_eq_false_2 _ Hpp). simpl.
  reflexivity.
Qed.

Lemma ends_statement_semicolon lvls stop :
  ends_statement PP lvls stop (Keyword ";")
  = bool_decide (stop = single) || no_directive PP lvls.
Proof.
  unfold ends_statement. simpl. destruct stop, (no_directive PP lvls); reflexivity.
Qed.

Lemma ends_statement_comma lvls stop :
  ends_statement PP lvls stop (Keyword ",")
  = bool_decide (stop = both) && no_directive PP lvls.
Proof.
  unfold ends_statement. simpl. destruct stop, (no_directive PP lvls); reflexivity.
Qed.

(** C8 (as amended): in the loop of [parse_block], at a token [;] or [,]
    that is neither a directive nor the name of a macro: a [;] ends the
    current statement when the block stops at [;] only (the body of a
    directive) or when no directive is open, and is an ordinary token of
    the run when the block stops at both separators while a directive is
    open; a [,] ends the current statement when the block stops at both
    separators and no directive is open, and is an ordinary token in every
    other case. *)
Theorem separator_ends_statement fuel all start lvls stop defines i st tk sep
    (Hi : (0 <= i)%Z) (Hat : all !! Z.to_nat i = Some (Keyword sep))
    (Hsep : sep = ";" \/ sep = ",") (Hdef : defines !! sep = None)
    (Hpp : sep ∉ PP) :
  let ends :=
    sep_loop (S fuel) all start lvls stop defines i st tk
    = sep_loop fuel all start lvls stop defines (i + 1)%Z
        (st ++ [analyze_tokens (tk ++ [Keyword sep])]) [] in
  let ordinary :=
    sep_loop (S fuel) all start lvls stop defines i st tk
    = sep_loop fuel all start lvls stop defines (i + 1)%Z st (tk ++ [Keyword sep]) in
  (sep = ";" -> stop = single \/ directive_free PP lvls -> ends)
  /\ (sep = ";" -> stop = both -> ~ directive_free PP lvls -> ordinary)
  /\ (sep = "," -> stop = both -> directive_free PP lvls -> ends)
  /\ (sep = "," -> stop = single \/ ~ directive_free PP lvls -> ordinary).
Proof.
  intros ends ordinary. subst ends ordinary.
  rewrite loop_S, (separator_turn _ _ _ _ _ _ _ _ _ sep) by assumption.
  repeat split.
  - intros -> H. rewrite ends_statement_semicolon.
    destruct H as [-> | H]; [reflexivity|].
    apply no_directive_spec in H. rewrite H. by rewrite orb_true_r.
  - intros -> -> H. rewrite ends_statement_semicolon.
    apply no_directive_false in H. by rewrite H.
  - intros -> -> H. rewrite ends_statement_comma.
    apply no_directive_spec in H. by rewrite H.
  - intros -> H. rewrite ends_statement_comma.
    destruct H as [-> | H]; [reflexivity|].
    apply no_directive_false in H. rewrite H. by rewrite andb_false_r.
Qed.

End separator.

(** ** The methods of the analyzer preserve [evolves] *)
Section invariant.
Variable strict : bool.

Lemma evolves_refl s : evolves strict s s.
Proof. split; auto; try done. exists []. by rewrite app_nil_r. Qed.

Lemma footprint_evolves s s' : evolves strict s s' -> footprint (fst s') = footprint (fst s).
Proof. intros [H1 H2 _ _ _ _ _ _]. unfold footprint. by rewrite H1, H2. Qed.

Lemma evolves_trans s1 s2 s3 : evolves strict s1 s2 -> evolves strict s2 s3 -> evolves strict s1 s3.
Proof.
  intros H12 H23. pose proof (footprint_evolves _ _ H12) as Hfp.
  destruct H12 as [N1 C1 L1 F1 E1 U1 [m1 X1] P1], H23 as [N2 C2 L2 F2 E2 U2 [m2 X2] P2].
  split.
  - congruence.
  - congruence.
  - lia.
  - intros r Hr Hn. rewrite F2; [by apply F1|lia|by rewrite Hfp].
  - auto.
  - intros k Hk. destruct (U1 k Hk) as [H|H]; [by apply U2|right; by apply E2].
  - exists (m1 ++ m2). rewrite X2, X1. by rewrite app_assoc.
  - intros Hs. etrans; [by apply P1|by apply P2].
Qed.

Lemma bind_inv {A B} (m : M A) (f : A -> M B) s r s' :
  (m ≫= f) s = Ok (r, s') ->
  exists a s1, m s = Ok (a, s1) /\ f a s1 = Ok (r, s').
Proof.
  unfold mbind, M_bind. destruct (m s) as [[a s1]| |]; [eauto|done|done].
Qed.

Lemma preserves_ret {A} (a : A) : preserves strict (mret a).
Proof. intros s r s' [= _ <-]. apply evolves_refl. Qed.

Lemma preserves_bind {A B} (m : M A) (f : A -> M B) :
  preserves strict m -> (forall a, preserves strict (f a)) -> preserves strict (m ≫= f).
Proof.
  intros Hm Hf s r s' H. apply bind_inv in H as (a & s1 & H1 & H2).
  eapply evolves_trans; [by eapply Hm|by eapply Hf].
Qed.

Lemma preserves_raise {A} e : preserves strict (@raise A e).
Proof. intros s r s' H. discriminate H. Qed.

Lemma preserves_out_of_fuel {A} : preserves strict (@out_of_fuel A).
Proof. intros s r s' H. discriminate H. Qed.

Lemma preserves_lift {A} (x : result A) : preserves strict (lift x).
Proof. intros s r s' H. unfold lift in H. destruct x; [|done|done].
  injection H as _ <-. apply evolves_refl. Qed.

Lemma preserves_gets {A} (f : Analyzer -> A) : preserves strict (gets f).
Proof. intros s r s' [= _ <-]. apply evolves_refl. Qed.

Lemma preserves_read_namespace r : preserves strict (read_namespace r).
Proof.
  intros s x s' H. unfold read_namespace in H.
  destruct (snd s !! r); [|done]. injection H as _ <-. apply evolves_refl.
Qed.

Lemma preserves_exception e : preserves strict (exception e).
Proof.
  intros [a h] r s' [= _ <-]. split; simpl; auto. by exists [e].
Qed.

Lemma preserves_set_privates v :
  strict = false -> preserves strict (modify (set_privates v)).
Proof.
  intros -> [a h] r s' [= _ <-]. split; simpl; auto; [|done].
  exists []. by rewrite app_nil_r.
Qed.

Lemma preserves_append_private x :
  preserves strict (modify (fun a => set_privates (privates a ++ [x]) a)).
Proof.
  intros [a h] r s' [= _ <-]. split; simpl; auto.
  - exists []. by rewrite app_nil_r.
  - intros _. by apply sublist_inserts_r.
Qed.

Lemma preserves_set_unevaluated v : preserves strict (modify (set_unevaluated v)).
Proof.
  intros [a h] r s' [= _ <-]. split; simpl; auto.
  exists []. by rewrite app_nil_r.
Qed.

Lemma preserves_modify_unevaluated f :
  preserves strict (modify (fun a => set_unevaluated (f a) a)).
Proof.
  intros [a h] r s' [= _ <-]. split; simpl; auto.
  exists []. by rewrite app_nil_r.
Qed.

Lemma preserves_modify_defines f :
  preserves strict (modify (fun a => set_defines (f a) a)).
Proof.
  intros [a h] r s' [= _ <-]. split; simpl; auto.
  exists []. by rewrite app_nil_r.
Qed.

Lemma preserves_mapM {A B} (f : A -> M B) l :
  (forall x, preserves strict (f x)) -> preserves strict (mapM f l).
Proof.
  intros Hf. induction l as [|x l IH]; simpl.
  - apply preserves_ret.
  - apply preserves_bind; [apply Hf|]. intros y.
    apply preserves_bind; [apply IH|]. intros ys. apply preserves_ret.
Qed.

Lemma preserves_forM_ {A} (f : A -> M unit) l :
  (forall x, preserves strict (f x)) -> preserves strict (forM_ l f).
Proof.
  intros Hf. induction l as [|x l IH]; simpl.
  - apply preserves_ret.
  - apply preserves_bind; [apply Hf|]. intros _. apply IH.
Qed.

(** Keys of the ordered dictionaries. *)
Lemma keys_dict_set {V} (d : list (string * V)) k v k' :
  k' ∈ keys (py.dict_set d k v) <-> k' = k \/ k' ∈ keys d.
Proof.
  unfold keys. induction d as [|[k0 v0] d IH]; simpl.
  - rewrite list_elem_of_singleton. split; [auto|]. intros [H|H]; [done|].
    by apply elem_of_nil in H.
  - case_bool_decide as E; simpl.
    + subst k0. rewrite !elem_of_cons. tauto.
    + rewrite !elem_of_cons, IH. tauto.
Qed.

Lemma dict_in_keys {V} (d : list (string * V)) k :
  py.dict_in k d = true <-> k ∈ keys d.
Proof.
  unfold py.dict_in, keys. induction d as [|[k0 v0] d IH]; simpl.
  - split; [done|]. intros H. by apply elem_of_nil in H.
  - case_bool_decide as E; simpl.
    + subst k0. split; [intros _; by left|done].
    + rewrite elem_of_cons, <- IH. split; [auto|]. intros [H'|H']; [congruence|done].
Qed.

Lemma keys_dict_del {V} (d : list (string * V)) k k' :
  k' ∈ keys d -> k' = k \/ k' ∈ keys (py.dict_del d k).
Proof.
  unfold keys, py.dict_del. induction d as [|[k0 v0] d IH]; simpl; [auto|].
  rewrite elem_of_cons. intros [->|Hin].
  - case_bool_decide; [by left|]. right. simpl. by left.
  - destruct (IH Hin) as [->|Hd]; [by left|]. right.
    case_bool_decide; simpl; [done|by right].
Qed.

Lemma keys_dict_del_gone {V} (d : list (string * V)) k :
  k ∉ keys (py.dict_del d k).
Proof.
  unfold keys, py.dict_del. induction d as [|[k0 v0] d IH]; simpl.
  - apply not_elem_of_nil.
  - case_bool_decide; simpl; [done|]. apply not_elem_of_cons. split; [congruence|done].
Qed.

Lemma dict_get_elem {K V} `{EqDecision K} (d : list (K * V)) k v :
  py.dict_get d k = Some v -> v ∈ map snd d.
Proof.
  induction d as [|[k0 v0] d IH]; simpl; [done|].
  case_bool_decide; [intros [= ->]; by left|]. intros Hg. right. by apply IH.
Qed.

Lemma preserves_track_code result : preserves strict (track_code result).
Proof.
  intros [a h] r s' H. unfold track_code in H.
  apply bind_inv in H as (codes & s1 & [= <- <-] & H). simpl in H.
  destruct (is_Code result && negb (py.dict_in (str result) (_unexecuted_codes a)));
    [|injection H as _ <-; apply evolves_refl].
  injection H as _ <-. split; simpl; auto.
  - intros k Hk. left. apply keys_dict_set. by right.
  - exists []. by rewrite app_nil_r.
Qed.

Lemma preserves_mark_executed code : preserves strict (mark_executed code).
Proof.
  intros [a h] r s' H. unfold mark_executed in H.
  apply bind_inv in H as ([] & s1 & [= <-] & [= _ <-]). simpl.
  split; simpl; auto.
  - destruct (py.dict_in _ _); simpl; auto.
  - destruct (py.dict_in _ _); simpl; auto.
  - intros k Hk. destruct (py.dict_in _ _); simpl; apply keys_dict_set; by right.
  - intros k Hk. destruct (py.dict_in (str code) (_unexecuted_codes a)); simpl.
    + destruct (keys_dict_del _ (str code) _ Hk) as [->|Hk']; [right|by left].
      apply keys_dict_set. by left.
    + by left.
  - exists []. rewrite app_nil_r. by destruct (py.dict_in _ _).
  - intros _. by destruct (py.dict_in _ _).
Qed.

(** Writing a namespace object of the interpreter itself. *)
Lemma write_evolves a h r stack :
  r ∈ footprint a -> evolves strict (a, h) (a, <[r := stack]> h).
Proof.
  intros Hr. split; simpl; auto.
  - by rewrite length_insert.
  - intros r' _ Hn. apply list_lookup_insert_ne. intros ->. done.
  - exists []. by rewrite app_nil_r.
Qed.

Lemma current_in_footprint a : _current_namespace a ∈ footprint a.
Proof. by left. Qed.

Lemma read_namespace_inv r s stack s' :
  read_namespace r s = Ok (stack, s') -> s' = s /\ snd s !! r = Some stack.
Proof.
  unfold read_namespace. destruct (snd s !! r); [|done]. by intros [= <- <-].
Qed.

Lemma get_scope_inv name ns s scope s' :
  get_scope name ns s = Ok (scope, s') -> s' = s /\ fst scope ∈ footprint (fst s).
Proof.
  intros H. unfold get_scope in H.
  apply bind_inv in H as (r & s1 & H1 & H).
  assert (s1 = s /\ r ∈ footprint (fst s)) as [-> Hr].
  { destruct ns as [n|].
    - apply bind_inv in H1 as (names & s2 & [= <- <-] & H1).
      unfold lift in H1. destruct (py.dict_get _ n) as [r'|] eqn:E; [|done].
      injection H1 as <- <-. split; [done|]. right. by eapply dict_get_elem.
    - injection H1 as <- <-. split; [done|]. apply current_in_footprint. }
  apply bind_inv in H as (stack & s2 & H2 & H).
  apply read_namespace_inv in H2 as [-> _].
  destruct stack; [done|]. by injection H as <- <-.
Qed.

Lemma current_scope_inv s scope s' :
  current_scope s = Ok (scope, s') ->
  s' = s /\ fst scope = _current_namespace (fst s).
Proof.
  intros H. unfold current_scope in H.
  apply bind_inv in H as (r & s1 & [= <- <-] & H).
  apply bind_inv in H as (stack & s2 & H2 & H).
  apply read_namespace_inv in H2 as [-> _].
  destruct stack; [done|]. by injection H as <- <-.
Qed.

Lemma read_scope_inv scope s sc s' :
  read_scope scope s = Ok (sc, s') -> s' = s.
Proof.
  intros H. unfold read_scope in H.
  apply bind_inv in H as (stack & s1 & H1 & H).
  apply read_namespace_inv in H1 as [-> _].
  unfold lift in H. destruct (or_raise _ _); [|done|done]. by injection H as _ <-.
Qed.

Lemma scope_get_inv scope name s v s' :
  scope_get scope name s = Ok (v, s') -> s' = s.
Proof.
  intros H. unfold scope_get in H. apply bind_inv in H as (sc & s1 & H1 & H).
  apply read_scope_inv in H1 as ->. by injection H as _ <-.
Qed.

Lemma scope_level_inv scope s v s' :
  scope_level scope s = Ok (v, s') -> s' = s.
Proof.
  intros H. unfold scope_level in H. apply bind_inv in H as (sc & s1 & H1 & H).
  apply read_scope_inv in H1 as ->. by injection H as _ <-.
Qed.

Lemma scope_set_inv scope name v s s' :
  scope_set scope name v s = Ok (tt, s') ->
  exists stack, s' = (fst s, <[fst scope := stack]> (snd s)).
Proof.
  intros H. unfold scope_set in H.
  apply bind_inv in H as (stack & s1 & H1 & H).
  apply read_namespace_inv in H1 as [-> _].
  apply bind_inv in H as (sc & s1 & H1 & H).
  unfold lift in H1. destruct (or_raise _ _); [|done|done]. injection H1 as <- <-.
  injection H as <-. eauto.
Qed.

Lemma scope_set_evolves scope name v s s' :
  fst scope ∈ footprint (fst s) ->
  scope_set scope name v s = Ok (tt, s') -> evolves strict s s'.
Proof.
  intros Hr H. apply scope_set_inv in H as (stack & ->).
  destruct s as [a h]. by apply write_evolves.
Qed.

Lemma preserves_get_scope name ns : preserves strict (get_scope name ns).
Proof. intros s r s' H. apply get_scope_inv in H as [-> _]. apply evolves_refl. Qed.

Lemma preserves_scope_get scope name : preserves strict (scope_get scope name).
Proof. intros s r s' H. apply scope_get_inv in H as ->. apply evolves_refl. Qed.

Lemma preserves_scope_level scope : preserves strict (scope_level scope).
Proof. intros s r s' H. apply scope_level_inv in H as ->. apply evolves_refl. Qed.

Lemma preserves_add_scope vars : preserves strict (add_scope vars).
Proof.
  intros [a h] [] s' H. unfold add_scope in H.
  apply bind_inv in H as (r & s1 & [= <- <-] & H).
  apply bind_inv in H as (stack & s1 & H1 & H).
  apply read_namespace_inv in H1 as [-> _]. injection H as <-.
  apply write_evolves, current_in_footprint.
Qed.

Lemma preserves_del_scope : preserves strict del_scope.
Proof.
  intros [a h] [] s' H. unfold del_scope in H.
  apply bind_inv in H as (r & s1 & [= <- <-] & H).
  apply bind_inv in H as (stack & s1 & H1 & H).
  apply read_namespace_inv in H1 as [-> _]. destruct stack; [done|].
  injection H as <-. apply write_evolves, current_in_footprint.
Qed.

Lemma preserves_add_privates variables : preserves strict (add_privates variables).
Proof.
  unfold add_privates. apply preserves_forM_. intros variable.
  destruct (string_value variable) as [name|]; [|apply preserves_raise].
  intros s [] s' H. apply bind_inv in H as (scope & s1 & H1 & H).
  apply current_scope_inv in H1 as [-> Hc].
  eapply scope_set_evolves; [|done]. rewrite Hc. apply current_in_footprint.
Qed.

Lemma preserves_assign name rhs_v : preserves strict (assign name rhs_v).
Proof.
  intros s [] s' H. unfold assign in H.
  apply bind_inv in H as (scope & s1 & H1 & H).
  apply get_scope_inv in H1 as [-> Hfp].
  apply bind_inv in H as (old & s1 & H1 & H).
  apply scope_get_inv in H1 as ->.
  apply bind_inv in H as (v & s1 & H1 & H).
  unfold lift in H1. destruct (instantiate _); [|done|done]. injection H1 as <- <-.
  apply bind_inv in H as ([] & s1 & H1 & H).
  pose proof (scope_set_evolves _ _ _ _ _ Hfp H1) as Hev.
  apply bind_inv in H as (lv & s2 & H2 & H).
  apply scope_level_inv in H2 as ->.
  eapply evolves_trans; [done|].
  destruct (_ && _); [by eapply preserves_exception|by eapply (preserves_ret tt)].
Qed.

Lemma dict_get_pair {K V} `{EqDecision K} (d : list (K * V)) k v :
  py.dict_get d k = Some v -> (k, v) ∈ d.
Proof.
  induction d as [|[k0 v0] d IH]; simpl; [done|].
  case_bool_decide; [intros [= ->]; subst; by left|]. intros Hg. right. by apply IH.
Qed.

Lemma memo_ok_app memo h more : memo_ok memo h -> memo_ok memo (h ++ more).
Proof.
  intros Hm r r' Hin. destruct (Hm r r' Hin) as (H1 & H2 & H3).
  rewrite length_app. repeat split; [lia|lia|].
  by rewrite !lookup_app_l.
Qed.

Lemma deepcopy_spec namespaces : forall memo h namespaces' h',
  deepcopy namespaces memo h = Ok (namespaces', h') ->
  memo_ok memo h ->
  (exists more, h' = h ++ more)
  /\ (forall r', r' ∈ map snd namespaces' ->
        length h <= r' \/ r' ∈ map snd memo)
  /\ Forall2 (fun x y => fst x = fst y /\ h' !! snd y = h' !! snd x)
       namespaces namespaces'.
Proof.
  induction namespaces as [|[name r] rest IH];
    intros memo h nss' h' H Hmemo; simpl in H.
  - injection H as <- <-. split; [exists []; by rewrite app_nil_r|].
    split; [intros r' Hr'; by apply elem_of_nil in Hr'|]. constructor.
  - destruct (py.dict_get memo r) as [r'|] eqn:E.
    + destruct (deepcopy rest memo h) as [[rest' h1]| |] eqn:D; [|done|done].
      simpl in H. injection H as <- <-.
      destruct (IH _ _ _ _ D Hmemo) as ([more ->] & Hfresh & Hcopy).
      split; [by exists more|]. split.
      * simpl. intros x Hx. apply elem_of_cons in Hx as [->|Hx]; [|by apply Hfresh].
        right. by eapply dict_get_elem.
      * constructor; [|done]. simpl. split; [done|].
        apply dict_get_pair in E. destruct (Hmemo _ _ E) as (H1 & H2 & H3).
        by rewrite !lookup_app_l.
    + destruct (h !! r) as [stack|] eqn:Hr; [|done]. simpl in H.
      destruct (deepcopy rest ((r, length h) :: memo) (h ++ [stack]))
        as [[rest' h1]| |] eqn:D; [|done|done].
      simpl in H. injection H as <- <-.
      assert (Hlt : r < length h) by (by eapply lookup_lt_Some).
      assert (Hmemo' : memo_ok ((r, length h) :: memo) (h ++ [stack])).
      { intros x x' Hin. apply elem_of_cons in Hin as [Heq|Hin].
        - injection Heq as -> ->. rewrite length_app. simpl.
          split; [lia|]. split; [lia|].
          rewrite (lookup_app_l h [stack] r) by done. rewrite Hr.
          by rewrite list_lookup_middle.
        - by apply (memo_ok_app memo h [stack] Hmemo). }
      destruct (IH _ _ _ _ D Hmemo') as ([more ->] & Hfresh & Hcopy).
      split; [exists ([stack] ++ more); by rewrite app_assoc|]. split.
      * simpl. intros x Hx. apply elem_of_cons in Hx as [->|Hx]; [left; lia|].
        destruct (Hfresh x Hx) as [Hl|Hm].
        -- left. rewrite length_app in Hl. simpl in Hl. lia.
        -- simpl in Hm. apply elem_of_cons in Hm as [->|Hm]; [by left|by right].
      * constructor.
        -- simpl. split; [done|]. rewrite <- app_assoc. simpl.
           rewrite (lookup_app_l h _ r) by done. rewrite Hr.
           by rewrite list_lookup_middle.
        -- exact Hcopy.
Qed.

Lemma preserves_fold_left {A} (f : A -> M BaseType) l : forall m0,
  preserves strict m0 -> (forall x, preserves strict (f x)) ->
  preserves strict (fold_left (fun m x => m;; f x) l m0).
Proof.
  induction l as [|x l IH]; intros m0 H0 Hf; simpl; [done|].
  apply IH; [|done]. apply preserves_bind; [done|]. intros _. apply Hf.
Qed.

Lemma execute_unexecuted_code_inv self code parent h parent' h' :
  execute_unexecuted_code self code (parent, h) = Ok (tt, (parent', h')) ->
  exists tokens namespaces h1 mission out child',
    py.dict_in (str code) (_unexecuted_codes parent) = true
    /\ code_tokens code = Some tokens
    /\ deepcopy (_namespaces parent) [] (snd (new_Analyzer h)) = Ok (namespaces, h1)
    /\ py.dict_get namespaces "missionnamespace" = Some mission
    /\ self_execute_code self (File tokens) None None
         (set_current_namespace mission
            (set_namespaces namespaces (fst (new_Analyzer h))), h1)
       = Ok (out, (child', h'))
    /\ parent' = set_exceptions (exceptions parent ++ exceptions child') parent.
Proof.
  intros H. unfold execute_unexecuted_code in H.
  apply bind_inv in H as (codes & s1 & [= <- <-] & H). simpl in H.
  destruct (py.dict_in (str code) (_unexecuted_codes parent)) eqn:Hin; [|done].
  simpl in H.
  destruct (deepcopy _ _ _) as [[namespaces h1]| |] eqn:D; [|done|done].
  simpl in H.
  destruct (py.dict_get namespaces "missionnamespace") as [mission|] eqn:Hm; [|done].
  simpl in H.
  destruct (code_tokens code) as [tokens|] eqn:Ht; [|done]. simpl in H.
  destruct (self_execute_code self (File tokens) None None _)
    as [[out [child' h2]]| |] eqn:Hrun; [|done|done].
  simpl in H. injection H as <- <-.
  exists tokens, namespaces, h1, mission, out, child'. done.
Qed.

Lemma new_Analyzer_store h :
  snd (new_Analyzer h) = h ++ map (fun _ => [mk_Scope 0 ∅]) namespace_names.
Proof. reflexivity. Qed.

(** The child analysis leaves every namespace object that existed before
    as it was. *)
Lemma execute_unexecuted_code_frame self code parent h parent' h' :
  (forall c p e, preserves strict (self_execute_code self c p e)) ->
  execute_unexecuted_code self code (parent, h) = Ok (tt, (parent', h')) ->
  length h <= length h' /\ forall r, r < length h -> h' !! r = h !! r.
Proof.
  intros Hself H.
  apply execute_unexecuted_code_inv in H
    as (tokens & namespaces & h1 & mission & out & child' & _ & _ & D & Hm & Hrun & _).
  destruct (deepcopy_spec _ _ _ _ _ D) as ([more Hh1] & Hfresh & _).
  { intros r r' Hin. by apply elem_of_nil in Hin. }
  rewrite new_Analyzer_store in Hh1.
  apply Hself in Hrun. destruct Hrun as [_ _ Hlen Hframe _ _ _]. simpl in *.
  assert (Hl1 : length h <= length h1).
  { rewrite Hh1, !length_app. lia. }
  split; [lia|]. intros r Hr. rewrite Hframe.
  - rewrite Hh1, <- app_assoc. by apply lookup_app_l.
  - lia.
  - unfold footprint. simpl. intros Hin.
    assert (Hr' : r ∈ map snd namespaces).
    { apply elem_of_cons in Hin as [->|Hin]; [by eapply dict_get_elem|done]. }
    destruct (Hfresh r Hr') as [Hge|Hnil].
    + rewrite ?new_Analyzer_store in Hge. rewrite length_app in Hge. lia.
    + by apply elem_of_nil in Hnil.
Qed.

Lemma preserves_execute_unexecuted_code self code :
  (forall c p e, preserves strict (self_execute_code self c p e)) ->
  preserves strict (execute_unexecuted_code self code).
Proof.
  intros Hself [parent h] [] [parent' h'] H.
  destruct (execute_unexecuted_code_frame _ _ _ _ _ _ Hself H) as [Hlen Hframe].
  apply execute_unexecuted_code_inv in H
    as (tokens & namespaces & h1 & mission & out & child' & _ & _ & _ & _ & _ & ->).
  split; simpl; auto. by eexists.
Qed.

Section methods_preserve.
Variable PREPROCESSORS : list string.
Variable db : list BaseType -> list Expression.
Hypothesis Hdb : database_preserves strict db.

Ltac use_self :=
  match goal with
  | H : forall t ns, preserves strict (self_value _ t ns) |- _ => apply H
  | H : forall t, preserves strict (self_execute_token _ t) |- _ => apply H
  | H : forall t, preserves strict (self_execute_single _ t) |- _ => apply H
  | H : forall c p e, preserves strict (self_execute_code _ c p e) |- _ => apply H
  end.

Ltac pres :=
  repeat first
    [ apply preserves_ret | apply preserves_raise | apply preserves_lift
    | apply preserves_gets | apply preserves_exception
    | apply preserves_track_code | apply preserves_mark_executed
    | apply preserves_get_scope | apply preserves_scope_get
    | apply preserves_scope_level | apply preserves_add_scope
    | apply preserves_del_scope | apply preserves_add_privates
    | apply preserves_assign | apply preserves_append_private
    | apply preserves_set_privates; assumption
    | apply preserves_set_unevaluated
    | apply preserves_modify_unevaluated | apply preserves_modify_defines
    | use_self
    | apply preserves_bind; [|intros ?]
    | apply preserves_mapM; intros ?
    | apply preserves_forM_; intros ?
    | match goal with
      | |- preserves strict (match ?x with _ => _ end) => destruct x
      | |- preserves strict (let '(_, _) := ?x in _) => destruct x
      end ].

Lemma preserves_value self token ns :
  self_preserves strict self -> preserves strict (value db self token ns).
Proof.
  intros Hself. pose proof Hself as (Hv & Ht & Hs & Hc). unfold value.
  apply preserves_bind; [|intros ?; pres].
  destruct (is_Statement token); [pres|].
  destruct (db [token]) as [|e l] eqn:E.
  - destruct token; pres.
  - assert (He : preserves strict (execute e [token] self)).
    { eapply Hdb; [|done]. rewrite E. by left. }
    destruct token; pres; done.
Qed.

Lemma preserves_execute_token self token :
  self_preserves strict self -> preserves strict (execute_token self token).
Proof.
  intros (Hv & Ht & Hs & Hc). unfold execute_token. pres.
Qed.

Lemma preserves_base_execute_code self code params extra :
  self_preserves strict self -> preserves strict (base_execute_code self code params extra).
Proof.
  intros (Hv & Ht & Hs & Hc). unfold base_execute_code.
  destruct (code_tokens code); [|pres].
  apply preserves_bind; [pres|intros _].
  apply preserves_bind; [|intros ?; pres].
  apply preserves_fold_left; [pres|]. intros x. pres.
Qed.

Lemma preserves_end_of_file self :
  self_preserves strict self -> preserves strict (end_of_file self).
Proof.
  intros (Hv & Ht & Hs & Hc). unfold end_of_file.
  apply preserves_bind; [pres|intros codes].
  apply preserves_bind.
  { unfold execute_unexecuted_codes. apply preserves_forM_. intros [k code].
    by apply preserves_execute_unexecuted_code. }
  intros _. pres.
Qed.

Lemma preserves_execute_code self code params extra :
  self_preserves strict self -> preserves strict (execute_code self code params extra).
Proof.
  intros Hself. unfold execute_code.
  apply preserves_bind; [apply preserves_mark_executed|intros _].
  apply preserves_bind; [by apply preserves_base_execute_code|intros outcome].
  apply preserves_bind; [|intros ?; apply preserves_ret].
  destruct (is_File code); [by apply preserves_end_of_file|apply preserves_ret].
Qed.

Lemma preserves_execute_define bt : preserves strict (execute_define bt).
Proof. unfold execute_define. pres. Qed.

Lemma preserves_execute_include bt : preserves strict (execute_include bt).
Proof. unfold execute_include. pres. Qed.

Lemma preserves_execute_private self b1 :
  self_preserves strict self -> preserves strict (execute_private self b1).
Proof. intros (Hv & Ht & Hs & Hc). unfold execute_private. pres. Qed.

Lemma preserves_execute_assignment self ending b0 b2 :
  strict = false ->
  self_preserves strict self -> preserves strict (execute_assignment self ending b0 b2).
Proof. intros Hstrict (Hv & Ht & Hs & Hc). unfold execute_assignment. pres. Qed.

Lemma preserves_execute_general self statement ending bt :
  self_preserves strict self -> preserves strict (execute_general db self statement ending bt).
Proof.
  intros Hself. pose proof Hself as (Hv & Ht & Hs & Hc). unfold execute_general.
  apply preserves_bind; [pres|intros pairs].
  apply preserves_bind; [|intros ?; pres].
  destruct (List.find _ _) as [case_found|] eqn:Hfind.
  - apply find_some in Hfind as [Hin _]. apply list_elem_of_In in Hin.
    apply preserves_bind.
    { destruct (is_match case_found _); [by eapply Hdb|]. pres. }
    intros outcome. pres.
  - pres.
Qed.

Lemma preserves_execute_single self statement :
  strict = false ->
  self_preserves strict self -> preserves strict (execute_single PREPROCESSORS db self statement).
Proof.
  intros Hstrict Hself. pose proof Hself as (Hv & Ht & Hs & Hc). unfold execute_single.
  destruct (statement_parts statement) as [[[tokens ending] p]|]; [|pres].
  apply preserves_bind; [pres|intros ds].
  destruct (base_tokens tokens) as [|b0 rest]; [pres|].
  destruct (token_eqb b0 (Keyword "#define")); [apply preserves_execute_define|].
  destruct (token_eqb b0 (Keyword "#include")); [apply preserves_execute_include|].
  destruct (_ && _); [pres|].
  destruct rest as [|b1 [|b2 [|b3 rest]]].
  - destruct b0; first [use_self | by apply preserves_execute_general].
  - destruct (token_eqb b0 _); [by apply preserves_execute_private|].
    destruct (looks_like_define _ _ _); [pres|by apply preserves_execute_general].
  - destruct (token_eqb b1 _);
      [by apply preserves_execute_assignment|by apply preserves_execute_general].
  - by apply preserves_execute_general.
Qed.

(** [execute_single] on a statement that is not an assignment. *)
Lemma preserves_execute_single_other self statement :
  is_assignment statement = false ->
  self_preserves strict self ->
  preserves strict (execute_single PREPROCESSORS db self statement).
Proof.
  intros Hna Hself. pose proof Hself as (Hv & Ht & Hs & Hc).
  unfold execute_single. unfold is_assignment in Hna.
  destruct (statement_parts statement) as [[[tokens ending] p]|]; [|pres].
  apply preserves_bind; [pres|intros ds].
  destruct (base_tokens tokens) as [|b0 rest]; [pres|].
  destruct (token_eqb b0 (Keyword "#define")); [apply preserves_execute_define|].
  destruct (token_eqb b0 (Keyword "#include")); [apply preserves_execute_include|].
  destruct (_ && _); [pres|].
  destruct rest as [|b1 [|b2 [|b3 rest]]].
  - destruct b0; first [use_self | by apply preserves_execute_general].
  - destruct (token_eqb b0 _); [by apply preserves_execute_private|].
    destruct (looks_like_define _ _ _); [pres|by apply preserves_execute_general].
  - rewrite Hna. by apply preserves_execute_general.
  - by apply preserves_execute_general.
Qed.

Lemma methods_preserve fuel :
  strict = false -> self_preserves strict (methods PREPROCESSORS db fuel).
Proof.
  intros Hstrict. induction fuel as [|fuel IH]; simpl.
  - split; [|split; [|split]]; intros; apply preserves_out_of_fuel.
  - split; [|split; [|split]]; intros.
    + by apply preserves_value.
    + by apply preserves_execute_token.
    + by apply preserves_execute_single.
    + by apply preserves_execute_code.
Qed.

End methods_preserve.

End invariant.

(** ** Assignments, declarations and tracked code *)

Lemma bind_ok {A B} (m : M A) (f : A -> M B) s a s1 :
  m s = Ok (a, s1) -> (m ≫= f) s = f a s1.
Proof. intros H. unfold mbind, M_bind. by rewrite H. Qed.

Lemma assign_spec name rhs_v a h stack sc v :
  h !! _current_namespace a = Some stack ->
  stack !! scope_index name stack = Some sc ->
  instantiate (widen (type_of (default Nothing (values sc !! name)))
                 (type_of rhs_v)) = Ok v ->
  assign name rhs_v (a, h)
  = Ok (tt, (warn_if (Nat.eqb (level sc) 0 && negb (is_global name))
                (outer_scope name) a,
             <[_current_namespace a :=
                 <[scope_index name stack := record name v sc]> stack]> h)).
Proof.
  intros Hh Hsc Hv.
  assert (Hgs : get_scope name None (a, h)
                = Ok ((_current_namespace a, scope_index name stack), (a, h))).
  { unfold get_scope. rewrite (bind_ok _ _ _ (_current_namespace a) (a, h)) by done.
    rewrite (bind_ok _ _ _ stack (a, h)) by (unfold read_namespace; simpl; by rewrite Hh).
    destruct stack; [by rewrite lookup_nil in Hsc|done]. }
  assert (Hrs : forall h', h' !! _current_namespace a = Some stack ->
            read_scope (_current_namespace a, scope_index name stack) (a, h')
            = Ok (sc, (a, h'))).
  { intros h' Hh'. unfold read_scope.
    rewrite (bind_ok _ _ _ stack (a, h')) by (unfold read_namespace; simpl; by rewrite Hh').
    simpl. by rewrite Hsc. }
  unfold assign. rewrite (bind_ok _ _ _ _ _ Hgs).
  rewrite (bind_ok _ _ _ (default Nothing (values sc !! name)) (a, h)).
  2:{ unfold scope_get. by rewrite (bind_ok _ _ _ _ _ (Hrs h Hh)). }
  rewrite (bind_ok _ _ _ v (a, h)) by (unfold lift; by rewrite Hv).
  set (h' := <[_current_namespace a :=
                 <[scope_index name stack := record name v sc]> stack]> h).
  rewrite (bind_ok _ _ _ tt (a, h')).
  2:{ unfold scope_set. simpl fst. simpl snd.
      rewrite (bind_ok _ _ _ stack (a, h)) by (unfold read_namespace; simpl; by rewrite Hh).
      rewrite (bind_ok _ _ _ sc (a, h)) by (unfold lift; simpl; by rewrite Hsc).
      reflexivity. }
  assert (Hlv : scope_level (_current_namespace a, scope_index name stack) (a, h')
                = Ok (level sc, (a, h'))).
  { unfold scope_level, read_scope.
    assert (Hh' : h' !! _current_namespace a
                  = Some (<[scope_index name stack := record name v sc]> stack)).
    { unfold h'. apply list_lookup_insert_eq. by eapply lookup_lt_Some. }
    rewrite (bind_ok _ _ _ (record name v sc) (a, h')); [done|].
    rewrite (bind_ok _ _ _ _ (a, h'))
      by (unfold read_namespace; simpl; by rewrite Hh').
    simpl. rewrite list_lookup_insert_eq by (by eapply lookup_lt_Some). done. }
  rewrite (bind_ok _ _ _ _ _ Hlv). simpl level.
  unfold warn_if. by destruct (_ && _).
Qed.

Section assignment.
Variable PREPROCESSORS : list string.
Variable db : list BaseType -> list Expression.

(** An assignment statement to the variable [name] runs the value of the
    right side and then [assign]. *)
Lemma execute_single_assignment fuel statement tokens ending p name b2 s rhs_v s1 :
  statement_parts statement = Some (tokens, ending, p) ->
  base_tokens tokens = [Variable_ name; Keyword "="; b2] ->
  defines (fst s) !! name = None ->
  self_value (methods PREPROCESSORS db (S fuel)) b2 None s = Ok (rhs_v, s1) ->
  self_execute_single (methods PREPROCESSORS db (S (S fuel))) statement s
  = (assign name rhs_v;;
     mret (if String.eqb ending "" then rhs_v else Nothing)) s1.
Proof.
  intros Hparts Hbase Hdef Hval.
  change (self_execute_single (methods PREPROCESSORS db (S (S fuel))) statement)
    with (execute_single PREPROCESSORS db (methods PREPROCESSORS db (S fuel)) statement).
  unfold execute_single. rewrite Hparts.
  rewrite (bind_ok _ _ _ (defines (fst s)) s) by done. rewrite Hbase.
  change (token_eqb (Variable_ name) (Keyword "#define")) with false.
  change (token_eqb (Variable_ name) (Keyword "#include")) with false.
  change (is_Keyword (Variable_ name)) with false. rewrite andb_false_l.
  change (token_eqb (Keyword "=") (Keyword "=")) with true. cbv iota.
  unfold execute_assignment.
  rewrite (bind_ok _ _ _ (Variable_ name) s).
  2:{ change (self_execute_token (methods PREPROCESSORS db (S fuel)) (Variable_ name))
        with (execute_token (methods PREPROCESSORS db fuel) (Variable_ name)).
      unfold execute_token. change (is_Statement (Variable_ name)) with false.
      cbv iota.
      rewrite (bind_ok _ _ _ (defines (fst s)) s) by done.
      cbv beta. change (str (Variable_ name)) with name. by rewrite Hdef. }
  rewrite (bind_ok _ _ _ (Variable_ name) s) by done.
  rewrite (bind_ok _ _ _ _ _ Hval). reflexivity.
Qed.

End assignment.

Lemma widen_conflict lhs_t rhs_t :
  lhs_t <> "Nothing" -> lhs_t <> rhs_t -> widen lhs_t rhs_t = "Nothing".
Proof.
  intros H1 H2. unfold widen.
  apply String.eqb_neq in H1, H2. by rewrite H1, H2.
Qed.

Lemma widen_agree lhs_t rhs_t :
  lhs_t = "Nothing" \/ lhs_t = rhs_t -> widen lhs_t rhs_t = rhs_t.
Proof.
  intros [->| ->]; unfold widen; [done|].
  rewrite (String.eqb_refl rhs_t). by rewrite andb_false_r.
Qed.

Lemma instantiate_type cls v : instantiate cls = Ok v -> type_of v = cls.
Proof.
  unfold instantiate.
  repeat match goal with
         | |- context [String.eqb cls ?x] =>
             destruct (String.eqb cls x) eqn:?;
             [intros [= <-]; simpl; symmetry; by apply String.eqb_eq|]
         end.
  done.
Qed.

Lemma rev_seq_S n : rev (seq 1 (S n)) = S n :: rev (seq 1 n).
Proof. rewrite seq_S, rev_app_distr. reflexivity. Qed.

(** A local name recorded in the current scope resolves to it. *)
Lemma scope_index_current name front cur :
  is_global name = false -> front <> [] -> is_Some (values cur !! name) ->
  scope_index name (front ++ [cur]) = length front
  /\ (front ++ [cur]) !! scope_index name (front ++ [cur]) = Some cur.
Proof.
  intros Hl Hf Hn.
  assert (Hi : scope_index name (front ++ [cur]) = length front).
  { unfold scope_index. rewrite Hl. rewrite length_app. simpl.
    replace (length front + 1 - 1) with (length front) by lia.
    destruct (length front) as [|m] eqn:Hlen;
      [by destruct front|].
    rewrite rev_seq_S. simpl List.find.
    unfold has_name at 1. rewrite <- Hlen.
    rewrite list_lookup_middle by done.
    by rewrite bool_decide_eq_true_2. }
  split; [done|]. rewrite Hi. by apply list_lookup_middle.
Qed.

Section claims.
Variable PREPROCESSORS : list string.
Variable db : list BaseType -> list Expression.

Abbreviation run fuel :=
  (self_execute_single (methods PREPROCESSORS db (S (S fuel)))).



Lemma forM_exception {A} (f : A -> exceptions.exception) l a h :
  forM_ l (fun x => exception (f x)) (a, h)
  = Ok (tt, (set_exceptions (exceptions a ++ map f l) a, h)).
Proof.
  revert a. induction l as [|x l IH]; intros a; simpl.
  - rewrite app_nil_r. by destruct a.
  - rewrite (bind_ok _ _ _ tt (set_exceptions (exceptions a ++ [f x]) a, h)) by done.
    rewrite IH. simpl. by rewrite <- app_assoc.
Qed.

(** At the end of the file, every pending placeholder is reported. *)
Lemma end_of_file_reports self a h a1 h1 :
  execute_unexecuted_codes self (_unexecuted_codes a) (a, h)
  = Ok (tt, (a1, h1)) ->
  end_of_file self (a, h)
  = Ok (tt, (set_exceptions
               (exceptions a1 ++ map (fun _ => private_not_string) (privates a1)
                ++ map helper_not_evaluated (unevaluated_interpreter_tokens a1))
               a1, h1)).
Proof.
  intros Hloop. unfold end_of_file.
  rewrite (bind_ok _ _ _ (_unexecuted_codes a) (a, h)) by done.
  rewrite (bind_ok _ _ _ _ _ Hloop).
  rewrite (bind_ok _ _ _ (privates a1) (a1, h1)) by done.
  rewrite (bind_ok _ _ _ _ _ (forM_exception _ _ _ _)).
  rewrite (bind_ok _ _ _ (unevaluated_interpreter_tokens a1) _) by done.
  rewrite forM_exception. simpl. by rewrite app_assoc.
Qed.

Lemma unexecuted_loop_fields self codes : forall a h a1 h1,
  execute_unexecuted_codes self codes (a, h) = Ok (tt, (a1, h1)) ->
  privates a1 = privates a
  /\ unevaluated_interpreter_tokens a1 = unevaluated_interpreter_tokens a
  /\ _unexecuted_codes a1 = _unexecuted_codes a
  /\ _executed_codes a1 = _executed_codes a
  /\ _namespaces a1 = _namespaces a
  /\ _current_namespace a1 = _current_namespace a
  /\ defines a1 = defines a.
Proof.
  unfold execute_unexecuted_codes.
  induction codes as [|[k code] codes IH]; intros a h a1 h1 H; simpl in H.
  - by injection H as <- <-.
  - apply bind_inv in H as ([] & [a2 h2] & H1 & H2).
    apply execute_unexecuted_code_inv in H1
      as (? & ? & ? & ? & ? & child & _ & _ & _ & _ & _ & ->).
    apply IH in H2 as (-> & -> & -> & -> & -> & -> & ->). done.
Qed.

(** A [private] statement on a variable queues a placeholder. *)
Lemma execute_single_private fuel statement tokens ending p v a h stack :
  statement_parts statement = Some (tokens, ending, p) ->
  base_tokens tokens = [Keyword "private"; Variable_ v] ->
  "private" ∉ PREPROCESSORS ->
  defines a !! v = None ->
  h !! _current_namespace a = Some stack -> stack <> [] ->
  exists h',
    run fuel statement (a, h)
    = Ok (PrivateType (Variable_ v),
          (set_privates (privates a ++ [PrivateType (Variable_ v)]) a, h')).
Proof.
  intros Hparts Hbase Hpp Hdef Hh Hne.
  change (run fuel statement)
    with (execute_single PREPROCESSORS db (methods PREPROCESSORS db (S fuel)) statement).
  unfold execute_single. rewrite Hparts.
  rewrite (bind_ok _ _ _ (defines a) (a, h)) by done. rewrite Hbase.
  change (token_eqb (Keyword "private") (Keyword "#define")) with false.
  change (token_eqb (Keyword "private") (Keyword "#include")) with false.
  change (keyword_value (Keyword "private")) with "private".
  rewrite (bool_decide_eq_false_2 _ Hpp). rewrite andb_false_r.
  change (token_eqb (Keyword "private") (Keyword "private")) with true. cbv iota.
  unfold execute_private.
  rewrite (bind_ok _ _ _ (Variable_ v) (a, h)).
  2:{ change (self_execute_token (methods PREPROCESSORS db (S fuel)) (Variable_ v))
        with (execute_token (methods PREPROCESSORS db fuel) (Variable_ v)).
      unfold execute_token. change (is_Statement (Variable_ v)) with false.
      cbv iota. rewrite (bind_ok _ _ _ (defines a) (a, h)) by done.
      cbv beta. change (str (Variable_ v)) with v. by rewrite Hdef. }
  cbv iota.
  assert (Hlast : is_Some (stack !! (length stack - 1))).
  { apply lookup_lt_is_Some. destruct stack; [done|simpl; lia]. }
  destruct Hlast as [last Hlast].
  eexists.
  erewrite (bind_ok _ _ _ tt).
  2:{ unfold add_privates. simpl forM_. simpl string_value. cbv iota.
      erewrite (bind_ok _ _ _ tt); [reflexivity|].
      erewrite (bind_ok _ _ _ (_current_namespace a, length stack - 1) (a, h)).
      2:{ unfold current_scope.
          rewrite (bind_ok _ _ _ (_current_namespace a) (a, h)) by done.
          rewrite (bind_ok _ _ _ stack (a, h))
            by (unfold read_namespace; simpl; by rewrite Hh).
          by destruct stack. }
      unfold scope_set. simpl fst. simpl snd.
      rewrite (bind_ok _ _ _ stack (a, h))
        by (unfold read_namespace; simpl; by rewrite Hh).
      rewrite (bind_ok _ _ _ last (a, h)) by (unfold lift; by rewrite Hlast).
      reflexivity. }
  reflexivity.
Qed.

(** The bookkeeping of [value]: a code that [value] returns is in the
    unexecuted set. *)
Lemma value_tracks self token ns s r s' :
  value db self token ns s = Ok (r, s') ->
  is_Code r = true -> str r ∈ keys (_unexecuted_codes (fst s')).
Proof.
  intros H Hc. unfold value in H.
  apply bind_inv in H as (result & s1 & _ & H).
  apply bind_inv in H as ([] & s2 & H & [= -> ->]).
  unfold track_code in H.
  apply bind_inv in H as (codes & s3 & [= <- <-] & H).
  rewrite Hc in H. simpl in H.
  destruct (py.dict_in (str r) (_unexecuted_codes (fst s1))) eqn:E; simpl in H.
  - injection H as <-. by apply dict_in_keys.
  - injection H as <-. simpl. apply keys_dict_set. by left.
Qed.

Lemma mark_executed_spec code a h :
  exists a', mark_executed code (a, h) = Ok (tt, (a', h))
    /\ (str code ∉ keys (_unexecuted_codes a'))
    /\ str code ∈ keys (_executed_codes a').
Proof.
  unfold mark_executed. eexists. split; [reflexivity|]. simpl. split.
  - destruct (py.dict_in (str code) (_unexecuted_codes a)) eqn:E; simpl.
    + apply keys_dict_del_gone.
    + intros Hin. apply dict_in_keys in Hin. congruence.
  - destruct (py.dict_in _ _); simpl; apply keys_dict_set; by left.
Qed.

End claims.

(** ** Deferred code *)

Lemma Forall2_and_r {A B} (P : A -> B -> Prop) (Q : B -> Prop) l l' :
  Forall2 P l l' -> (forall y, y ∈ l' -> Q y) ->
  Forall2 (fun x y => P x y /\ Q y) l l'.
Proof.
  induction 1 as [|x y l l' Hxy Hl IH]; intros HQ; constructor.
  - split; [done|]. apply HQ. by left.
  - apply IH. intros z Hz. apply HQ. by right.
Qed.

Lemma Forall2_and_l {A B} (P : A -> B -> Prop) (Q : A -> Prop) l l' :
  Forall2 P l l' -> (forall x, x ∈ l -> Q x) ->
  Forall2 (fun x y => P x y /\ Q x) l l'.
Proof.
  induction 1 as [|x y l l' Hxy Hl IH]; intros HQ; constructor.
  - split; [done|]. apply HQ. by left.
  - apply IH. intros z Hz. apply HQ. by right.
Qed.

Lemma valid_refs_spec a h r :
  valid_refs (a, h) = true -> r ∈ footprint a -> r < length h.
Proof.
  unfold valid_refs. rewrite forallb_forall. intros H Hr.
  apply Nat.ltb_lt, H. by apply list_elem_of_In.
Qed.

Section isolation.
Variable PREPROCESSORS : list string.
Variable db : list BaseType -> list Expression.
Hypothesis Hdb : database_preserves false db.

Lemma unexecuted_codes_frame fuel codes : forall a h a1 h1,
  execute_unexecuted_codes (methods PREPROCESSORS db fuel) codes (a, h)
  = Ok (tt, (a1, h1)) ->
  length h <= length h1 /\ forall r, r < length h -> h1 !! r = h !! r.
Proof.
  unfold execute_unexecuted_codes.
  induction codes as [|[k code] codes IH]; intros a h a1 h1 H; simpl in H.
  - injection H as <- <-. done.
  - apply bind_inv in H as ([] & [a2 h2] & H1 & H2).
    apply (execute_unexecuted_code_frame false) in H1 as [Hl1 Hf1].
    2:{ apply (methods_preserve false PREPROCESSORS db Hdb fuel eq_refl). }
    apply IH in H2 as [Hl2 Hf2]. split; [lia|].
    intros r Hr. rewrite Hf2 by lia. by apply Hf1.
Qed.


End isolation.

Lemma call_database_preserves strict : database_preserves strict call_database.
Proof.
  intros values e He args self _. unfold call_database in He.
  assert (e = call_expression) as ->.
  { repeat (case_match; try by apply elem_of_nil in He).
    all: by apply list_elem_of_singleton in He. }
  apply preserves_ret.
Qed.


(** ** Macros *)
Section extensionality.
Variable PP : list string.
Variables at1 at2 : list BaseType -> BaseType.
Variables aa1 aa2 : list BaseType -> list BaseType -> result (list BaseType).
Hypothesis Hat : forall l, at1 l = at2 l.
Hypothesis Haa : forall a b, aa1 a b = aa2 a b.

Lemma block_end_ext all start lvls defines i st tk :
  block_end PP at1 all start lvls defines i st tk
  = block_end PP at2 all start lvls defines i st tk.
Proof. unfold block_end. by rewrite Hat. Qed.

Ltac ext_step Hself :=
  first
    [ reflexivity
    | rewrite Hself
    | match goal with
      | |- context [at1 ?x] => rewrite (Hat x)
      | |- context [aa1 ?x ?y] => rewrite (Haa x y)
      end
    | match goal with
      | |- match ?x with _ => _ end = match ?x with _ => _ end => destruct x
      | |- (if ?x then _ else _) = (if ?x then _ else _) => destruct x
      | |- (let '(_, _) := ?x in _) = (let '(_, _) := ?x in _) => destruct x
      end ].

Lemma parse_turn_ext self1 self2 all start lvls stop defines i st tk :
  (forall all start lvls stop defines i st tk,
     self1 all start lvls stop defines i st tk
     = self2 all start lvls stop defines i st tk) ->
  parse_turn PP at1 aa1 self1 all start lvls stop defines i st tk
  = parse_turn PP at2 aa2 self2 all start lvls stop defines i st tk.
Proof.
  intros Hself. unfold parse_turn.
  destruct (negb (i <? py.len all)%Z); [apply block_end_ext|].
  unfold mbind, result_bind.
  repeat ext_step Hself.
Qed.

Lemma parse_loop_ext fuel : forall all start lvls stop defines i st tk,
  parse_loop PP at1 aa1 fuel all start lvls stop defines i st tk
  = parse_loop PP at2 aa2 fuel all start lvls stop defines i st tk.
Proof.
  induction fuel as [|fuel IH]; intros; simpl; [done|].
  by apply parse_turn_ext.
Qed.

End extensionality.

Lemma flatten3_eq pe : flat3 pe -> forall l, pe l = flatten3 pe l.
Proof.
  intros Hflat l. unfold flatten3.
  destruct (Nat.eqb _ 3) eqn:E; [|done]. apply Hflat. by apply Nat.eqb_eq.
Qed.

Lemma _analyze_tokens_flatten pe :
  flat3 pe -> forall l, _analyze_tokens pe l = _analyze_tokens (flatten3 pe) l.
Proof.
  intros Hflat l. unfold _analyze_tokens.
  destruct (last l) as [t|]; [destruct (is_separator t)|];
    by rewrite (flatten3_eq pe Hflat).
Qed.

Lemma _analyze_array_loop_flatten pe tu :
  flat3 pe -> forall l r p f,
  _analyze_array_loop pe tu l r p f = _analyze_array_loop (flatten3 pe) tu l r p f.
Proof.
  intros Hflat. induction l as [|t l IH]; intros r p f; simpl; [done|].
  destruct (token_eqb t (Keyword ",")); [|apply IH].
  destruct p; [done|]. rewrite (_analyze_tokens_flatten pe Hflat). apply IH.
Qed.

Lemma _analyze_array_tokens_flatten pe :
  flat3 pe -> forall l tu,
  _analyze_array_tokens pe l tu = _analyze_array_tokens (flatten3 pe) l tu.
Proof.
  intros Hflat l tu. unfold _analyze_array_tokens.
  rewrite (_analyze_array_loop_flatten pe tu Hflat).
  destruct (_analyze_array_loop _ _ _ _ _ _) as [[[r p] f]| |]; [|done|done].
  destruct (_ && _); [done|]. destruct l; [done|].
  by rewrite (_analyze_tokens_flatten pe Hflat).
Qed.

Lemma parse_flatten PP pe fuel tokens :
  flat3 pe -> parse PP pe fuel tokens = parse PP (flatten3 pe) fuel tokens.
Proof.
  intros Hflat. unfold parse, parse_block.
  rewrite (parse_loop_ext PP (_analyze_tokens pe) (_analyze_tokens (flatten3 pe))
             (_analyze_array_tokens pe) (_analyze_array_tokens (flatten3 pe))
             (_analyze_tokens_flatten pe Hflat)
             (_analyze_array_tokens_flatten pe Hflat)).
  reflexivity.
Qed.


Lemma flat_exp_flat3 : flat3 flat_exp.
Proof. intros l _. reflexivity. Qed.


(** ** Brackets *)
Lemma slice_to_app {A} (l r : list A) : py.slice_to (l ++ r) (py.len l) = l.
Proof.
  unfold py.slice_to, py.clamp, py.len.
  destruct (Z.of_nat (length l) <? 0)%Z eqn:E; [apply Z.ltb_lt in E; lia|].
  rewrite length_app.
  replace (Z.to_nat _) with (length l) by lia.
  by rewrite take_app_length.
Qed.

Lemma _analyze_array_tokens_outcome pe a b :
  (exists l, _analyze_array_tokens pe a b = Ok l)
  \/ parser_error (_analyze_array_tokens pe a b).
Proof.
  unfold _analyze_array_tokens.
  destruct (_analyze_array_loop_outcome pe b a [] [] false) as [->|(r & p & f & ->)].
  - right. by eexists.
  - destruct (_ && _); [right; by eexists|]. left. destruct a; eauto.
Qed.

Section brackets.
Variable PP : list string.
Variable parse_exp : list BaseType -> BaseType.
Hypothesis brackets_not_directives : forall k, k ∈ brackets -> k ∉ PP.

Abbreviation top fuel tokens :=
  (parse_loop PP (_analyze_tokens parse_exp) (_analyze_array_tokens parse_exp)
     fuel (tokens ++ [EndOfFile]) 0 (zero_lvls PP) both ∅ 0 [] []).

Lemma parse_top fuel tokens :
  parse PP parse_exp fuel tokens
  = '(result, _, _) ← top fuel tokens; Ok result.
Proof. reflexivity. Qed.


End brackets.

Lemma keywords_brackets k : k ∈ brackets -> k ∉ keywords.PREPROCESSORS.
Proof.
  unfold brackets, keywords.PREPROCESSORS. intros Hk Hp.
  repeat (apply elem_of_cons in Hk as [->|Hk];
          [repeat (apply elem_of_cons in Hp as [Hp|Hp]; [discriminate Hp|]);
           by apply elem_of_nil in Hp|]).
  by apply elem_of_nil in Hk.
Qed.


(** A round bracket closed by a square one is accepted: only the counter
    of the closing kind is looked at. *)
Example crossed_brackets_accepted :
  parse keywords.PREPROCESSORS flat_exp 10 crossed_brackets
  = Ok (Statement
          [Statement [Array (Some [Statement [Array (Some [])] "" false])] "" false]
          "" false).
Proof. vm_compute. reflexivity. Qed.


(** ** Concrete runs and the remaining properties *)






(** C9, counterexample: after [call {a;}; x = {a;};] the code [{a;}] is
    tracked both as unexecuted and as executed. *)
Lemma code_tracked_twice :
  exists a h,
    analyze keywords.PREPROCESSORS call_database 10 code_twice_program None
    = Ok (a, h)
    /\ "{a;}" ∈ keys (_unexecuted_codes a)
    /\ "{a;}" ∈ keys (_executed_codes a).
Proof.
  eexists _, _. split; [vm_compute; reflexivity|].
  split; simpl; repeat constructor.
Qed.

(** C9 (as amended): a code that [value] returns is in the unexecuted
    set under its string form; executing a code removes its key from the
    unexecuted set and records it as executed; a recorded execution is
    never forgotten, and a key of the unexecuted set stays there or is
    recorded as executed by whatever statement runs next. *)
Theorem code_tracking PREPROCESSORS db (Hdb : database_preserves false db) :
  (forall self token ns s r s',
     value db self token ns s = Ok (r, s') -> is_Code r = true ->
     str r ∈ keys (_unexecuted_codes (fst s')))
  /\ (forall code a h,
        exists a', mark_executed code (a, h) = Ok (tt, (a', h))
          /\ (str code ∉ keys (_unexecuted_codes a'))
          /\ str code ∈ keys (_executed_codes a'))
  /\ (forall fuel code params extra s r s',
        self_execute_code (methods PREPROCESSORS db fuel) code params extra s
        = Ok (r, s') ->
        str code ∈ keys (_executed_codes (fst s')))
  /\ (forall fuel statement s r s' k,
        self_execute_single (methods PREPROCESSORS db fuel) statement s
        = Ok (r, s') ->
        (k ∈ keys (_unexecuted_codes (fst s)) ->
         k ∈ keys (_unexecuted_codes (fst s'))
         \/ k ∈ keys (_executed_codes (fst s')))
        /\ (k ∈ keys (_executed_codes (fst s)) ->
            k ∈ keys (_executed_codes (fst s')))).
Proof.
  split; [intros; by eapply value_tracks|].
  split; [intros; apply mark_executed_spec|].
  split.
  - intros fuel code params extra s r s' Hrun.
    destruct fuel as [|fuel]; [discriminate Hrun|].
    change (execute_code (methods PREPROCESSORS db fuel) code params extra s
            = Ok (r, s')) in Hrun.
    unfold execute_code in Hrun.
    apply bind_inv in Hrun as ([] & [a1 h1] & Hmark & Hrest).
    destruct s as [a h].
    destruct (mark_executed_spec code a h) as (a' & Hm & _ & Hin).
    rewrite Hm in Hmark. injection Hmark as <- <-.
    assert (Hev : evolves false (a', h) s').
    { pose proof (methods_preserve false PREPROCESSORS db Hdb fuel eq_refl) as Hself.
      assert (Hp : preserves false
                (outcome ← base_execute_code (methods PREPROCESSORS db fuel)
                             code params extra;
                 (if is_File code
                  then end_of_file (methods PREPROCESSORS db fuel)
                  else mret tt);; mret outcome)).
      { apply preserves_bind; [by apply (preserves_base_execute_code false)|].
        intros outcome. apply preserves_bind; [|intros; apply preserves_ret].
        destruct (is_File code);
          [by apply (preserves_end_of_file false)|apply preserves_ret]. }
      exact (Hp _ _ _ Hrest). }
    by apply (ev_executed _ _ _ Hev).
  - intros fuel statement s r s' k Hrun.
    pose proof (proj1 (proj2 (proj2 (methods_preserve false PREPROCESSORS db Hdb
                                       fuel eq_refl))) statement s r s' Hrun) as Hev.
    split; [apply (ev_unexecuted _ _ _ Hev)|apply (ev_executed _ _ _ Hev)].
Qed.

Lemma code_tracking_witness :
  exists r s',
    self_execute_code (methods keywords.PREPROCESSORS call_database 5)
      a_block None None fresh_state = Ok (r, s')
    /\ str a_block ∈ keys (_executed_codes (fst s')).
Proof.
  eexists _, _. split; [vm_compute; reflexivity|].
  apply (proj1 (proj2 (proj2 (code_tracking keywords.PREPROCESSORS call_database
                                (call_database_preserves false))))
           5 a_block None None fresh_state a_).
  vm_compute. reflexivity.
Defined.

(** C8, counterexample: inside [#define X a;b] the [;] does not end a
    statement: it is one of the tokens of the definition's expression. *)
Lemma semicolon_in_directive_is_ordinary :
  ends_statement keywords.PREPROCESSORS
    (incr (zero_lvls keywords.PREPROCESSORS) "#define") both (Keyword ";")
  = false
  /\ parse keywords.PREPROCESSORS flat_exp 20 define_with_semicolon
     = Ok (Statement
             [Statement
                [DefineStatement
                   [Preprocessor "#define"; Space; Variable_ "X"; Space; a_;
                    Keyword ";"; b_]
                   "X" [a_; Keyword ";"; b_] [] nl]
                "" false]
             "" false).
Proof. split; vm_compute; reflexivity. Qed.

Lemma separator_ends_statement_witness :
  parse_loop keywords.PREPROCESSORS (_analyze_tokens flat_exp)
    (_analyze_array_tokens flat_exp) 1 [Keyword ";"] 0
    (zero_lvls keywords.PREPROCESSORS) both ∅ 0 [] []
  = parse_loop keywords.PREPROCESSORS (_analyze_tokens flat_exp)
      (_analyze_array_tokens flat_exp) 0 [Keyword ";"] 0
      (zero_lvls keywords.PREPROCESSORS) both ∅ (0 + 1)
      ([] ++ [_analyze_tokens flat_exp ([] ++ [Keyword ";"])]) [].
Proof.
  refine (proj1 (separator_ends_statement keywords.PREPROCESSORS
            (_analyze_tokens flat_exp) (_analyze_array_tokens flat_exp)
            0 [Keyword ";"] 0%Z (zero_lvls keywords.PREPROCESSORS) both ∅ 0%Z
            [] [] ";" _ eq_refl (or_introl eq_refl) eq_refl _) eq_refl _).
  - lia.
  - intros H. repeat (apply elem_of_cons in H as [H|H]; [discriminate H|]).
    by apply elem_of_nil in H.
  - right. apply directive_free_zero.
Defined.


(** * Further properties *)

(** ** Strings and comments, in general *)

Lemma append_nil_r (s : string) : s +:+ "" = s.
Proof.
  induction s as [|c s IH]; [done|].
  change (String.String c (s +:+ "") = String.String c s). by rewrite IH.
Qed.

Lemma append_assoc (a b c : string) : (a +:+ b) +:+ c = a +:+ (b +:+ c).
Proof.
  induction a as [|x a IH]; [done|].
  change (String.String x ((a +:+ b) +:+ c) = String.String x (a +:+ (b +:+ c))).
  by rewrite IH.
Qed.

Lemma concat_cons (x : string) (l : list string) :
  String.concat "" (x :: l) = x +:+ String.concat "" l.
Proof. destruct l; simpl; [by rewrite append_nil_r|done]. Qed.

Lemma concat_app (a b : list string) :
  String.concat "" (a ++ b) = String.concat "" a +:+ String.concat "" b.
Proof.
  induction a as [|x a IH]; [done|].
  rewrite <- app_comm_cons, !concat_cons, IH. by rewrite append_assoc.
Qed.

Lemma concat_snoc (a : list string) (x : string) :
  String.concat "" (a ++ [x]) = String.concat "" a +:+ x.
Proof. rewrite concat_app. simpl. done. Qed.

Ltac norm_text :=
  repeat first
    [ rewrite concat_app | rewrite concat_cons | rewrite append_assoc
    | rewrite append_nil_r | progress change (String.concat "" []) with "" ].

Lemma scan_then_None l : forall st, scan_then None l st = scan l st.
Proof.
  induction l as [|t l IH]; intros st; simpl; [done|].
  rewrite IH. by destruct l.
Qed.

Lemma scan_then_app f l1 : forall l2 st,
  scan_then f (l1 ++ l2) st = scan_then f l2 (scan_then (next_of f l2) l1 st).
Proof.
  induction l1 as [|t l1 IH]; intros l2 st; simpl; [done|].
  rewrite IH. by destruct l1.
Qed.

(** *** The text is kept *)

Lemma scanned_text_step st t n :
  scanned_text (scan_step st t n) = scanned_text st +:+ t.
Proof.
  unfold scanned_text, pending_text, scan_step, string_step.
  destruct st as [S T d m]; simpl.
  destruct m as [[]|]; simpl;
    repeat match goal with
    | |- context [if ?b then _ else _] => destruct b; simpl
    end;
    rewrite ?map_app; simpl;
    rewrite ?concat_snoc, ?append_nil_r, ?append_assoc; done.
Qed.

Lemma scanned_text_scan f l : forall st,
  scanned_text (scan_then f l st) = scanned_text st +:+ String.concat "" l.
Proof.
  induction l as [|t l IH]; intros st; simpl scan_then.
  - simpl. by rewrite append_nil_r.
  - rewrite IH, scanned_text_step, concat_cons. by rewrite append_assoc.
Qed.

(** An open string starts with its quote. *)
Lemma open_string_step st t n :
  (forall q, sc_mode st = Some q ->
     match q with
     | string_double => exists rest, sc_string st = dq +:+ rest
     | string_single => exists rest, sc_string st = "'" +:+ rest
     | _ => True
     end) ->
  forall q, sc_mode (scan_step st t n) = Some q ->
    match q with
    | string_double => exists rest, sc_string (scan_step st t n) = dq +:+ rest
    | string_single => exists rest, sc_string (scan_step st t n) = "'" +:+ rest
    | _ => True
    end.
Proof.
  intros H q. unfold scan_step, string_step.
  destruct st as [S T d m]; simpl in *.
  destruct m as [[]|]; simpl.
  - destruct (H _ eq_refl) as [rest ->].
    repeat case_match; simpl; intros Hq; simplify_eq; simpl;
      rewrite append_assoc; by eexists.
  - destruct (H _ eq_refl) as [rest ->].
    repeat case_match; simpl; intros Hq; simplify_eq; simpl;
      rewrite append_assoc; by eexists.
  - repeat case_match; simpl; intros Hq; by simplify_eq.
  - repeat case_match; simpl; intros Hq; by simplify_eq.
  - destruct (String.eqb t dq) eqn:E1; simpl.
    { apply String.eqb_eq in E1 as ->. intros [= <-]. by exists "". }
    destruct (String.eqb t "'") eqn:E2; simpl.
    { apply String.eqb_eq in E2 as ->. intros [= <-]. by exists "". }
    repeat case_match; simpl; intros Hq; by simplify_eq.
Qed.

Lemma open_string_scan l : forall st,
  (forall q, sc_mode st = Some q ->
     match q with
     | string_double => exists rest, sc_string st = dq +:+ rest
     | string_single => exists rest, sc_string st = "'" +:+ rest
     | _ => True
     end) ->
  forall q, sc_mode (scan l st) = Some q ->
    match q with
    | string_double => exists rest, sc_string (scan l st) = dq +:+ rest
    | string_single => exists rest, sc_string (scan l st) = "'" +:+ rest
    | _ => True
    end.
Proof.
  induction l as [|t l IH]; intros st H; simpl; [done|].
  apply IH. by apply open_string_step.
Qed.


(** *** String literals *)

(** The mode of the strings that the quote [q] delimits. *)
Lemma quote_mode q : is_quote q ->
  exists m, (forall st t n, sc_mode st = Some m ->
               scan_step st t n = string_step q st t n)
            /\ scan_step scan_start q = fun _ => mk_scanner q [] false (Some m).
Proof.
  intros [-> | ->].
  - exists string_double. split; [by intros [S T d m] t n [= ->]|done].
  - exists string_single. split; [by intros [S T d m] t n [= ->]|done].
Qed.

Lemma string_step_other q st t n :
  t <> q ->
  string_step q st t n
  = mk_scanner (sc_string st +:+ t) (sc_tokens st) (sc_in_double st) (sc_mode st).
Proof.
  intros Ht. unfold string_step.
  destruct (String.eqb t q) eqn:E; [by apply String.eqb_eq in E|done].
Qed.

(** Tokens other than the quote are read into the string. *)
Lemma string_run q m f body : forall st,
  (forall st t n, sc_mode st = Some m -> scan_step st t n = string_step q st t n) ->
  sc_mode st = Some m ->
  Forall (fun t => t <> q) body ->
  scan_then f body st
  = mk_scanner (sc_string st +:+ String.concat "" body) (sc_tokens st)
      (sc_in_double st) (sc_mode st).
Proof.
  intros st Hq. revert st.
  induction body as [|t body IH]; intros st Hm Hb; simpl scan_then.
  - simpl. rewrite append_nil_r. by destruct st.
  - apply Forall_cons in Hb as [Ht Hb].
    rewrite (Hq _ _ _ Hm), (string_step_other _ _ _ _ Ht).
    rewrite IH by done. cbn [sc_string sc_tokens sc_in_double sc_mode].
    by rewrite concat_cons, append_assoc.
Qed.

(** A doubled quote is read into the string. *)
Lemma string_doubled q m f rest S T :
  (forall st t n, sc_mode st = Some m -> scan_step st t n = string_step q st t n) ->
  scan_then f (q :: q :: rest) (mk_scanner S T false (Some m))
  = scan_then f rest (mk_scanner (S +:+ q +:+ q) T false (Some m)).
Proof.
  intros Hq. simpl scan_then.
  rewrite (Hq (mk_scanner S T false (Some m)) q (Some q) eq_refl).
  unfold string_step. cbn [sc_string sc_tokens sc_in_double sc_mode].
  rewrite String.eqb_refl. rewrite bool_decide_eq_true_2 by done.
  rewrite (Hq (mk_scanner (S +:+ q) T true (Some m)) q _ eq_refl).
  unfold string_step. cbn [sc_string sc_tokens sc_in_double sc_mode].
  rewrite String.eqb_refl. by rewrite append_assoc.
Qed.

(** A quote that no quote follows closes the string. *)
Lemma string_close q m f S T :
  (forall st t n, sc_mode st = Some m -> scan_step st t n = string_step q st t n) ->
  f <> Some q ->
  scan_then f [q] (mk_scanner S T false (Some m))
  = mk_scanner (S +:+ q) (T ++ [Literal (String (Some (S +:+ q)))]) false None.
Proof.
  intros Hq Hf. simpl scan_then.
  rewrite (Hq (mk_scanner S T false (Some m)) q f eq_refl).
  unfold string_step. cbn [sc_string sc_tokens sc_in_double sc_mode].
  rewrite String.eqb_refl. by rewrite bool_decide_eq_false_2.
Qed.

Lemma string_literal_scan q m f bodies : forall S T,
  (forall st t n, sc_mode st = Some m -> scan_step st t n = string_step q st t n) ->
  f <> Some q ->
  Forall (Forall (fun t => t <> q)) bodies ->
  let text := S +:+ String.concat "" (with_doubled q bodies ++ [q]) in
  scan_then f (with_doubled q bodies ++ [q]) (mk_scanner S T false (Some m))
  = mk_scanner text (T ++ [Literal (String (Some text))]) false None.
Proof.
  intros S T Hq Hf. revert S.
  induction bodies as [|b bodies IH]; intros S Hb text; subst text.
  - simpl with_doubled. simpl app. rewrite (string_close q m) by done.
    rewrite concat_cons. simpl String.concat. by rewrite append_nil_r.
  - apply Forall_cons in Hb as [Hb Hbs].
    destruct bodies as [|b' bodies].
    + simpl with_doubled. rewrite scan_then_app. simpl next_of.
      rewrite (string_run q m (Some q) b) by done.
      cbn [sc_string sc_tokens sc_in_double sc_mode].
      rewrite (string_close q m) by done.
      by rewrite concat_snoc, append_assoc.
    + change (with_doubled q (b :: b' :: bodies))
        with (b ++ q :: q :: with_doubled q (b' :: bodies)).
      rewrite <- app_assoc, scan_then_app. simpl next_of.
      rewrite (string_run q m (Some q) b) by done.
      cbn [sc_string sc_tokens sc_in_double sc_mode].
      rewrite <- !app_comm_cons.
      rewrite (string_doubled q m) by done.
      rewrite IH by done. by norm_text.
Qed.

(** X2: between two quotes of the same kind, raw tokens that are not
    that quote, with doubled quotes between them, merge into one string
    literal whose text is all the raw tokens, the quotes and the doubled
    quotes included. *)
Theorem string_literal_escapes q bodies
    (Hq : is_quote q) (Hb : Forall (Forall (fun t => t <> q)) bodies) :
  let all_tokens := q :: with_doubled q bodies ++ [q] in
  parse_strings_and_comments all_tokens
  = Ok [Literal (String (Some (String.concat "" all_tokens)))].
Proof.
  intros all_tokens. subst all_tokens.
  destruct (quote_mode q Hq) as (m & Hm & Hstart).
  unfold parse_strings_and_comments.
  rewrite <- scan_then_None. simpl scan_then. rewrite Hstart.
  rewrite (string_literal_scan q m) by done.
  cbn [sc_string sc_tokens sc_in_double sc_mode app].
  by rewrite concat_cons.
Qed.

Lemma string_literal_escapes_witness :
  parse_strings_and_comments [dq; "a"; dq; dq; "'"; "b"; dq]
  = Ok [Literal (String (Some (String.concat "" [dq; "a"; dq; dq; "'"; "b"; dq])))].
Proof.
  apply (string_literal_escapes dq [["a"]; ["'"; "b"]]).
  - by left.
  - repeat constructor; discriminate.
Defined.

(** *** Comments, and what follows a closed literal *)

Lemma merge_end_scan all_tokens :
  parse_strings_and_comments all_tokens = merge_end (scan all_tokens scan_start).
Proof. reflexivity. Qed.

Lemma after_lexemes_step pre st t n :
  scan_step (after_lexemes pre st) t n = after_lexemes pre (scan_step st t n).
Proof.
  unfold scan_step, string_step, after_lexemes.
  destruct st as [S T d m]; simpl.
  destruct m as [[]|]; simpl; repeat case_match; simpl;
    rewrite <- ?app_assoc; done.
Qed.

Lemma after_lexemes_scan pre f l : forall st,
  scan_then f l (after_lexemes pre st) = after_lexemes pre (scan_then f l st).
Proof.
  induction l as [|t l IH]; intros st; simpl; [done|].
  by rewrite after_lexemes_step, IH.
Qed.

Lemma merge_end_after pre st :
  merge_end (after_lexemes pre st)
  = match merge_end st with
    | Ok lexemes => Ok (pre ++ lexemes)
    | Raise e =>
        Raise (mk_exception SQFParserError
                 (String.concat "" (map lexeme_str pre) +:+ exc_coord e)
                 "String is not closed")
    | OutOfFuel => OutOfFuel
    end.
Proof.
  unfold merge_end, after_lexemes. destruct st as [S T d m]; simpl.
  destruct m as [[]|]; simpl; rewrite <- ?app_assoc, ?map_app, ?concat_app; done.
Qed.

Lemma same_scan_step st st' t n :
  same_scan st st' -> same_scan (scan_step st t n) (scan_step st' t n).
Proof.
  destruct st as [S T d m], st' as [S' T' d' m'].
  intros (HT & Hm & Hd & HS); simpl in *. subst T' m' d'.
  unfold scan_step, string_step; simpl.
  destruct m as [[]|]; simpl.
  1-4: rewrite <- (HS ltac:(done)); repeat case_match; by repeat split.
  repeat case_match; repeat split; simpl; try done.
Qed.

Lemma same_scan_scan f l : forall st st',
  same_scan st st' -> same_scan (scan_then f l st) (scan_then f l st').
Proof.
  induction l as [|t l IH]; intros st st' H; simpl; [done|].
  by apply IH, same_scan_step.
Qed.

Lemma merge_end_same st st' : same_scan st st' -> merge_end st = merge_end st'.
Proof.
  destruct st as [S T d m], st' as [S' T' d' m'].
  intros (HT & Hm & Hd & HS); simpl in *. subst T' m' d'.
  unfold merge_end; simpl. destruct m as [[]|]; try done.
  all: by rewrite (HS ltac:(done)).
Qed.

(** The flag of the escaped quote is only up inside a string. *)
Lemma in_double_step st t n :
  (sc_in_double st = true ->
   sc_mode st = Some string_single \/ sc_mode st = Some string_double) ->
  sc_in_double (scan_step st t n) = true ->
  sc_mode (scan_step st t n) = Some string_single
  \/ sc_mode (scan_step st t n) = Some string_double.
Proof.
  destruct st as [S T d m]. unfold scan_step, string_step; simpl.
  intros H. destruct m as [[]|]; simpl; repeat case_match; simpl; intros Hd;
    try discriminate; try (by left); try (by right);
    destruct (H Hd); discriminate.
Qed.

Lemma in_double_scan f l : forall st,
  (sc_in_double st = true ->
   sc_mode st = Some string_single \/ sc_mode st = Some string_double) ->
  sc_in_double (scan_then f l st) = true ->
  sc_mode (scan_then f l st) = Some string_single
  \/ sc_mode (scan_then f l st) = Some string_double.
Proof.
  induction l as [|t l IH]; intros st H; simpl; [done|].
  apply IH. by apply in_double_step.
Qed.

(** Only a quote looks at the token that follows it. *)
Lemma scan_step_lookahead st t f :
  ~ (is_quote t /\ f = Some t) -> scan_step st t f = scan_step st t None.
Proof.
  intros H. unfold scan_step, string_step.
  destruct (sc_mode st) as [[]|]; try done.
  - destruct (String.eqb t "'") eqn:E; [|done].
    apply String.eqb_eq in E as ->. destruct (sc_in_double st); [done|].
    rewrite !bool_decide_eq_false_2; [done|done|].
    intros ->. apply H. split; [by right|done].
  - destruct (String.eqb t dq) eqn:E; [|done].
    apply String.eqb_eq in E as ->. destruct (sc_in_double st); [done|].
    rewrite !bool_decide_eq_false_2; [done|done|].
    intros ->. apply H. split; [by left|done].
Qed.

Lemma scan_then_lookahead f l st :
  ~ (exists q, is_quote q /\ last l = Some q /\ f = Some q) ->
  scan_then f l st = scan l st.
Proof.
  intros H. rewrite <- scan_then_None.
  destruct l as [|t l _] using rev_ind; [done|].
  rewrite !scan_then_app. simpl.
  apply scan_step_lookahead. intros [Hq ->]. apply H.
  exists t. by rewrite last_snoc.
Qed.

(** Tokens read behind tokens that end outside of a literal. *)
Lemma merge_app l1 l2 lexemes :
  parse_strings_and_comments l1 = Ok lexemes ->
  final_mode l1 = None ->
  ~ (exists q, is_quote q /\ last l1 = Some q /\ head l2 = Some q) ->
  parse_strings_and_comments (l1 ++ l2)
  = merge_end (after_lexemes lexemes (scan l2 scan_start)).
Proof.
  intros Hl Hm Hq. rewrite merge_end_scan.
  rewrite <- (scan_then_None (l1 ++ l2)), scan_then_app.
  replace (next_of None l2) with (head l2) by (by destruct l2).
  rewrite (scan_then_lookahead _ _ _ Hq).
  rewrite <- (scan_then_None l2 scan_start), <- after_lexemes_scan.
  apply merge_end_same, same_scan_scan.
  unfold final_mode in Hm. unfold parse_strings_and_comments in Hl.
  rewrite Hm in Hl. injection Hl as <-.
  pose proof (in_double_scan None l1 scan_start ltac:(done)) as Hd.
  rewrite scan_then_None in Hd.
  destruct (scan l1 scan_start) as [S T d m]; simpl in *. subst m.
  unfold same_scan, after_lexemes; simpl. rewrite app_nil_r.
  repeat split; [|done].
  destruct d; [|done]. destruct (Hd eq_refl); discriminate.
Qed.

(** X3: merging is compositional at a point outside of any literal: when
    the tokens [l1] merge into [lexemes] and end outside of a string and of
    a comment, and no quote that ends [l1] is followed by the same quote at
    the head of [l2], the merge of [l1 ++ l2] is [lexemes] followed by the
    merge of [l2], and an error of [l2] is raised with the text of [l1]
    before its coordinate. *)
Theorem literal_merge_app l1 l2 lexemes
    (Hl : parse_strings_and_comments l1 = Ok lexemes)
    (Hm : final_mode l1 = None)
    (Hq : ~ (exists q, is_quote q /\ last l1 = Some q /\ head l2 = Some q)) :
  (forall more,
     parse_strings_and_comments l2 = Ok more ->
     parse_strings_and_comments (l1 ++ l2) = Ok (lexemes ++ more))
  /\ (forall e,
        parse_strings_and_comments l2 = Raise e ->
        parse_strings_and_comments (l1 ++ l2)
        = Raise (mk_exception SQFParserError
                   (String.concat "" (map lexeme_str lexemes) +:+ exc_coord e)
                   "String is not closed")).
Proof.
  rewrite (merge_app _ _ _ Hl Hm Hq), merge_end_after, <- merge_end_scan.
  split; [by intros more ->|by intros e ->].
Qed.

Lemma literal_merge_app_witness :
  parse_strings_and_comments (["x"; dq; "a"; dq] ++ ["'"; "b"; "'"; "y"])
  = Ok ([Raw "x"; Literal (String (Some (String.concat "" [dq; "a"; dq])))]
        ++ [Literal (String (Some "'b'")); Raw "y"]).
Proof.
  apply (literal_merge_app ["x"; dq; "a"; dq] ["'"; "b"; "'"; "y"]).
  - reflexivity.
  - reflexivity.
  - intros (q & _ & Hlast & Hhead). injection Hlast as <-.
    injection Hhead as Hh. vm_compute in Hh. discriminate Hh.
  - reflexivity.
Defined.

Lemma comment_run (closes : string -> bool) m f body : forall st,
  (forall st t n, sc_mode st = Some m ->
     scan_step st t n
     = if closes t
       then mk_scanner "" (sc_tokens st ++ [Literal (Comment (sc_string st +:+ t))])
              (sc_in_double st) None
       else mk_scanner (sc_string st +:+ t) (sc_tokens st) (sc_in_double st)
              (sc_mode st)) ->
  sc_mode st = Some m ->
  Forall (fun t => closes t = false) body ->
  scan_then f body st
  = mk_scanner (sc_string st +:+ String.concat "" body) (sc_tokens st)
      (sc_in_double st) (sc_mode st).
Proof.
  intros st Hc. revert st.
  induction body as [|t body IH]; intros st Hm Hb; simpl scan_then.
  - norm_text. by destruct st.
  - apply Forall_cons in Hb as [Ht Hb].
    rewrite (Hc _ _ _ Hm), Ht, IH by done.
    cbn [sc_string sc_tokens sc_in_double sc_mode]. by norm_text.
Qed.

Lemma comment_literal (closes : string -> bool) m opener body e rest lexemes :
  (forall st t n, sc_mode st = Some m ->
     scan_step st t n
     = if closes t
       then mk_scanner "" (sc_tokens st ++ [Literal (Comment (sc_string st +:+ t))])
              (sc_in_double st) None
       else mk_scanner (sc_string st +:+ t) (sc_tokens st) (sc_in_double st)
              (sc_mode st)) ->
  (forall n, scan_step scan_start opener n = mk_scanner opener [] false (Some m)) ->
  Forall (fun t => closes t = false) body ->
  closes e = true ->
  parse_strings_and_comments rest = Ok lexemes ->
  parse_strings_and_comments (opener :: body ++ e :: rest)
  = Ok (Literal (Comment (String.concat "" (opener :: body ++ [e]))) :: lexemes).
Proof.
  intros Hc Ho Hb He Hrest.
  rewrite merge_end_scan, <- scan_then_None. simpl scan_then. rewrite Ho.
  rewrite scan_then_app. simpl next_of.
  rewrite (comment_run closes m (Some e) body) by done.
  cbn [sc_string sc_tokens sc_in_double sc_mode]. simpl scan_then.
  rewrite Hc by done. rewrite He.
  cbn [sc_string sc_tokens sc_in_double sc_mode app].
  change (mk_scanner "" [Literal (Comment ((opener +:+ String.concat "" body) +:+ e))]
            false None)
    with (after_lexemes
            [Literal (Comment ((opener +:+ String.concat "" body) +:+ e))]
            scan_start).
  rewrite after_lexemes_scan, merge_end_after, scan_then_None, <- merge_end_scan.
  rewrite Hrest. by norm_text.
Qed.

(** X4: quotes inside a comment open no string: a line comment runs from
    [//] to the first line end, a bulk comment from [/*] to the first [*/],
    whatever stands between, and each is one [Comment] lexeme followed by
    the lexemes of the rest. *)
Theorem comment_swallows_quotes :
  (forall body e rest lexemes,
     Forall (fun t => is_newline t = false) body -> is_newline e = true ->
     parse_strings_and_comments rest = Ok lexemes ->
     parse_strings_and_comments ("//" :: body ++ e :: rest)
     = Ok (Literal (Comment (String.concat "" ("//" :: body ++ [e]))) :: lexemes))
  /\ (forall body rest lexemes,
        Forall (fun t => t <> "*/") body ->
        parse_strings_and_comments rest = Ok lexemes ->
        parse_strings_and_comments ("/*" :: body ++ "*/" :: rest)
        = Ok (Literal (Comment (String.concat "" ("/*" :: body ++ ["*/"])))
              :: lexemes)).
Proof.
  split.
  - intros body e rest lexemes Hb He Hrest.
    apply (comment_literal is_newline comment_line); try done.
    by intros [S T d m] t n [= ->].
  - intros body rest lexemes Hb Hrest.
    apply (comment_literal (fun t => String.eqb t "*/") comment_bulk); try done.
    + by intros [S T d m] t n [= ->].
    + eapply Forall_impl; [exact Hb|]. intros t Ht. by apply String.eqb_neq.
Qed.

Lemma comment_swallows_quotes_witness :
  parse_strings_and_comments ("//" :: [dq; "a"] ++ nl :: ["x"])
  = Ok [Literal (Comment (String.concat "" ("//" :: [dq; "a"] ++ [nl]))); Raw "x"].
Proof.
  apply (proj1 comment_swallows_quotes [dq; "a"] nl ["x"] [Raw "x"]).
  - repeat constructor.
  - reflexivity.
  - reflexivity.
Defined.

(** ** Statements, arrays, substitution and definitions *)

Section tokens.
Variable parse_exp : list BaseType -> BaseType.

Lemma analyze_tokens_parts ending tokens :
  statement_parts
    (match parse_exp tokens with
     | Statement l _ p => Statement l ending p
     | DefineStatement l n x a _ => DefineStatement l n x a ending
     | DefineResult l d r _ => DefineResult l d r ending
     | statement => Statement [statement] ending false
     end)
  = Some (statement_of ending (parse_exp tokens)).
Proof. unfold statement_of. by destruct (parse_exp tokens). Qed.

(** X5: [_analyze_tokens] takes a final [;] or [,] off the tokens and
    makes it the ending of the statement, the expression parser seeing the
    tokens before it; tokens that end otherwise give a statement with no
    ending.  What the expression parser returns is kept when it is a
    statement and wrapped in one when it is not. *)
Theorem analyze_tokens_ending :
  (forall body s,
     s = ";" \/ s = "," ->
     statement_parts (_analyze_tokens parse_exp (body ++ [Keyword s]))
     = Some (statement_of s (parse_exp body)))
  /\ (forall tokens,
        (forall t, last tokens = Some t -> is_separator t = false) ->
        statement_parts (_analyze_tokens parse_exp tokens)
        = Some (statement_of "" (parse_exp tokens))).
Proof.
  split.
  - intros body s Hs. unfold _analyze_tokens.
    rewrite last_snoc.
    replace (is_separator (Keyword s)) with true
      by (by destruct Hs as [-> | ->]).
    rewrite removelast_last. simpl keyword_value.
    apply analyze_tokens_parts.
  - intros tokens Hlast. unfold _analyze_tokens.
    destruct (last tokens) as [t|] eqn:E.
    + rewrite (Hlast t eq_refl). apply analyze_tokens_parts.
    + apply analyze_tokens_parts.
Qed.

Lemma split_commas_cons tokens : exists p ps, split_commas tokens = p :: ps.
Proof.
  destruct tokens as [|t r]; simpl; [by eexists _, _|].
  destruct (token_eqb t (Keyword ",")); [by eexists _, _|].
  destruct (split_commas r); by eexists _, _.
Qed.

Lemma split_commas_nil tokens : split_commas tokens = [[]] -> tokens = [].
Proof.
  destruct tokens as [|t r]; simpl; [done|].
  destruct (token_eqb t (Keyword ",")).
  - destruct (split_commas_cons r) as (p & ps & ->). done.
  - destruct (split_commas r); done.
Qed.

Lemma _analyze_array_loop_split tu tokens : forall r part f,
  let parts :=
    match split_commas tokens with
    | p :: ps => (part ++ p) :: ps
    | [] => [part]
    end in
  _analyze_array_loop parse_exp tu tokens r part f
  = if forallb nonempty (removelast parts)
    then Ok (r ++ map (_analyze_tokens parse_exp) (removelast parts),
             List.last parts [], f || Nat.ltb 1 (length parts))
    else Raise (empty_element tu).
Proof.
  induction tokens as [|t tokens IH]; intros r part f; simpl.
  - by rewrite !app_nil_r, orb_false_r.
  - destruct (token_eqb t (Keyword ",")) eqn:E.
    + rewrite app_nil_r.
      destruct (split_commas_cons tokens) as (p & ps & Hs). rewrite Hs.
      destruct part as [|x part]; [done|].
      rewrite IH, Hs. simpl. rewrite <- app_assoc. simpl.
      destruct (forallb nonempty _); [|done].
      by rewrite orb_true_r.
    + rewrite IH.
      destruct (split_commas_cons tokens) as (p & ps & Hs). rewrite Hs.
      by rewrite <- app_assoc.
Qed.

Lemma forallb_snoc {A} (f : A -> bool) l x :
  forallb f (l ++ [x]) = forallb f l && f x.
Proof. rewrite forallb_app. simpl. by rewrite andb_true_r. Qed.

(** X6: the elements of an array are the runs of tokens between its
    commas, each made a statement by [_analyze_tokens]; no tokens give no
    element, and an empty run raises the error of the empty element. *)
Theorem array_elements_split_at_commas tokens_until tokens :
  _analyze_array_tokens parse_exp tokens tokens_until
  = match tokens with
    | [] => Ok []
    | _ =>
        if forallb nonempty (split_commas tokens)
        then Ok (map (_analyze_tokens parse_exp) (split_commas tokens))
        else Raise (empty_element tokens_until)
    end.
Proof.
  unfold _analyze_array_tokens. rewrite _analyze_array_loop_split.
  destruct tokens as [|t tokens]; [done|].
  destruct (split_commas_cons (t :: tokens)) as (p & ps & Hs). rewrite Hs.
  change ([] ++ p) with p.
  destruct (exists_last (l := p :: ps) ltac:(done)) as (front & l & Hfl).
  rewrite Hfl, removelast_last, last_last, forallb_snoc, map_app, length_app.
  simpl length.
  destruct (forallb nonempty front) eqn:Hf; simpl; [|done].
  destruct l as [|x l]; simpl; [|done].
  destruct front as [|y front]; simpl.
  - rewrite Hfl in Hs. by apply split_commas_nil in Hs.
  - by replace (length front + 1) with (S (length front)) by lia.
Qed.

End tokens.

(** *** Replacing the parameters of a macro *)

Lemma replace_in_statement args idx all l e p :
  replace_in_token args idx all (Statement l e p)
  = (l' ← replace_in_expression l args idx all; Ok (Statement l' e p)).
Proof.
  simpl. f_equal. induction l as [|x l IH]; [done|].
  simpl. destruct (replace_in_token args idx all x); simpl; [|done|done].
  by rewrite IH.
Qed.

Lemma replace_in_leaf args idx all token :
  is_Statement token = false ->
  replace_in_token args idx all token
  = match find (fun p => String.eqb (str token) (fst p)) (zip args idx) with
    | Some (_, k) => or_raise (py.index all k) py.IndexError
    | None => Ok token
    end.
Proof. by destruct token. Qed.

Lemma find_zip_none (name : string) args (idx : list Z) :
  name ∉ args ->
  find (fun p => String.eqb name (fst p)) (zip args idx) = None.
Proof.
  revert idx. induction args as [|a args IH]; intros idx Hn; [done|].
  destruct idx as [|k idx]; [done|]. simpl.
  destruct (String.eqb name a) eqn:E.
  - apply String.eqb_eq in E as ->. exfalso. apply Hn. by left.
  - apply IH. intros Hin. apply Hn. by right.
Qed.

Lemma find_zip_first (name : string) args (idx : list Z) i k :
  args !! i = Some name ->
  (forall j, j < i -> args !! j <> Some name) ->
  idx !! i = Some k ->
  find (fun p => String.eqb name (fst p)) (zip args idx) = Some (name, k).
Proof.
  revert idx i. induction args as [|a args IH]; intros idx i Ha Hfirst Hk; [done|].
  destruct idx as [|k0 idx]; [done|]. simpl.
  destruct i as [|i]; simpl in *.
  - injection Ha as ->. injection Hk as ->. by rewrite String.eqb_refl.
  - destruct (String.eqb name a) eqn:E.
    + apply String.eqb_eq in E as ->. by destruct (Hfirst 0 ltac:(lia)).
    + apply (IH idx i); [done| |done].
      intros j Hj. apply (Hfirst (S j)). lia.
Qed.

(** X7: [replace_in_expression] returns as many tokens as the
    expression has, descends into a statement and keeps its ending and its
    parentheses, and returns the expression itself when no token of it, at
    top level, is a statement or has the text of a parameter. *)
Theorem replace_in_expression_shape args arg_indexes all_tokens :
  (forall expression replaced,
     replace_in_expression expression args arg_indexes all_tokens = Ok replaced ->
     length replaced = length expression)
  /\ (forall l e p rest,
        replace_in_expression (Statement l e p :: rest) args arg_indexes all_tokens
        = (l' ← replace_in_expression l args arg_indexes all_tokens;
           rest' ← replace_in_expression rest args arg_indexes all_tokens;
           Ok (Statement l' e p :: rest')))
  /\ (forall expression,
        Forall (fun t => is_Statement t = false /\ str t ∉ args) expression ->
        replace_in_expression expression args arg_indexes all_tokens
        = Ok expression).
Proof.
  split; [|split].
  - induction expression as [|t expression IH]; intros replaced H; simpl in H.
    + by injection H as <-.
    + destruct (replace_in_token _ _ _ t); simpl in H; try done.
      destruct (replace_in_expression expression _ _ _); simpl in H; try done.
      injection H as <-. simpl. by rewrite (IH _ eq_refl).
  - intros l e p rest.
    change (replace_in_expression (Statement l e p :: rest) args arg_indexes all_tokens)
      with (t' ← replace_in_token args arg_indexes all_tokens (Statement l e p);
            rest' ← replace_in_expression rest args arg_indexes all_tokens;
            Ok (t' :: rest')).
    rewrite replace_in_statement.
    by destruct (replace_in_expression l _ _ _).
  - induction expression as [|t expression IH]; intros H; [done|].
    apply Forall_cons in H as [[Ht Hn] H]. simpl.
    rewrite (replace_in_leaf _ _ _ _ Ht), (find_zip_none _ _ _ Hn). simpl.
    by rewrite (IH H).
Qed.

(** X8: a token that is no statement and whose text is the parameter
    of index [i] (the first of that name) becomes the token of the call at
    the [i]-th argument index, and raises [IndexError] when the call has no
    token there. *)
Theorem replace_in_expression_parameter args arg_indexes all_tokens token i k
    (Ht : is_Statement token = false)
    (Hi : args !! i = Some (str token))
    (Hfirst : forall j, j < i -> args !! j <> Some (str token))
    (Hk : arg_indexes !! i = Some k) :
  replace_in_expression [token] args arg_indexes all_tokens
  = match py.index all_tokens k with
    | Some argument => Ok [argument]
    | None => Raise py.IndexError
    end.
Proof.
  simpl. rewrite (replace_in_leaf _ _ _ _ Ht).
  rewrite (find_zip_first _ _ _ _ _ Hi Hfirst Hk).
  by destruct (py.index all_tokens k).
Qed.

Lemma replace_in_expression_parameter_witness :
  replace_in_expression [Variable_ "b"] ["a"; "b"] [2%Z; 4%Z]
    [Variable_ "F"; Keyword "("; Number (Some 1%Z); Keyword ",";
     Number (Some 2%Z); Keyword ")"]
  = Ok [Number (Some 2%Z)].
Proof.
  refine (replace_in_expression_parameter ["a"; "b"] [2%Z; 4%Z]
            [Variable_ "F"; Keyword "("; Number (Some 1%Z); Keyword ",";
             Number (Some 2%Z); Keyword ")"]
            (Variable_ "b") 1 4%Z eq_refl eq_refl _ eq_refl).
  intros [|j] Hj; [discriminate|lia].
Defined.

(** *** The line of a [#define] *)

Lemma _analyze_define_line first rest :
  token_eqb first (Preprocessor "#define") = true ->
  _analyze_define (first :: rest)
  = let '(ending, tokens) := define_line (first :: rest) in
    match valid_indexes_from 0 tokens with
    | [] | [_] =>
        Raise (mk_exception SQFParserError (str first)
                 "#define needs at least one argument")
    | [_; i1] =>
        t1 ← or_raise (tokens !! i1) py.IndexError;
        Ok (DefineStatement tokens (str t1) [] [] ending)
    | _ :: i1 :: i2 :: more =>
        t1 ← or_raise (tokens !! i1) py.IndexError;
        t2 ← or_raise (tokens !! i2) py.IndexError;
        let variable := str t1 in
        match t2 with
        | Statement _ _ true =>
            if Nat.eqb (i1 + 1) i2 then
              let args := py.split "," (py.strip_ends (str t2)) in
              i3 ← or_raise (head more) py.IndexError;
              Ok (DefineStatement tokens variable (drop i3 tokens) args ending)
            else Ok (DefineStatement tokens variable (drop i2 tokens) [] ending)
        | _ => Ok (DefineStatement tokens variable (drop i2 tokens) [] ending)
        end
    end.
Proof.
  intros H. unfold _analyze_define, define_line. simpl head. simpl or_raise.
  unfold mbind at 1, result_bind at 1. rewrite H. simpl negb. cbv iota.
  reflexivity.
Qed.

Lemma define_line_tail core t :
  is_line_tail t = true -> define_line (core ++ [t]) = (str t, core).
Proof.
  intros Ht. unfold define_line. rewrite last_snoc, removelast_last.
  by destruct t.
Qed.

Lemma valid_indexes_layout l : forall i,
  Forall (fun t => is_ParserType t = true) l -> valid_indexes_from i l = [].
Proof.
  induction l as [|t l IH]; intros i H; [done|].
  apply Forall_cons in H as [Ht H]. simpl. rewrite Ht. by apply IH.
Qed.

Lemma valid_indexes_app l1 : forall i l2,
  valid_indexes_from i (l1 ++ l2)
  = valid_indexes_from i l1 ++ valid_indexes_from (i + length l1) l2.
Proof.
  induction l1 as [|t l1 IH]; intros i l2; simpl.
  - by rewrite Nat.add_0_r.
  - rewrite IH. replace (S i + length l1) with (i + S (length l1)) by lia.
    by destruct (is_ParserType t).
Qed.

Lemma valid_indexes_skip ws t r i :
  Forall (fun t => is_ParserType t = true) ws -> is_ParserType t = false ->
  valid_indexes_from i (ws ++ t :: r)
  = (i + length ws) :: valid_indexes_from (S (i + length ws)) r.
Proof.
  intros Hws Ht. rewrite valid_indexes_app, (valid_indexes_layout _ _ Hws).
  simpl. by rewrite Ht.
Qed.

Lemma layout_removelast ws :
  Forall (fun t => is_ParserType t = true) ws ->
  Forall (fun t => is_ParserType t = true) (removelast ws).
Proof.
  intros H. destruct ws as [|x ws _] using rev_ind; [done|].
  rewrite removelast_last. by apply Forall_app in H as [H _].
Qed.

(** The tokens of a line that ends in layout, without their line end. *)
Lemma define_line_layout core x ws :
  is_ParserType x = false ->
  Forall (fun t => is_ParserType t = true) ws ->
  exists ending ws',
    define_line (core ++ x :: ws) = (ending, core ++ x :: ws')
    /\ Forall (fun t => is_ParserType t = true) ws'.
Proof.
  intros Hx Hws. unfold define_line.
  destruct ws as [|w ws _] using rev_ind.
  - replace (core ++ [x]) with (core ++ [x]) by done.
    rewrite last_snoc. exists "", []. split; [|done]. by destruct x.
  - replace (core ++ x :: ws ++ [w]) with ((core ++ x :: ws) ++ [w])
      by (by rewrite <- app_assoc).
    rewrite last_snoc, removelast_last.
    apply Forall_app in Hws as [Hws Hw].
    destruct w; try (by eexists _, ws);
      rewrite <- app_assoc; simpl; eexists _, _;
      (split; [reflexivity|by apply Forall_app]).
Qed.

Lemma lookup_name (first : BaseType) ws name r :
  (first :: ws ++ name :: r) !! (1 + length ws) = Some name.
Proof. simpl. by rewrite list_lookup_middle. Qed.

Lemma lookup_after_name (first : BaseType) ws name t r :
  (first :: ws ++ name :: t :: r) !! S (1 + length ws) = Some t.
Proof.
  simpl. replace (ws ++ name :: t :: r) with ((ws ++ [name]) ++ t :: r)
    by (by rewrite <- app_assoc).
  rewrite list_lookup_middle; [done|]. rewrite length_app. simpl. lia.
Qed.

(** X9: a [#define] followed by layout only raises the
    [SQFParserError] that a [#define] needs at least one argument. *)
Theorem define_needs_a_name rest :
  Forall (fun t => is_ParserType t = true) rest ->
  _analyze_define (Preprocessor "#define" :: rest)
  = Raise (mk_exception SQFParserError "#define"
             "#define needs at least one argument").
Proof.
  intros Hrest. rewrite _analyze_define_line by done.
  destruct (define_line_layout [] (Preprocessor "#define") rest eq_refl Hrest)
    as (ending & ws' & Hline & Hws').
  simpl app in Hline. rewrite Hline. simpl valid_indexes_from.
  by rewrite (valid_indexes_layout _ _ Hws').
Qed.

Lemma define_needs_a_name_witness :
  _analyze_define [Preprocessor "#define"; Space; EndOfLine nl]
  = Raise (mk_exception SQFParserError "#define"
             "#define needs at least one argument").
Proof.
  apply (define_needs_a_name [Space; EndOfLine nl]). repeat constructor.
Defined.

(** X10: a [#define] of a name with a parameter list and
    nothing after it but layout raises [IndexError]: the body is looked up
    at a fourth meaningful token that does not exist. *)
Theorem define_parameters_without_body ws1 name l e ws2 :
  Forall (fun t => is_ParserType t = true) ws1 ->
  is_ParserType name = false ->
  Forall (fun t => is_ParserType t = true) ws2 ->
  _analyze_define
    (Preprocessor "#define" :: ws1 ++ name :: Statement l e true :: ws2)
  = Raise py.IndexError.
Proof.
  intros H1 Hn H2. rewrite _analyze_define_line by done.
  destruct (define_line_layout (Preprocessor "#define" :: ws1 ++ [name])
              (Statement l e true) ws2 eq_refl H2)
    as (ending & ws' & Hline & Hws').
  rewrite <- !app_comm_cons, <- !app_assoc in Hline. simpl app in Hline.
  rewrite Hline.
  simpl valid_indexes_from.
  rewrite (valid_indexes_skip ws1 name _ 1 H1 Hn).
  simpl valid_indexes_from.
  rewrite (valid_indexes_layout _ _ Hws').
  rewrite (lookup_name (Preprocessor "#define") ws1 name).
  rewrite (lookup_after_name (Preprocessor "#define") ws1 name).
  cbv [mbind result_bind or_raise].
  by rewrite (Nat.add_1_r (1 + length ws1)), Nat.eqb_refl.
Qed.

Lemma define_parameters_without_body_witness :
  _analyze_define
    [Preprocessor "#define"; Space; Variable_ "F";
     Statement [Statement [Variable_ "x"] "" false] "" true; EndOfLine nl]
  = Raise py.IndexError.
Proof.
  apply (define_parameters_without_body [Space] (Variable_ "F")
           [Statement [Variable_ "x"] "" false] "" [EndOfLine nl]).
  - repeat constructor.
  - reflexivity.
  - repeat constructor.
Defined.

Lemma valid_indexes_name ws1 name ws2 :
  Forall (fun t => is_ParserType t = true) ws1 ->
  is_ParserType name = false ->
  Forall (fun t => is_ParserType t = true) ws2 ->
  valid_indexes_from 0 (Preprocessor "#define" :: ws1 ++ name :: ws2)
  = [0; 1 + length ws1].
Proof.
  intros H1 Hn H2. simpl valid_indexes_from.
  rewrite (valid_indexes_skip ws1 name _ 1 H1 Hn).
  by rewrite (valid_indexes_layout _ _ H2).
Qed.

Lemma valid_indexes_parameters ws1 name par ws2 :
  Forall (fun t => is_ParserType t = true) ws1 ->
  is_ParserType name = false -> is_ParserType par = false ->
  Forall (fun t => is_ParserType t = true) ws2 ->
  valid_indexes_from 0 (Preprocessor "#define" :: ws1 ++ name :: par :: ws2)
  = [0; 1 + length ws1; S (1 + length ws1)].
Proof.
  intros H1 Hn Hp H2. simpl valid_indexes_from.
  rewrite (valid_indexes_skip ws1 name _ 1 H1 Hn).
  simpl valid_indexes_from. rewrite Hp.
  by rewrite (valid_indexes_layout _ _ H2).
Qed.

Lemma valid_indexes_body pre b body :
  is_ParserType b = false ->
  valid_indexes_from 0 (pre ++ b :: body)
  = valid_indexes_from 0 pre
    ++ length pre :: valid_indexes_from (S (length pre)) body.
Proof. intros Hb. rewrite valid_indexes_app. simpl. by rewrite Hb. Qed.

Lemma define_with_body first pre name i1 b body t :
  token_eqb first (Preprocessor "#define") = true ->
  is_line_tail t = true -> is_ParserType b = false ->
  valid_indexes_from 0 (first :: pre) = [0; i1] ->
  (first :: pre) !! i1 = Some name ->
  (i1 + 1 = length (first :: pre) -> is_parenthesis b = false) ->
  _analyze_define (first :: (pre ++ b :: body) ++ [t])
  = Ok (DefineStatement (first :: pre ++ b :: body) (str name) (b :: body) []
          (str t)).
Proof.
  intros Hf Ht Hb Hv Hl Hpar. rewrite _analyze_define_line by done.
  rewrite app_comm_cons, (define_line_tail _ _ Ht).
  rewrite app_comm_cons.
  remember (first :: pre) as line eqn:Hline. clear Hline pre.
  rename line into pre.
  rewrite (valid_indexes_body pre b body Hb), Hv.
  cbn [app]. rewrite (lookup_app_l_Some _ _ _ _ Hl).
  rewrite list_lookup_middle by done.
  cbv [mbind result_bind or_raise]. rewrite drop_app_length.
  destruct b as [| | | | | | | | | | | | |? ? []| | | | | | | | |]; try done.
  destruct (i1 + 1 =? length pre)%nat eqn:E; [|done].
  apply Nat.eqb_eq in E. by specialize (Hpar E).
Qed.

Lemma define_with_parameters first pre name i1 l e b body t :
  token_eqb first (Preprocessor "#define") = true ->
  is_line_tail t = true -> is_ParserType b = false ->
  valid_indexes_from 0 (first :: pre) = [0; i1; S i1] ->
  (first :: pre) !! i1 = Some name ->
  (first :: pre) !! S i1 = Some (Statement l e true) ->
  _analyze_define (first :: (pre ++ b :: body) ++ [t])
  = Ok (DefineStatement (first :: pre ++ b :: body) (str name) (b :: body)
          (py.split "," (py.strip_ends (str (Statement l e true)))) (str t)).
Proof.
  intros Hf Ht Hb Hv Hl1 Hl2. rewrite _analyze_define_line by done.
  rewrite app_comm_cons, (define_line_tail _ _ Ht).
  rewrite app_comm_cons.
  remember (first :: pre) as line eqn:Hline. clear Hline pre.
  rename line into pre.
  rewrite (valid_indexes_body pre b body Hb), Hv.
  cbn [app]. rewrite (lookup_app_l_Some _ _ _ _ Hl1).
  rewrite (lookup_app_l_Some _ _ _ _ Hl2).
  cbv [mbind result_bind or_raise head].
  rewrite (Nat.add_1_r i1), Nat.eqb_refl.
  by rewrite drop_app_length.
Qed.

(** X11: the three shapes of a [#define] line that ends with a line
    end or a comment: a name alone gives a definition with no body and no
    parameter; a name and a body give the body from its first meaningful
    token on; a name immediately followed by a statement in parentheses and
    a body give the parameters, the text between the parentheses split at
    the commas, and the body.  The ending is the text of the line end and
    the tokens are the line without it. *)
Theorem define_line_shape t ws1 name
    (Ht : is_line_tail t = true)
    (H1 : Forall (fun t => is_ParserType t = true) ws1)
    (Hn : is_ParserType name = false) :
  (forall ws2,
     Forall (fun t => is_ParserType t = true) ws2 ->
     let core := Preprocessor "#define" :: ws1 ++ name :: ws2 in
     _analyze_define (core ++ [t])
     = Ok (DefineStatement core (str name) [] [] (str t)))
  /\ (forall ws2 b body,
        Forall (fun t => is_ParserType t = true) ws2 ->
        is_ParserType b = false ->
        (ws2 = [] -> is_parenthesis b = false) ->
        let core := Preprocessor "#define" :: ws1 ++ name :: ws2 ++ b :: body in
        _analyze_define (core ++ [t])
        = Ok (DefineStatement core (str name) (b :: body) [] (str t)))
  /\ (forall l e ws2 b body,
        Forall (fun t => is_ParserType t = true) ws2 ->
        is_ParserType b = false ->
        let par := Statement l e true in
        let core :=
          Preprocessor "#define" :: ws1 ++ name :: par :: ws2 ++ b :: body in
        _analyze_define (core ++ [t])
        = Ok (DefineStatement core (str name) (b :: body)
                (py.split "," (py.strip_ends (str par))) (str t))).
Proof.
  split; [|split].
  - intros ws2 H2 core. subst core.
    rewrite <- app_comm_cons, _analyze_define_line by done.
    rewrite app_comm_cons, (define_line_tail _ _ Ht).
    rewrite (valid_indexes_name _ _ _ H1 Hn H2).
    by rewrite (lookup_name (Preprocessor "#define") ws1 name).
  - intros ws2 b body H2 Hb Hpar core. subst core.
    replace (ws1 ++ name :: ws2 ++ b :: body)
      with ((ws1 ++ name :: ws2) ++ b :: body) by (by rewrite <- app_assoc).
    apply (define_with_body _ _ name (1 + length ws1)); try done.
    + by apply valid_indexes_name.
    + apply lookup_name.
    + simpl. rewrite length_app. simpl. intros E.
      destruct ws2; [by apply Hpar|simpl in E; lia].
  - intros l e ws2 b body H2 Hb par core. subst core par.
    replace (ws1 ++ name :: Statement l e true :: ws2 ++ b :: body)
      with ((ws1 ++ name :: Statement l e true :: ws2) ++ b :: body)
      by (by rewrite <- app_assoc).
    apply (define_with_parameters _ _ name (1 + length ws1)); try done.
    + by apply valid_indexes_parameters.
    + apply lookup_name.
    + apply lookup_after_name.
Qed.

Lemma define_line_shape_witness :
  _analyze_define
    ([Preprocessor "#define"; Space; Variable_ "F";
      Statement [Statement [Variable_ "a"; Keyword ","; Variable_ "b"] "" false]
        "" true;
      Space; Variable_ "a"] ++ [EndOfLine nl])
  = Ok (DefineStatement
          [Preprocessor "#define"; Space; Variable_ "F";
           Statement [Statement [Variable_ "a"; Keyword ","; Variable_ "b"] "" false]
             "" true;
           Space; Variable_ "a"]
          "F" [Variable_ "a"] ["a"; "b"] nl).
Proof.
  refine (proj2 (proj2 (define_line_shape (EndOfLine nl) [Space] (Variable_ "F")
            eq_refl _ eq_refl))
            [Statement [Variable_ "a"; Keyword ","; Variable_ "b"] "" false] ""
            [Space] (Variable_ "a") [] _ eq_refl).
  - repeat constructor.
  - repeat constructor.
Defined.

(** ** The block parser and the structure of the brackets *)

Lemma tree_ind' (P : tree -> Prop) :
  (forall t, P (Leaf t)) ->
  (forall k inner, Forall P inner -> P (Group k inner)) ->
  forall t, P t.
Proof.
  intros HL HG. fix IH 1. intros [t|k inner]; [apply HL|].
  apply HG. induction inner as [|x inner IHl]; constructor; [apply IH|apply IHl].
Qed.

Lemma pair_bracket k :
  exists m, pair (bracket_key k) (opener k) (closer k) m.
Proof. destruct k; eexists; constructor. Qed.

Lemma bracket_key_in k : bracket_key k ∈ brackets.
Proof. destruct k; unfold brackets; repeat constructor. Qed.

Section trees.
Variable PP : list string.
Variable analyze_tokens : list BaseType -> BaseType.
Variable analyze_array : list BaseType -> list BaseType -> result (list BaseType).
Variable free : bool.
Hypothesis brackets_not_directives : forall k, k ∈ brackets -> k ∉ PP.

Abbreviation tloop := (parse_loop PP analyze_tokens analyze_array).
Abbreviation tturn := (parse_turn PP analyze_tokens analyze_array).
Abbreviation trun := (run_tree free analyze_tokens analyze_array).
Abbreviation truns := (run_trees free analyze_tokens analyze_array).

Lemma no_directive_incr lvls k :
  k ∈ brackets -> no_directive PP (incr lvls k) = no_directive PP lvls.
Proof.
  intros Hk. unfold no_directive.
  assert (H : forall l, (forall x, x ∈ l -> x ∈ PP) ->
            forallb (fun x => Nat.eqb (lvl (incr lvls k) x) 0) l
            = forallb (fun x => Nat.eqb (lvl lvls x) 0) l).
  { induction l as [|x l IH]; intros Hl; [done|]. simpl.
    rewrite IH by (intros y Hy; apply Hl; by right).
    rewrite lvl_incr_other; [done|].
    intros ->. apply (brackets_not_directives x Hk). apply Hl. by left. }
  by apply H.
Qed.

Lemma run_tree_group stop pre k inner st tk :
  trun stop pre (Group k inner) st tk
  = ('(inner_statements, inner_tokens) ←
       truns (match k with square => single | _ => stop end)
         (pre ++ [opener k]) inner [] [];
     expression ←
       close_group analyze_tokens analyze_array k
         (pre ++ opener k :: concat (map flatten inner))
         inner_statements inner_tokens;
     Ok (st, tk ++ [expression])).
Proof.
  simpl.
  match goal with
  | |- mbind _ (?F _ inner _ _) = _ =>
      assert (H : forall p s t,
                 F p inner s t
                 = truns (match k with square => single | _ => stop end) p inner s t)
  end.
  { induction inner as [|x inner IH]; intros p s t; [done|].
    simpl. destruct (trun _ p x s t) as [[s' t']| |]; simpl; [|done|done].
    apply IH. }
  by rewrite H.
Qed.

Lemma ends_statement_free lvls stop t :
  no_directive PP lvls = free ->
  ends_statement PP lvls stop t = separates free stop t.
Proof.
  intros H. unfold ends_statement, separates.
  rewrite H. destruct stop; simpl; [by rewrite orb_false_r, andb_true_r|].
  by rewrite andb_false_r.
Qed.

(** The turn at a token that is no bracket and no directive. *)
Lemma leaf_turn self pre t rest start lvls stop st tk :
  is_bracket t = false -> is_directive PP t = false ->
  free || negb (is_line_end t) = true ->
  no_directive PP lvls = free ->
  tturn self (pre ++ t :: rest) start lvls stop ∅ (py.len pre) st tk
  = match trun stop pre (Leaf t) st tk with
    | Ok (st', tk') =>
        self (pre ++ t :: rest) start lvls stop ∅ (py.len pre + 1)%Z st' tk'
    | Raise e => Raise e
    | OutOfFuel => OutOfFuel
    end.
Proof.
  intros Hb Hd He Hl. unfold parse_turn.
  rewrite in_range, py_index_middle. simpl negb. cbv iota. simpl or_raise.
  unfold mbind at 1, result_bind at 1. unfold mbind at 1, result_bind at 1.
  rewrite find_define_empty.
  unfold is_bracket in Hb.
  repeat (apply orb_false_elim in Hb as [Hb ?]).
  repeat match goal with H : token_eqb t _ = false |- _ => rewrite H; clear H end.
  unfold is_directive in Hd. rewrite Hd.
  rewrite (ends_statement_free _ _ _ Hl). rewrite Hl.
  replace (is_line_end t && negb free) with false
    by (destruct free, (is_line_end t); done).
  simpl. destruct (separates free stop t); [done|].
  by destruct (is_EndOfFile t).
Qed.

(** The turn at an opening bracket. *)
Lemma opener_turn self pre k rest start lvls stop st tk :
  tturn self (pre ++ opener k :: rest) start lvls stop ∅ (py.len pre) st tk
  = '(expression, size, defines) ←
      self (pre ++ opener k :: rest) (py.len pre + 1)%Z
        (incr lvls (bracket_key k))
        (match k with square => single | _ => stop end) ∅
        (py.len pre + 1)%Z [] [];
    self (pre ++ opener k :: rest) start lvls stop defines
      (py.len pre + (size + 1) + 1)%Z st (tk ++ [expression]).
Proof.
  unfold parse_turn.
  rewrite in_range, py_index_middle. simpl negb. cbv iota. simpl or_raise.
  unfold mbind at 1, result_bind at 1. unfold mbind at 1, result_bind at 1.
  rewrite find_define_empty.
  destruct k; simpl token_eqb; cbv iota; by rewrite or_zero_lvls_incr.
Qed.

(** The turn at a closing bracket of a kind that is open. *)
Lemma closer_turn self pre k rest start lvls stop st tk :
  lvl lvls (bracket_key k) <> 0 ->
  tturn self (pre ++ closer k :: rest) start lvls stop ∅ (py.len pre) st tk
  = (expression ← close_group analyze_tokens analyze_array k pre st tk;
     Ok (expression, (py.len pre - start)%Z, ∅)).
Proof.
  intros Hl. unfold parse_turn.
  rewrite in_range, py_index_middle. simpl negb. cbv iota. simpl or_raise.
  unfold mbind at 1, result_bind at 1. unfold mbind at 1, result_bind at 1.
  rewrite find_define_empty.
  apply Nat.eqb_neq in Hl. rewrite slice_to_app.
  destruct k; simpl token_eqb; cbv iota; simpl in Hl; rewrite Hl; try done.
  destruct st as [|[] st]; try done.
  - simpl. by destruct (analyze_array tk pre).
  - simpl. by destruct (analyze_array tokens pre).
Qed.

Abbreviation tcrossed := (crossed PP analyze_tokens analyze_array).
Abbreviation tcrosses t :=
  (forall fuel pre rest start lvls stop st tk,
     no_directive PP lvls = free -> length (flatten t) <= fuel ->
     tcrossed (flatten t) rest fuel pre start lvls stop st tk
       (trun stop pre t st tk)).

Lemma flatten_all_cons x l : flatten_all (x :: l) = flatten x ++ flatten_all l.
Proof. reflexivity. Qed.

Lemma py_len_cons {A} (x : A) l : py.len (x :: l) = (1 + py.len l)%Z.
Proof. unfold py.len. simpl. lia. Qed.

Lemma py_len_nil : py.len (@nil BaseType) = 0%Z.
Proof. done. Qed.

(** Crossing trees one after the other. *)
Lemma cross_trees l :
  Forall (fun t => tcrosses t) l ->
  forall fuel pre rest start lvls stop st tk,
    no_directive PP lvls = free -> length (flatten_all l) <= fuel ->
    tcrossed (flatten_all l) rest fuel pre start lvls stop st tk
      (truns stop pre l st tk).
Proof.
  induction 1 as [|x l Hx Hl IH]; intros fuel pre rest start lvls stop st tk Hfree Hfuel.
  - change (flatten_all []) with (@nil BaseType) in *.
    simpl. exists fuel. split; [lia|].
    by rewrite py_len_nil, Z.add_0_r.
  - rewrite flatten_all_cons in Hfuel |- *. rewrite length_app in Hfuel.
    specialize (Hx fuel pre (flatten_all l ++ rest) start lvls stop st tk Hfree
                  ltac:(lia)).
    simpl run_trees. unfold crossed in Hx |- *. cbv zeta in *.
    rewrite <- app_assoc.
    destruct (trun stop pre x st tk) as [[st1 tk1]|e|]; simpl; [|done|done].
    destruct Hx as (fuel1 & Hf1 & ->).
    specialize (IH fuel1 (pre ++ flatten x) rest start lvls stop st1 tk1 Hfree
                  ltac:(lia)).
    unfold crossed in IH. cbv zeta in IH.
    rewrite <- !app_assoc, py_len_app in IH.
    destruct (truns stop (pre ++ flatten x) l st1 tk1) as [[st2 tk2]|e|];
      [|done|done].
    destruct IH as (fuel2 & Hf2 & ->). exists fuel2.
    split; [rewrite length_app; lia|].
    f_equal. rewrite py_len_app. lia.
Qed.

Lemma cross_tree t : plain_leaves PP free t = true -> tcrosses t.
Proof.
  induction t as [t|k inner IH] using tree_ind';
    intros Hplain fuel pre rest start lvls stop st tk Hfree Hfuel.
  - simpl in Hplain. apply andb_prop in Hplain as [Hb He].
    apply andb_prop in Hb as [Hb Hd].
    apply negb_true_iff in Hb, Hd.
    destruct fuel as [|fuel]; [simpl in Hfuel; lia|].
    unfold crossed. cbv zeta. rewrite loop_S. simpl flatten. simpl app.
    rewrite (leaf_turn _ _ _ _ _ _ _ _ _ Hb Hd He Hfree).
    destruct (trun stop pre (Leaf t) st tk) as [[st' tk']|e|] eqn:E; [|done|done].
    exists fuel. split; [simpl; lia|].
    by rewrite py_len_cons, py_len_nil, Z.add_0_r.
  - assert (Hin : Forall (fun t => tcrosses t) inner).
    { simpl in Hplain. rewrite forallb_forall in Hplain.
      rewrite Forall_forall in IH |- *. intros x Hx. apply IH; [done|].
      apply Hplain. by apply list_elem_of_In. }
    clear IH Hplain.
    destruct fuel as [|fuel]; [simpl in Hfuel; lia|].
    simpl flatten in Hfuel |- *. simpl length in Hfuel.
    rewrite length_app in Hfuel. simpl length in Hfuel.
    fold (flatten_all inner) in Hfuel |- *.
    rewrite run_tree_group. fold (flatten_all inner).
    pose proof (cross_trees inner Hin fuel (pre ++ [opener k]) (closer k :: rest)
                  (py.len pre + 1)%Z (incr lvls (bracket_key k))
                  (match k with square => single | _ => stop end) [] []
                  ltac:(by rewrite (no_directive_incr _ _ (bracket_key_in k)))
                  ltac:(lia)) as Hc.
    unfold crossed in Hc |- *. cbv zeta in *.
    rewrite loop_S. simpl app. rewrite <- app_assoc. simpl app.
    rewrite opener_turn.
    rewrite <- !app_assoc in Hc. simpl app in Hc.
    rewrite py_len_app, py_len_cons, py_len_nil, Z.add_0_r in Hc.
    destruct (truns _ (pre ++ [opener k]) inner [] []) as [[st1 tk1]|e|];
      simpl mbind; unfold result_bind at 1.
    + destruct Hc as (fuel1 & Hf1 & ->).
      destruct fuel1 as [|fuel1]; [lia|]. rewrite loop_S.
      replace (pre ++ opener k :: flatten_all inner ++ closer k :: rest)
        with ((pre ++ opener k :: flatten_all inner) ++ closer k :: rest)
        by (by rewrite <- app_assoc).
      replace (py.len pre + 1 + py.len (flatten_all inner))%Z
        with (py.len (pre ++ opener k :: flatten_all inner))
        by (rewrite py_len_app, py_len_cons; lia).
      rewrite closer_turn by (rewrite lvl_incr_same; lia).
      destruct (close_group _ _ k _ st1 tk1) as [e| |]; simpl; [|done|done].
      exists fuel. split; [simpl; rewrite length_app; simpl; lia|]. f_equal.
      rewrite py_len_app, !py_len_cons, py_len_app, py_len_cons, py_len_nil. lia.
    + by rewrite Hc.
    + by rewrite Hc.
Qed.

Lemma cross_plain_trees trees :
  forallb (plain_leaves PP free) trees = true ->
  forall fuel pre rest start lvls stop st tk,
    no_directive PP lvls = free ->
    length (flatten_all trees) <= fuel ->
    tcrossed (flatten_all trees) rest fuel pre start lvls stop st tk
      (truns stop pre trees st tk).
Proof.
  intros Hplain. apply cross_trees.
  rewrite forallb_forall in Hplain. apply Forall_forall. intros x Hx.
  apply cross_tree. apply Hplain. by apply list_elem_of_In.
Qed.

End trees.

Lemma no_directive_zero PP : no_directive PP (zero_lvls PP) = true.
Proof. apply no_directive_spec, directive_free_zero. Qed.

(** X12: on tokens that are grouped by their brackets, with no directive
    among them and fuel for every token, [parse] is the recursion on the
    groups: square brackets give an [Array] of the elements between the
    commas, round ones a [Statement] in parentheses, curly ones a [Code],
    and separators split the tokens of a block into statements ([;] and [,]
    in general, [;] alone inside square brackets and the groups nested in
    them). *)
Theorem parse_groups_by_brackets PP parse_exp fuel trees
    (brackets_not_directives : forall k, k ∈ brackets -> k ∉ PP)
    (Hplain : forallb (plain_leaves PP true) trees = true)
    (Hfuel : length (flatten_all trees) + 1 < fuel) :
  parse PP parse_exp fuel (flatten_all trees)
  = parse_trees (_analyze_tokens parse_exp) (_analyze_array_tokens parse_exp) trees.
Proof.
  set (at_ := _analyze_tokens parse_exp).
  set (aa := _analyze_array_tokens parse_exp).
  change (parse PP parse_exp fuel (flatten_all trees))
    with ('(result, _, _) ←
            parse_loop PP at_ aa fuel (flatten_all trees ++ [EndOfFile]) 0
              (zero_lvls PP) both ∅ 0 [] [];
          Ok result).
  pose proof (cross_plain_trees PP at_ aa true brackets_not_directives trees Hplain
                fuel [] [EndOfFile] 0%Z (zero_lvls PP) both [] []
                (no_directive_zero PP) ltac:(lia)) as Hc.
  unfold crossed in Hc. cbv zeta in Hc. simpl app in Hc.
  rewrite py_len_nil, Z.add_0_l in Hc.
  unfold parse_trees.
  destruct (run_trees true at_ aa both [] trees [] []) as [[st tk]|e|];
    [|by rewrite Hc|by rewrite Hc].
  destruct Hc as (fuel1 & Hf1 & ->).
  destruct fuel1 as [|[|fuel1]]; [lia|lia|].
  rewrite loop_S.
  rewrite <- (app_nil_r (flatten_all trees ++ [EndOfFile])) at 1.
  rewrite <- app_assoc. simpl app.
  rewrite (leaf_turn PP at_ aa true _ (flatten_all trees) EndOfFile [] 0%Z _ both
             st tk eq_refl eq_refl eq_refl (no_directive_zero PP)).
  simpl run_tree. cbv iota. rewrite loop_S.
  replace (py.len (flatten_all trees) + 1)%Z
    with (py.len (flatten_all trees ++ [EndOfFile]))
    by (rewrite py_len_app, py_len_cons, py_len_nil; lia).
  rewrite turn_end. unfold block_end, brackets, find.
  rewrite !lvl_zero_lvls. simpl. done.
Qed.

Lemma parse_groups_by_brackets_witness :
  parse ["#define"; "#include"] (fun l => Statement l "" false) 10
    (flatten_all [Leaf (Variable_ "a"); Leaf (Keyword ";");
                  Group curly [Leaf (Variable_ "b")]])
  = Ok (Statement
          [Statement [Variable_ "a"] ";" false;
           Statement [Code [Statement [Variable_ "b"] "" false]] "" false]
          "" false).
Proof.
  refine (parse_groups_by_brackets ["#define"; "#include"]
            (fun l => Statement l "" false) 10
            [Leaf (Variable_ "a"); Leaf (Keyword ";");
             Group curly [Leaf (Variable_ "b")]] _ eq_refl _).
  - intros k Hk Hp. unfold brackets in Hk.
    repeat (apply elem_of_cons in Hk as [->|Hk];
            [repeat (apply elem_of_cons in Hp as [Hp|Hp]; [discriminate Hp|]);
             by apply elem_of_nil in Hp|]).
    by apply elem_of_nil in Hk.
  - simpl. lia.
Defined.

(** *** Directive lines *)

Section directives.
Variable PP : list string.
Variable analyze_tokens : list BaseType -> BaseType.
Variable analyze_array : list BaseType -> list BaseType -> result (list BaseType).
Hypothesis brackets_not_directives : forall k, k ∈ brackets -> k ∉ PP.

Abbreviation dloop := (parse_loop PP analyze_tokens analyze_array).
Abbreviation dturn := (parse_turn PP analyze_tokens analyze_array).
Abbreviation druns := (run_trees false analyze_tokens analyze_array).

(** The turn at a directive. *)
Lemma directive_turn self pre d rest start lvls stop st tk :
  is_bracket d = false -> is_directive PP d = true ->
  ends_statement PP lvls stop d = false ->
  dturn self (pre ++ d :: rest) start lvls stop ∅ (py.len pre) st tk
  = '(expression, size, defines) ←
      self (pre ++ d :: rest) (py.len pre + 1)%Z
        (incr lvls (keyword_value d)) stop ∅ (py.len pre + 1)%Z [] [];
    self (pre ++ d :: rest) start lvls stop defines
      (py.len pre + (size + 1) + 1)%Z
      (finish analyze_tokens st tk ++ [expression]) [].
Proof.
  intros Hb Hd He. unfold parse_turn.
  rewrite in_range, py_index_middle. simpl negb. cbv iota. simpl or_raise.
  unfold mbind at 1, result_bind at 1. unfold mbind at 1, result_bind at 1.
  rewrite find_define_empty.
  unfold is_bracket in Hb.
  repeat (apply orb_false_elim in Hb as [Hb ?]).
  repeat match goal with H : token_eqb d _ = false |- _ => rewrite H; clear H end.
  rewrite He. unfold is_directive in Hd. rewrite Hd.
  rewrite or_zero_lvls_incr. by destruct tk.
Qed.

(** The turn at the end of the line of a directive. *)
Lemma line_end_turn self before e rest start lvls stop st tk trigger :
  is_line_end e = true -> no_directive PP lvls = false ->
  py.index (before ++ e :: rest) (start - 1) = Some trigger ->
  dturn self (before ++ e :: rest) start lvls stop ∅ (py.len before) st tk
  = '(statements, defines) ←
      directive_statements analyze_tokens trigger e st tk ∅;
    Ok (Statement statements "" false, (py.len before - start)%Z, defines).
Proof.
  intros He Hl Ht. unfold parse_turn.
  rewrite in_range, py_index_middle. simpl negb. cbv iota. simpl or_raise.
  unfold mbind at 1, result_bind at 1. unfold mbind at 1, result_bind at 1.
  rewrite find_define_empty.
  assert (Hk : forall k, token_eqb e (Keyword k) = false) by (by destruct e).
  rewrite !Hk. unfold ends_statement. rewrite Hl, !Hk.
  replace (is_Keyword e) with false by (by destruct e).
  rewrite He. rewrite andb_false_r. simpl andb. simpl orb. cbv iota.
  rewrite Ht. simpl or_raise. unfold mbind at 1, result_bind at 1.
  unfold directive_statements. rewrite !andb_false_r.
  destruct (token_eqb trigger (Preprocessor "#define")); simpl;
    [by destruct (_analyze_define _)|done].
Qed.

Lemma no_directive_open lvls d :
  d ∈ PP -> no_directive PP (incr lvls d) = false.
Proof.
  intros Hd. apply not_true_is_false. intros H.
  apply no_directive_spec in H. specialize (H d Hd).
  rewrite lvl_incr_same in H. discriminate H.
Qed.

(** The block of a directive: it runs to the end of the line. *)
Lemma block_of_line fuel pre d line e rest lvls stop :
  no_directive PP lvls = false ->
  forallb (plain_leaves PP false) line = true ->
  is_line_end e = true ->
  length (flatten_all line) + 1 <= fuel ->
  dloop fuel (pre ++ d :: flatten_all line ++ e :: rest) (py.len pre + 1)%Z
    lvls stop ∅ (py.len pre + 1)%Z [] []
  = '(st_in, tk_in) ← druns stop (pre ++ [d]) line [] [];
    '(statements, defines) ←
      directive_statements analyze_tokens d e st_in tk_in ∅;
    Ok (Statement statements "" false, py.len (flatten_all line), defines).
Proof.
  intros Hl Hplain He Hfuel.
  pose proof (cross_plain_trees PP analyze_tokens analyze_array false
                brackets_not_directives line Hplain fuel (pre ++ [d]) (e :: rest)
                (py.len pre + 1)%Z lvls stop [] [] Hl ltac:(lia)) as Hc.
  unfold crossed in Hc. cbv zeta in Hc.
  rewrite <- !app_assoc in Hc. simpl app in Hc.
  rewrite py_len_app, py_len_cons, py_len_nil, Z.add_0_r in Hc.
  destruct (druns stop (pre ++ [d]) line [] []) as [[st_in tk_in]|x|];
    simpl mbind; [|by rewrite Hc|by rewrite Hc].
  destruct Hc as (fuel1 & Hf1 & ->).
  destruct fuel1 as [|fuel1]; [lia|]. rewrite loop_S.
  replace (pre ++ d :: flatten_all line ++ e :: rest)
    with ((pre ++ d :: flatten_all line) ++ e :: rest)
    by (by rewrite <- app_assoc).
  replace (py.len pre + 1 + py.len (flatten_all line))%Z
    with (py.len (pre ++ d :: flatten_all line))
    by (rewrite py_len_app, py_len_cons; lia).
  rewrite (line_end_turn _ _ _ _ _ _ _ _ _ d He Hl).
  2:{ replace (py.len pre + 1 - 1)%Z with (py.len pre) by lia.
      rewrite <- !app_assoc. simpl app. apply py_index_middle. }
  destruct (directive_statements _ d e st_in tk_in ∅) as [[sts defs]|x|];
    simpl; [|done|done].
  replace (py.len (pre ++ d :: flatten_all line) - (py.len pre + 1))%Z
    with (py.len (flatten_all line)); [done|].
  rewrite py_len_app, py_len_cons. lia.
Qed.

(** Crossing the line of a directive. *)
Lemma cross_directive fuel pre d line e rest start lvls stop st tk :
  is_bracket d = false -> is_directive PP d = true ->
  ends_statement PP lvls stop d = false ->
  forallb (plain_leaves PP false) line = true ->
  is_line_end e = true ->
  length (flatten_all line) + 1 <= fuel ->
  let all := pre ++ d :: flatten_all line ++ e :: rest in
  dloop (S fuel) all start lvls stop ∅ (py.len pre) st tk
  = '(st_in, tk_in) ← druns stop (pre ++ [d]) line [] [];
    '(statements, defines) ←
      directive_statements analyze_tokens d e st_in tk_in ∅;
    dloop fuel all start lvls stop defines
      (py.len pre + py.len (flatten_all line) + 2)%Z
      (finish analyze_tokens st tk ++ [Statement statements "" false]) [].
Proof.
  intros Hb Hd Hs Hplain He Hfuel all. subst all.
  assert (Hin : keyword_value d ∈ PP).
  { unfold is_directive in Hd. apply andb_prop in Hd as [_ Hd].
    by apply bool_decide_eq_true in Hd. }
  rewrite loop_S, (directive_turn _ _ _ _ _ _ _ _ _ Hb Hd Hs).
  rewrite (block_of_line _ _ _ _ _ _ _ _ (no_directive_open _ _ Hin) Hplain He Hfuel).
  destruct (druns stop (pre ++ [d]) line [] []) as [[st_in tk_in]|x|];
    simpl; [|done|done].
  destruct (directive_statements _ d e st_in tk_in ∅) as [[sts defs]|x|];
    simpl; [|done|done].
  f_equal. lia.
Qed.

(** Inside the line of a directive no token ends a statement. *)
Lemma run_keeps_statements t pre st tk st' tk' :
  run_tree false analyze_tokens analyze_array both pre t st tk = Ok (st', tk') ->
  st' = st.
Proof.
  intros H. destruct t as [x|k inner].
  - simpl in H. destruct (is_EndOfFile x); by injection H as <- <-.
  - rewrite run_tree_group in H.
    destruct (run_trees _ _ _ _ _ inner [] []) as [[a b]| |]; simpl in H; try done.
    destruct (close_group _ _ _ _ _ _); simpl in H; try done.
    by injection H as <- <-.
Qed.

Lemma runs_keep_statements line : forall pre st tk st' tk',
  druns both pre line st tk = Ok (st', tk') -> st' = st.
Proof.
  induction line as [|t line IH]; intros pre st tk st' tk' H; simpl in H.
  - by injection H as <- <-.
  - destruct (run_tree _ _ _ both pre t st tk) as [[a b]| |] eqn:E;
      simpl in H; try done.
    apply run_keeps_statements in E as ->.
    by apply IH in H.
Qed.

End directives.

Lemma line_tail_end e :
  is_line_tail e = true -> is_line_end e = true /\ is_EndOfFile e = false.
Proof. by destruct e. Qed.

(** X13: a directive other than [#define], the tokens of its line
    (grouped by their brackets, with no other directive) and the line end
    or comment that ends the line parse to one statement, made by
    [_analyze_tokens] of the directive, the tokens of the line and the line
    end; separators do not split the line. *)
Theorem directive_line_is_one_statement PP parse_exp fuel d line e
    (brackets_not_directives : forall k, k ∈ brackets -> k ∉ PP)
    (Hd : is_directive PP d = true)
    (Hb : is_bracket d = false) (Hs : is_separator d = false)
    (Hn : token_eqb d (Preprocessor "#define") = false)
    (Hplain : forallb (plain_leaves PP false) line = true)
    (He : is_line_tail e = true)
    (Hfuel : length (flatten_all line) + 3 < fuel) :
  parse PP parse_exp fuel (d :: flatten_all line ++ [e])
  = '(_, tokens) ←
      run_trees false (_analyze_tokens parse_exp)
        (_analyze_array_tokens parse_exp) both [d] line [] [];
    Ok (Statement
          [Statement [_analyze_tokens parse_exp (d :: tokens ++ [e])] "" false]
          "" false).
Proof.
  set (at_ := _analyze_tokens parse_exp).
  set (aa := _analyze_array_tokens parse_exp).
  destruct (line_tail_end e He) as [Hend Heof].
  change (parse PP parse_exp fuel (d :: flatten_all line ++ [e]))
    with ('(result, _, _) ←
            parse_loop PP at_ aa fuel
              ([] ++ d :: (flatten_all line ++ [e]) ++ [EndOfFile]) 0
              (zero_lvls PP) both ∅ (py.len (@nil BaseType)) [] [];
          Ok result).
  destruct fuel as [|fuel]; [lia|].
  rewrite <- app_assoc. simpl (_ ++ [EndOfFile]).
  rewrite (cross_directive PP at_ aa brackets_not_directives fuel [] d line e
             [EndOfFile] 0%Z (zero_lvls PP) both [] [] Hb Hd
             ltac:(by rewrite (ends_statement_free PP true _ _ _ (no_directive_zero PP)))
             Hplain Hend ltac:(lia)).
  simpl app.
  destruct (run_trees false at_ aa both [d] line [] []) as [[st_in tk_in]|x|] eqn:E;
    simpl; [|done|done].
  apply runs_keep_statements in E as ->.
  unfold directive_statements. rewrite Hn, Heof. simpl.
  destruct fuel as [|[|fuel]]; [lia|lia|].
  rewrite loop_S. rewrite py_len_nil, Z.add_0_l.
  replace (py.len (flatten_all line) + 2)%Z
    with (py.len (d :: flatten_all line ++ [e]))
    by (rewrite py_len_cons, py_len_app, py_len_cons, py_len_nil; lia).
  replace (d :: flatten_all line ++ [e; EndOfFile])
    with ((d :: flatten_all line ++ [e]) ++ EndOfFile :: [])
    by (simpl; by rewrite <- app_assoc).
  rewrite (leaf_turn PP at_ aa true _ _ EndOfFile [] 0%Z _ both _ _
             eq_refl eq_refl eq_refl (no_directive_zero PP)).
  simpl run_tree. cbv iota. rewrite loop_S.
  replace (py.len (d :: flatten_all line ++ [e]) + 1)%Z
    with (py.len ((d :: flatten_all line ++ [e]) ++ [EndOfFile]))
    by (rewrite py_len_app, (py_len_cons EndOfFile), py_len_nil; lia).
  rewrite turn_end. unfold block_end, brackets, find.
  rewrite !lvl_zero_lvls. simpl. done.
Qed.

Lemma directive_line_is_one_statement_witness :
  parse ["#define"; "#include"] (fun l => Statement l "" false) 10
    (Preprocessor "#include"
     :: flatten_all [Leaf Space; Leaf (String (Some "a;b"))] ++ [EndOfLine nl])
  = Ok (Statement
          [Statement
             [Statement
                [Preprocessor "#include"; Space; String (Some "a;b"); EndOfLine nl]
                "" false]
             "" false]
          "" false).
Proof.
  refine (directive_line_is_one_statement ["#define"; "#include"]
            (fun l => Statement l "" false) 10 (Preprocessor "#include")
            [Leaf Space; Leaf (String (Some "a;b"))] (EndOfLine nl)
            _ eq_refl eq_refl eq_refl eq_refl eq_refl eq_refl _).
  - intros k Hk Hp. unfold brackets in Hk.
    repeat (apply elem_of_cons in Hk as [->|Hk];
            [repeat (apply elem_of_cons in Hp as [Hp|Hp]; [discriminate Hp|]);
             by apply elem_of_nil in Hp|]).
    by apply elem_of_nil in Hk.
  - simpl. lia.
Defined.

(** X14: the block of a [#define], entered after the directive, reads
    the line to its end, makes the definition with [_analyze_define] of the
    directive, the tokens of the line and the line end (an end of file is
    left out), returns as size the number of tokens of the line, and
    registers the definition under its name and its number of
    parameters. *)
Theorem define_block_registers PP parse_exp fuel pre d line e rest lvls stop
    (brackets_not_directives : forall k, k ∈ brackets -> k ∉ PP)
    (Hd : token_eqb d (Preprocessor "#define") = true)
    (Hl : no_directive PP lvls = false)
    (Hplain : forallb (plain_leaves PP false) line = true)
    (He : is_line_end e = true)
    (Hfuel : length (flatten_all line) + 1 <= fuel) :
  parse_block PP (_analyze_tokens parse_exp) (_analyze_array_tokens parse_exp)
    fuel (pre ++ d :: flatten_all line ++ e :: rest) (py.len pre + 1) lvls stop ∅
  = '(statements, tokens) ←
      run_trees false (_analyze_tokens parse_exp)
        (_analyze_array_tokens parse_exp) stop (pre ++ [d]) line [] [];
    definition ←
      _analyze_define (d :: tokens ++ (if is_EndOfFile e then [] else [e]));
    Ok (Statement (statements ++ [definition]) "" false,
        py.len (flatten_all line),
        <[define_variable_name definition :=
            [(length (define_args definition), definition)]]> ∅).
Proof.
  unfold parse_block.
  assert (Hne : or_zero_lvls PP lvls = lvls).
  { unfold or_zero_lvls. rewrite bool_decide_eq_false_2; [done|].
    intros ->. assert (H : no_directive PP ∅ = true); [|congruence].
    apply forallb_forall. intros x _. unfold lvl. by rewrite lookup_empty. }
  rewrite Hne.
  rewrite (block_of_line PP _ _ brackets_not_directives _ _ _ _ _ _ _ _
             Hl Hplain He Hfuel).
  destruct (run_trees _ _ _ stop (pre ++ [d]) line [] []) as [[st_in tk_in]|x|];
    simpl; [|done|done].
  unfold directive_statements. rewrite Hd.
  replace (if is_EndOfFile e then d :: tk_in else (d :: tk_in) ++ [e])
    with (d :: tk_in ++ (if is_EndOfFile e then [] else [e]))
    by (destruct (is_EndOfFile e); [by rewrite app_nil_r|done]).
  destruct (_analyze_define _) as [definition|x|]; simpl; [|done|done].
  unfold add_define. by rewrite lookup_empty.
Qed.

Lemma define_block_registers_witness :
  parse_block ["#define"; "#include"]
    (_analyze_tokens (fun l => Statement l "" false))
    (_analyze_array_tokens (fun l => Statement l "" false)) 10
    ([] ++ Preprocessor "#define"
        :: flatten_all [Leaf Space; Leaf (Variable_ "X"); Leaf Space;
                        Leaf (Number (Some 1%Z))]
        ++ EndOfLine nl :: [EndOfFile])
    (py.len (@nil BaseType) + 1)
    (incr (zero_lvls ["#define"; "#include"]) "#define") both ∅
  = Ok (Statement
          [DefineStatement
             [Preprocessor "#define"; Space; Variable_ "X"; Space;
              Number (Some 1%Z)]
             "X" [Number (Some 1%Z)] [] nl]
          "" false,
        4%Z,
        {["X" := [(0, DefineStatement
                        [Preprocessor "#define"; Space; Variable_ "X"; Space;
                         Number (Some 1%Z)]
                        "X" [Number (Some 1%Z)] [] nl)]]}).
Proof.
  refine (define_block_registers ["#define"; "#include"]
            (fun l => Statement l "" false) 10 [] (Preprocessor "#define")
            [Leaf Space; Leaf (Variable_ "X"); Leaf Space; Leaf (Number (Some 1%Z))]
            (EndOfLine nl) [EndOfFile]
            (incr (zero_lvls ["#define"; "#include"]) "#define") both
            _ eq_refl eq_refl eq_refl eq_refl _).
  - intros k Hk Hp. unfold brackets in Hk.
    repeat (apply elem_of_cons in Hk as [->|Hk];
            [repeat (apply elem_of_cons in Hp as [Hp|Hp]; [discriminate Hp|]);
             by apply elem_of_nil in Hp|]).
    by apply elem_of_nil in Hk.
  - simpl. lia.
Defined.

(** ** The matching of macro calls *)

(** *** Calls of macros *)

Section calls.
Variable PP : list string.
Variable analyze_tokens : list BaseType -> BaseType.
Variable analyze_array : list BaseType -> list BaseType -> result (list BaseType).

Lemma match_arities_zero all i possible_args idx :
  Forall (fun p => fst p = 0) possible_args ->
  match_arities all i possible_args idx = Ok None.
Proof.
  induction 1 as [|[n d] l Hn Hl IH]; [done|].
  simpl in Hn. subst n. simpl. apply IH.
Qed.

Lemma next_is_open pre t o rest :
  str o = "(" ->
  (if (py.len pre + 1 <? py.len (pre ++ t :: o :: rest))%Z
   then t' ← or_raise (py.index (pre ++ t :: o :: rest) (py.len pre + 1))
                py.IndexError;
        Ok (String.eqb (str t') "(")
   else Ok false) = Ok true.
Proof.
  intros Ho.
  replace (py.len pre + 1 <? py.len (pre ++ t :: o :: rest))%Z with true.
  2:{ symmetry. apply Z.ltb_lt. rewrite py_len_app. unfold py.len. simpl. lia. }
  replace (pre ++ t :: o :: rest) with ((pre ++ [t]) ++ o :: rest)
    by (by rewrite <- app_assoc).
  replace (py.len pre + 1)%Z with (py.len (pre ++ [t]))
    by (rewrite py_len_app; unfold py.len; simpl; lia).
  rewrite py_index_middle. simpl. by rewrite Ho.
Qed.

(** X15: a name that is registered only without parameters is not
    expanded where an opening parenthesis follows it. *)
Theorem macro_without_parameters_not_called pre t o rest defines possible_args :
  defines !! str t = Some possible_args ->
  Forall (fun p => fst p = 0) possible_args ->
  str o = "(" ->
  find_define (pre ++ t :: o :: rest) defines (py.len pre) t = Ok None.
Proof.
  intros Hd Hz Ho. unfold find_define. rewrite Hd.
  rewrite (next_is_open pre t o rest Ho). simpl.
  by apply match_arities_zero.
Qed.

Lemma slice_from_app {A} (l : list A) t r :
  py.slice_from (l ++ t :: r) (py.len l + 1) = r.
Proof.
  unfold py.slice_from, py.clamp, py.len. rewrite length_app. simpl length.
  destruct (Z.of_nat (length l) + 1 <? 0)%Z eqn:E; [apply Z.ltb_lt in E; lia|].
  replace (Z.to_nat _) with (length (l ++ [t])).
  2:{ rewrite length_app. simpl. lia. }
  replace (l ++ t :: r) with ((l ++ [t]) ++ r) by (by rewrite <- app_assoc).
  by rewrite drop_app_length.
Qed.

Lemma self_reference_loop pre t rest stop defines possible_args d :
  is_Statement t = false ->
  defines !! str t = Some possible_args ->
  py.dict_get possible_args 0 = Some d ->
  define_args d = [] ->
  define_expression d = [t] ->
  (forall n, head rest = Some n -> str n <> "(") ->
  forall fuel start lvls st,
    parse_loop PP analyze_tokens analyze_array fuel (pre ++ t :: rest) start lvls
      stop defines (py.len pre) st [] = OutOfFuel.
Proof.
  intros Ht Hd H0 Ha He Hn.
  assert (Hfind : find_define (pre ++ t :: rest) defines (py.len pre) t
                  = Ok (Some (d, []))).
  { unfold find_define. rewrite Hd.
    destruct rest as [|n rest'].
    - replace (py.len pre + 1 <? py.len (pre ++ [t]))%Z with false.
      2:{ symmetry. apply Z.ltb_ge. rewrite py_len_app. unfold py.len. simpl. lia. }
      simpl. by rewrite H0.
    - replace (py.len pre + 1 <? py.len (pre ++ t :: n :: rest'))%Z with true.
      2:{ symmetry. apply Z.ltb_lt. rewrite py_len_app. unfold py.len. simpl. lia. }
      replace (pre ++ t :: n :: rest') with ((pre ++ [t]) ++ n :: rest')
        by (by rewrite <- app_assoc).
      replace (py.len pre + 1)%Z with (py.len (pre ++ [t]))
        by (rewrite py_len_app; unfold py.len; simpl; lia).
      rewrite py_index_middle. simpl.
      destruct (String.eqb (str n) "(") eqn:E.
      + apply String.eqb_eq in E. by destruct (Hn n eq_refl).
      + by rewrite H0. }
  induction fuel as [|fuel IH]; intros start lvls st; [done|].
  change (parse_turn PP analyze_tokens analyze_array
            (parse_loop PP analyze_tokens analyze_array fuel)
            (pre ++ t :: rest) start lvls stop defines (py.len pre) st []
          = OutOfFuel).
  unfold parse_turn. rewrite in_range. simpl negb. cbv iota.
  rewrite py_index_middle. simpl or_raise. simpl mbind.
  rewrite Hfind. simpl mbind. rewrite Ha, He. simpl length.
  simpl Nat.eqb. cbv iota.
  simpl replace_in_expression. rewrite (replace_in_leaf _ _ _ _ Ht).
  simpl zip. simpl find. simpl mbind.
  change (py.len (@nil BaseType)) with 0%Z.
  rewrite Z.sub_0_r.
  replace (1 + 2 * 0 + 2 * Z.of_nat 0 - 1 * 0)%Z with 1%Z by lia.
  rewrite slice_to_app, slice_from_app. simpl app.
  by rewrite IH.
Qed.

End calls.

(** X16: a macro without parameters whose body is its own name, used
    at the head of a statement and not followed by an opening parenthesis,
    is expanded into itself at the same index without end: [parse_block]
    returns with no amount of fuel. *)
Theorem self_referring_macro_never_ends PP analyze_tokens analyze_array
    pre t rest lvls stop defines possible_args d
    (Ht : is_Statement t = false)
    (Hd : defines !! str t = Some possible_args)
    (H0 : py.dict_get possible_args 0 = Some d)
    (Ha : define_args d = [])
    (He : define_expression d = [t])
    (Hn : forall n, head rest = Some n -> str n <> "(") (fuel : nat) :
  parse_block PP analyze_tokens analyze_array fuel (pre ++ t :: rest)
    (py.len pre) lvls stop defines = OutOfFuel.
Proof.
  unfold parse_block.
  by apply (self_reference_loop PP analyze_tokens analyze_array pre t rest stop
              defines possible_args d).
Qed.

Lemma self_referring_macro_never_ends_witness :
  parse_block ["#define"; "#include"]
    (_analyze_tokens (fun l => Statement l "" false))
    (_analyze_array_tokens (fun l => Statement l "" false)) 1000
    ([] ++ Variable_ "a" :: [Keyword ";"; EndOfFile]) (py.len (@nil BaseType))
    ∅ both
    {["a" := [(0, DefineStatement
                    [Preprocessor "#define"; Space; Variable_ "a"; Space;
                     Variable_ "a"] "a" [Variable_ "a"] [] nl)]]}
  = OutOfFuel.
Proof.
  refine (self_referring_macro_never_ends _ _ _ [] (Variable_ "a")
            [Keyword ";"; EndOfFile] ∅ both
            {["a" := [(0, DefineStatement
                            [Preprocessor "#define"; Space; Variable_ "a"; Space;
                             Variable_ "a"] "a" [Variable_ "a"] [] nl)]]}
            [(0, DefineStatement
                   [Preprocessor "#define"; Space; Variable_ "a"; Space;
                    Variable_ "a"] "a" [Variable_ "a"] [] nl)]
            _ eq_refl eq_refl eq_refl eq_refl eq_refl _ 1000).
  intros n Hn. injection Hn as <-. discriminate.
Defined.

(** *** The arguments of a call *)

Lemma py_index_in_range {A} (l : list A) k :
  (0 <= k)%Z -> (k < py.len l)%Z -> exists x, py.index l k = Some x.
Proof.
  intros H0 Hk. unfold py.index.
  destruct (k <? 0)%Z eqn:E; [apply Z.ltb_lt in E; lia|].
  apply lookup_lt_is_Some. unfold py.len in Hk. lia.
Qed.

Lemma py_index_Some_range {A} (l : list A) k x :
  (0 <= k)%Z -> py.index l k = Some x -> (k < py.len l)%Z.
Proof.
  intros H0. unfold py.index.
  destruct (k <? 0)%Z eqn:E; [apply Z.ltb_lt in E; lia|].
  intros H. apply lookup_lt_Some in H. unfold py.len. lia.
Qed.

(** The arguments from the [k]-th on, when the tokens reach the place of the
    closing parenthesis: the loop runs to that place. *)
Lemma match_args_run all i n cl :
  (0 <= i)%Z ->
  py.index all (i + 2 * Z.of_nat n + 1) = Some cl ->
  forall m k acc, n = k + m ->
    match_args all i n (seq k (m + 1)) acc
    = Ok (String.eqb (str cl) ")",
          acc ++ map (fun k => (i + 2 + 2 * Z.of_nat k)%Z) (seq k m)).
Proof.
  intros Hi Hcl. assert (Hlen : (i + 2 * Z.of_nat n + 1 < py.len all)%Z)
    by (apply (py_index_Some_range _ _ cl); [lia|done]).
  induction m as [|m IH]; intros k acc Hn.
  - simpl. rewrite Nat.add_0_r in Hn. subst k. rewrite Nat.eqb_refl.
    replace (i + 2 + 2 * Z.of_nat n - 1)%Z with (i + 2 * Z.of_nat n + 1)%Z by lia.
    destruct (py.len all <=? i + 2 * Z.of_nat n + 1)%Z eqn:E;
      [apply Z.leb_le in E; lia|].
    rewrite Hcl. simpl. rewrite app_nil_r.
    by destruct (String.eqb (str cl) ")").
  - change (seq k (S m + 1)) with (k :: seq (S k) (m + 1)).
    cbn [match_args].
    destruct (Nat.eqb k n) eqn:Ek; [apply Nat.eqb_eq in Ek; lia|].
    destruct (py.len all <=? i + 2 + 2 * Z.of_nat k)%Z eqn:E;
      [apply Z.leb_le in E; lia|].
    apply Z.leb_gt in E.
    destruct (py_index_in_range all (i + 2 + 2 * Z.of_nat k)%Z) as [x Hx];
      [lia|lia|].
    rewrite Hx. simpl or_raise. simpl mbind. simpl andb. cbv iota.
    rewrite (IH (S k) _ ltac:(lia)).
    by rewrite <- app_assoc.
Qed.

(** When the tokens end before the place of the closing parenthesis, the
    loop breaks. *)
Lemma match_args_short all i n :
  (0 <= i)%Z ->
  py.index all (i + 2 * Z.of_nat n + 1) = None ->
  forall m k acc, n = k + m ->
    exists acc', match_args all i n (seq k (m + 1)) acc = Ok (false, acc').
Proof.
  intros Hi Hcl.
  assert (Hlen : (py.len all <= i + 2 * Z.of_nat n + 1)%Z).
  { destruct (Z.le_gt_cases (py.len all) (i + 2 * Z.of_nat n + 1)) as [H|H];
      [done|].
    destruct (py_index_in_range all (i + 2 * Z.of_nat n + 1)%Z) as [x Hx];
      [lia|lia|congruence]. }
  induction m as [|m IH]; intros k acc Hn.
  - simpl. rewrite Nat.add_0_r in Hn. subst k. rewrite Nat.eqb_refl.
    replace (i + 2 + 2 * Z.of_nat n - 1)%Z with (i + 2 * Z.of_nat n + 1)%Z by lia.
    destruct (py.len all <=? i + 2 * Z.of_nat n + 1)%Z eqn:E;
      [by eexists|apply Z.leb_gt in E; lia].
  - change (seq k (S m + 1)) with (k :: seq (S k) (m + 1)).
    cbn [match_args].
    destruct (Nat.eqb k n) eqn:Ek; [apply Nat.eqb_eq in Ek; lia|].
    destruct (py.len all <=? i + 2 + 2 * Z.of_nat k)%Z eqn:E; [by eexists|].
    apply Z.leb_gt in E.
    destruct (py_index_in_range all (i + 2 + 2 * Z.of_nat k)%Z) as [x Hx];
      [lia|lia|].
    rewrite Hx. simpl or_raise. simpl mbind. simpl andb. cbv iota.
    apply (IH (S k)). lia.
Qed.

(** X17: a name registered for [n] parameters only, [n] not zero, and
    followed by an opening parenthesis is a call exactly when the token at
    index [i + 2 n + 1] reads as a closing parenthesis; the arguments are
    then the tokens at [i + 2], [i + 4], ..., [i + 2 n], and the tokens
    between them are not looked at. *)
Theorem macro_call_matched_by_closing all defines i name o n d
    (Hi : (0 <= i)%Z)
    (Hd : defines !! str name = Some [(n, d)])
    (Hn : n <> 0)
    (Ho : py.index all (i + 1) = Some o)
    (Hopen : str o = "(") :
  find_define all defines i name
  = match py.index all (i + 2 * Z.of_nat n + 1) with
    | Some cl =>
        if String.eqb (str cl) ")" then Ok (Some (d, argument_indexes i n))
        else Ok None
    | None => Ok None
    end.
Proof.
  unfold find_define. rewrite Hd.
  assert (Hlen : (i + 1 < py.len all)%Z)
    by (apply (py_index_Some_range _ _ o); [lia|done]).
  replace (i + 1 <? py.len all)%Z with true by (symmetry; apply Z.ltb_lt; lia).
  rewrite Ho. simpl or_raise. simpl mbind. rewrite Hopen. simpl String.eqb.
  cbv iota. cbn [match_arities].
  destruct (Nat.eqb n 0) eqn:E; [apply Nat.eqb_eq in E; lia|].
  destruct (py.index all (i + 2 * Z.of_nat n + 1)) as [cl|] eqn:Hcl.
  - rewrite (match_args_run all i n cl Hi Hcl n 0 [] eq_refl).
    simpl mbind. unfold argument_indexes.
    by destruct (String.eqb (str cl) ")").
  - destruct (match_args_short all i n Hi Hcl n 0 [] eq_refl) as [acc' ->].
    done.
Qed.

Lemma argument_indexes_lookup i n j :
  j < n -> argument_indexes i n !! j = Some (i + 2 + 2 * Z.of_nat j)%Z.
Proof.
  intros Hj. unfold argument_indexes. rewrite list_lookup_fmap.
  by rewrite lookup_seq_lt.
Qed.

Lemma argument_indexes_length i n : length (argument_indexes i n) = n.
Proof. unfold argument_indexes. by rewrite length_map, length_seq. Qed.

(** X18: the indexes found while a first number of parameters was tried
    in vain are kept when the next one is tried: when the name is registered
    for [n1] and then [n2] parameters and the call closes where [n2]
    arguments end, the indexes are those of [n1] arguments followed by those
    of [n2], and the parameter of index [j], from [n1] on, is replaced by
    the argument of index [j - n1]. *)
Theorem macro_retry_keeps_indexes all defines i name o n1 d1 n2 d2 more c cl
    (Hi : (0 <= i)%Z)
    (Hd : defines !! str name = Some ((n1, d1) :: (n2, d2) :: more))
    (H1 : n1 <> 0) (H2 : n2 <> 0)
    (Ho : py.index all (i + 1) = Some o)
    (Hopen : str o = "(")
    (Hc : py.index all (i + 2 * Z.of_nat n1 + 1) = Some c)
    (Hnc : str c <> ")")
    (Hcl : py.index all (i + 2 * Z.of_nat n2 + 1) = Some cl)
    (Hclose : str cl = ")") :
  find_define all defines i name
  = Ok (Some (d2, argument_indexes i n1 ++ argument_indexes i n2))
  /\ forall token j,
       is_Statement token = false ->
       define_args d2 !! j = Some (str token) ->
       (forall j', j' < j -> define_args d2 !! j' <> Some (str token)) ->
       n1 <= j < n2 ->
       replace_in_expression [token] (define_args d2)
         (argument_indexes i n1 ++ argument_indexes i n2) all
       = match py.index all (i + 2 + 2 * Z.of_nat (j - n1)) with
         | Some argument => Ok [argument]
         | None => Raise py.IndexError
         end.
Proof.
  split.
  - unfold find_define. rewrite Hd.
    assert (Hlen : (i + 1 < py.len all)%Z)
      by (apply (py_index_Some_range _ _ o); [lia|done]).
    replace (i + 1 <? py.len all)%Z with true by (symmetry; apply Z.ltb_lt; lia).
    rewrite Ho. simpl or_raise. simpl mbind. rewrite Hopen. simpl String.eqb.
    cbv iota. cbn [match_arities].
    destruct (Nat.eqb n1 0) eqn:E1; [apply Nat.eqb_eq in E1; lia|].
    destruct (Nat.eqb n2 0) eqn:E2; [apply Nat.eqb_eq in E2; lia|].
    rewrite (match_args_run all i n1 c Hi Hc n1 0 [] eq_refl).
    replace (String.eqb (str c) ")") with false
      by (symmetry; by apply String.eqb_neq).
    simpl mbind.
    rewrite (match_args_run all i n2 cl Hi Hcl n2 0 _ eq_refl).
    rewrite Hclose. simpl String.eqb. simpl mbind. done.
  - intros token j Ht Hj Hfirst Hrange. simpl.
    rewrite (replace_in_leaf _ _ _ _ Ht).
    rewrite (find_zip_first _ _ _ j (i + 2 + 2 * Z.of_nat (j - n1))%Z Hj Hfirst).
    + by destruct (py.index all (i + 2 + 2 * Z.of_nat (j - n1))).
    + rewrite lookup_app_r by (rewrite argument_indexes_length; lia).
      rewrite argument_indexes_length.
      apply argument_indexes_lookup. lia.
Qed.

Lemma macro_retry_keeps_indexes_witness :
  find_define
    [Variable_ "ADD"; Keyword "("; Number (Some 1%Z); Keyword ",";
     Number (Some 2%Z); Keyword ")"; EndOfFile]
    {["ADD" := [(1, DefineStatement [] "ADD" [Variable_ "a"] ["a"] nl);
                (2, DefineStatement [] "ADD"
                      [Variable_ "a"; Keyword "+"; Variable_ "b"] ["a"; "b"] nl)]]}
    0 (Variable_ "ADD")
  = Ok (Some (DefineStatement [] "ADD"
                [Variable_ "a"; Keyword "+"; Variable_ "b"] ["a"; "b"] nl,
              [2%Z; 2%Z; 4%Z]))
  /\ replace_in_expression [Variable_ "b"] ["a"; "b"] [2%Z; 2%Z; 4%Z]
       [Variable_ "ADD"; Keyword "("; Number (Some 1%Z); Keyword ",";
        Number (Some 2%Z); Keyword ")"; EndOfFile]
     = Ok [Number (Some 1%Z)].
Proof.
  pose proof
    (macro_retry_keeps_indexes
       [Variable_ "ADD"; Keyword "("; Number (Some 1%Z); Keyword ",";
        Number (Some 2%Z); Keyword ")"; EndOfFile]
       {["ADD" := [(1, DefineStatement [] "ADD" [Variable_ "a"] ["a"] nl);
                   (2, DefineStatement [] "ADD"
                         [Variable_ "a"; Keyword "+"; Variable_ "b"] ["a"; "b"] nl)]]}
       0%Z (Variable_ "ADD") (Keyword "(") 1
       (DefineStatement [] "ADD" [Variable_ "a"] ["a"] nl) 2
       (DefineStatement [] "ADD"
          [Variable_ "a"; Keyword "+"; Variable_ "b"] ["a"; "b"] nl)
       [] (Keyword ",") (Keyword ")")
       ltac:(lia) eq_refl ltac:(lia) ltac:(lia) eq_refl eq_refl eq_refl
       ltac:(discriminate) eq_refl eq_refl) as [Hfind Hrep].
  split; [exact Hfind|].
  refine (Hrep (Variable_ "b") 1 eq_refl eq_refl _ _).
  - intros [|j'] Hj'; [discriminate|lia].
  - lia.
Defined.

Lemma macro_call_matched_by_closing_witness :
  find_define
    [Variable_ "F"; Keyword "("; Number (Some 1%Z); Space;
     Number (Some 2%Z); Keyword ")"; EndOfFile]
    {["F" := [(2, DefineStatement [] "F" [Variable_ "a"; Variable_ "b"]
                    ["a"; "b"] nl)]]}
    0 (Variable_ "F")
  = Ok (Some (DefineStatement [] "F" [Variable_ "a"; Variable_ "b"]
                ["a"; "b"] nl, [2%Z; 4%Z])).
Proof.
  refine (macro_call_matched_by_closing
            [Variable_ "F"; Keyword "("; Number (Some 1%Z); Space;
             Number (Some 2%Z); Keyword ")"; EndOfFile]
            {["F" := [(2, DefineStatement [] "F" [Variable_ "a"; Variable_ "b"]
                            ["a"; "b"] nl)]]}
            0%Z (Variable_ "F") (Keyword "(") 2
            (DefineStatement [] "F" [Variable_ "a"; Variable_ "b"] ["a"; "b"] nl)
            _ eq_refl _ eq_refl eq_refl); lia.
Defined.

Lemma macro_without_parameters_not_called_witness :
  find_define
    ([] ++ Variable_ "F" :: Keyword "(" :: [Number (Some 1%Z); Keyword ")"])
    {["F" := [(0, DefineStatement [] "F" [Number (Some 3%Z)] [] nl)]]}
    (py.len (@nil BaseType)) (Variable_ "F")
  = Ok None.
Proof.
  refine (macro_without_parameters_not_called [] (Variable_ "F") (Keyword "(")
            [Number (Some 1%Z); Keyword ")"]
            {["F" := [(0, DefineStatement [] "F" [Number (Some 3%Z)] [] nl)]]}
            [(0, DefineStatement [] "F" [Number (Some 3%Z)] [] nl)]
            eq_refl _ eq_refl).
  by repeat constructor.
Defined.

(** ** Definitions, macro-like calls and the run of [analyze] *)

Section analyzer_facts.
Variable PP : list string.
Variable db : list BaseType -> list Expression.

Lemma execute_token_plain self t a h :
  is_plain t = true ->
  execute_token self t (a, h)
  = match defines a !! str t with
    | Some d => self_execute_token self d (a, h)
    | None => Ok (t, (a, h))
    end.
Proof.
  intros Ht. unfold execute_token.
  apply andb_prop in Ht as [Hs Ha]. apply negb_true_iff in Hs. rewrite Hs.
  destruct t as [| | | | | | | | | | | | | | | | values0 | | | | | |]; try discriminate;
    try (unfold mbind, M_bind, gets; simpl; by destruct (defines a !! _)).
  destruct values0; [discriminate|].
  unfold mbind, M_bind, gets; simpl; by destruct (defines a !! _).
Qed.

(** X19: definitions that refer to one another in a cycle (each token of
    the cycle is plain and is defined as a token of the cycle) make
    [execute_token] call itself without end: it returns with no amount of
    fuel. *)
Theorem cyclic_define_never_ends (P : BaseType -> Prop) a h
    (Hcycle : forall t, P t ->
       is_plain t = true /\ exists d, defines a !! str t = Some d /\ P d)
    fuel t (Ht : P t) :
  self_execute_token (methods PP db fuel) t (a, h) = OutOfFuel.
Proof.
  revert t Ht. induction fuel as [|fuel IH]; intros t Ht; [done|].
  destruct (Hcycle t Ht) as (Hp & d & Hd & HPd).
  change (execute_token (methods PP db fuel) t (a, h) = OutOfFuel).
  rewrite (execute_token_plain _ _ _ _ Hp), Hd. by apply IH.
Qed.

Lemma execute_define_stores d b1 rest a h :
  execute_define (d :: b1 :: rest) (a, h)
  = Ok (Nothing,
        (set_defines (<[str b1 := stored_define rest]> (defines a)) a, h)).
Proof. by destruct rest as [|b2 [|b3 rest]]. Qed.

Lemma execute_single_define self tokens ending p d rest s :
  base_tokens tokens = d :: rest ->
  token_eqb d (Keyword "#define") = true ->
  execute_single PP db self (Statement tokens ending p) s
  = execute_define (d :: rest) s.
Proof.
  intros Hb Hd. unfold execute_single. cbn [statement_parts]. rewrite Hb.
  destruct s as [a h]. unfold mbind at 1, M_bind, gets. simpl. by rewrite Hd.
Qed.


(** X21: a statement of two base tokens, a variable that is global,
    written in upper case or defined, and a statement in parentheses, is
    taken for the call of a macro: [execute_single] returns [Nothing] and
    leaves the analyzer as it is, the tokens in parentheses being neither
    executed nor evaluated. *)
Theorem macro_like_call_not_analysed self tokens ending p name l e s
    (Hb : base_tokens tokens = [Variable_ name; Statement l e true])
    (Hn : is_global name = true \/ isupper name = true
          \/ is_Some (defines (fst s) !! name)) :
  execute_single PP db self (Statement tokens ending p) s = Ok (Nothing, s).
Proof.
  unfold execute_single. cbn [statement_parts]. rewrite Hb.
  destruct s as [a h]. unfold mbind, M_bind, gets. cbn [fst snd] in *.
  cbn [token_eqb is_Keyword andb]. cbv iota.
  replace (looks_like_define (defines a) (Variable_ name) (Statement l e true))
    with true; [done|].
  symmetry. unfold looks_like_define. simpl str. rewrite andb_true_r.
  destruct Hn as [H|[H|H]].
  - by rewrite H.
  - rewrite H. by rewrite orb_true_r.
  - rewrite (bool_decide_eq_true_2 _ H). by rewrite orb_true_r.
Qed.

End analyzer_facts.

(** X22: a run of [analyze] on a given analyzer only appends to its
    diagnostics, keeps its namespaces and its current namespace, keeps
    every executed code executed, and keeps every unexecuted code unexecuted
    or makes it executed, as long as the actions of the expressions of the
    database do. *)
Theorem analyze_only_appends PP db fuel statement s s'
    (Hdb : database_preserves false db)
    (Hrun : analyze PP db fuel statement (Some s) = Ok s') :
  (exists more, exceptions (fst s') = exceptions (fst s) ++ more)
  /\ _namespaces (fst s') = _namespaces (fst s)
  /\ _current_namespace (fst s') = _current_namespace (fst s)
  /\ (forall k, k ∈ keys (_executed_codes (fst s)) ->
                k ∈ keys (_executed_codes (fst s')))
  /\ (forall k, k ∈ keys (_unexecuted_codes (fst s)) ->
                k ∈ keys (_unexecuted_codes (fst s'))
                \/ k ∈ keys (_executed_codes (fst s'))).
Proof.
  unfold analyze in Hrun.
  destruct (statement_parts statement) as [[[tokens ending] p]|]; [|done].
  simpl default in Hrun.
  destruct (self_execute_code _ _ _ _ s) as [[r s1]| |] eqn:E; [|done|done].
  simpl in Hrun. injection Hrun as <-.
  destruct (methods_preserve false PP db Hdb fuel eq_refl) as (_ & _ & _ & Hc).
  destruct (Hc _ _ _ _ _ _ E). auto.
Qed.

Lemma cyclic_define_never_ends_witness :
  self_execute_token (methods keywords.PREPROCESSORS call_database 100)
    (Variable_ "a")
    (set_defines {["a" := Variable_ "b"; "b" := Variable_ "a"]}
       (fst fresh_state), snd fresh_state)
  = OutOfFuel.
Proof.
  refine (cyclic_define_never_ends keywords.PREPROCESSORS call_database
            (fun t => t = Variable_ "a" \/ t = Variable_ "b")
            (set_defines {["a" := Variable_ "b"; "b" := Variable_ "a"]}
               (fst fresh_state))
            (snd fresh_state) _ 100 (Variable_ "a") (or_introl eq_refl)).
  intros t [->| ->]; (split; [reflexivity|]).
  - exists (Variable_ "b"). split; [vm_compute; reflexivity|by right].
  - exists (Variable_ "a"). split; [vm_compute; reflexivity|by left].
Defined.


Lemma macro_like_call_not_analysed_witness :
  execute_single keywords.PREPROCESSORS call_database
    (methods keywords.PREPROCESSORS call_database 3)
    (Statement [Variable_ "FOO";
                Statement [one; Keyword "+"; String (Some "x")] "" true]
       ";" false)
    fresh_state
  = Ok (Nothing, fresh_state).
Proof.
  exact (macro_like_call_not_analysed keywords.PREPROCESSORS call_database
           (methods keywords.PREPROCESSORS call_database 3)
           [Variable_ "FOO";
            Statement [one; Keyword "+"; String (Some "x")] "" true]
           ";" false "FOO" [one; Keyword "+"; String (Some "x")] "" fresh_state
           eq_refl (or_introl eq_refl)).
Defined.

Lemma analyze_only_appends_witness :
  exists s',
    analyze keywords.PREPROCESSORS call_database 10
      (Statement [Statement [Keyword "#include"] "" false] "" false)
      (Some fresh_state) = Ok s'
    /\ exists more, exceptions (fst s') = exceptions (fst fresh_state) ++ more.
Proof.
  eexists. split; [vm_compute; reflexivity|].
  refine (proj1 (analyze_only_appends keywords.PREPROCESSORS call_database 10
                   (Statement [Statement [Keyword "#include"] "" false] "" false)
                   fresh_state _ (call_database_preserves false) _)).
  vm_compute. reflexivity.
Defined.
